(** * Admin frame/event fan-out: subscription registry, broadcast and the
      observer-side frame cache.

    Shallow embedding of
    - [admin.go] (package [server]): [adminSubscriber], [AdminService], the
      three [Subscribe*] handlers and the [broadcast*]/publish operations;
    - [app.go] (package [main]): the latest-frame cache of the desktop client.

    Go pointers to subscribers are locations in an explicit heap, so that a
    subscriber that was replaced in the registry can still be closed by the
    handler that owns it.  Go channels are bounded FIFO buffers with a closed
    flag; Go panics are the [Panic] outcome.  [log.Printf] calls write to the
    process log only and are left out. *)

From Stdlib Require Import Strings.Byte Strings.Ascii.
From stdpp Require Import gmap strings list fin_maps.

(* ===================================================================== *)
(** ** Outcomes of Go code that may panic                                 *)
(* ===================================================================== *)

Inductive panic :=
  | SendOnClosedChannel
  | CloseOfClosedChannel
  | NilDereference.

Inductive result (A : Type) :=
  | Ok (a : A)
  | Panic (why : panic).
Arguments Ok {A} a.
Arguments Panic {A} why.

Definition result_bind {A B} (f : A → result B) (r : result A) : result B :=
  match r with
  | Ok a => f a
  | Panic w => Panic w
  end.

#[global] Instance result_mbind : MBind result := @result_bind.
#[global] Instance result_mret : MRet result := @Ok.

(** [for _, x := range l { body }] over a body that may panic. *)
Fixpoint forEach {A S} (body : A → S → result S) (l : list A) (s : S) : result S :=
  match l with
  | [] => Ok s
  | x :: l' => s' ← body x s; forEach body l' s'
  end.

(* ===================================================================== *)
(** ** Buffered channels                                                  *)
(* ===================================================================== *)

Module Chan.

Record chan (A : Type) := Make { buf : list A; cap : nat; closed : bool }.
Arguments Make {A} buf cap closed.
Arguments buf {A} c.
Arguments cap {A} c.
Arguments closed {A} c.

(** [make(chan A, n)] *)
Definition make {A} (n : nat) : chan A := Make [] n false.

(** What [select { case c <- x: default: }] does to an open channel: the
    value is appended when the buffer has room, and the [default] branch
    leaves the channel alone when it has none. *)
Definition enqueue {A} (c : chan A) (x : A) : chan A :=
  if decide (length (buf c) < cap c)
  then Make (buf c ++ [x]) (cap c) (closed c)
  else c.

(** [select { case c <- x: default: }]: a send that never blocks.  Sending
    on a closed channel panics, also inside [select]. *)
Definition trySend {A} (c : chan A) (x : A) : result (chan A) :=
  if closed c then Panic SendOnClosedChannel else Ok (enqueue c x).

(** [close(c)] *)
Definition close {A} (c : chan A) : result (chan A) :=
  if closed c then Panic CloseOfClosedChannel
  else Ok (Make (buf c) (cap c) true).

Inductive received (A : Type) :=
  | Item (x : A) (c' : chan A)   (* a value was taken from the buffer *)
  | Drained                      (* closed and empty: [range] ends *)
  | Blocked.                     (* open and empty: the receiver waits *)
Arguments Item {A} x c'.
Arguments Drained {A}.
Arguments Blocked {A}.

(** [x, ok := <-c] as seen by a [for x := range c] loop. *)
Definition recv {A} (c : chan A) : received A :=
  match buf c with
  | x :: b => Item x (Make b (cap c) (closed c))
  | [] => if closed c then Drained else Blocked
  end.

(** At capacity: a send would have to wait. *)
Definition full {A} (c : chan A) : Prop := cap c ≤ length (buf c).

#[global] Instance full_dec {A} (c : chan A) : Decision (full c) :=
  decide (cap c ≤ length (buf c)).

End Chan.

(* ===================================================================== *)
(** ** Package proto                                                      *)
(* ===================================================================== *)

Module proto.

(** Modelled from the spec: the generated message type [proto.FrameData] is
    not among the sources; section 6 of the specification gives its wire
    fields [agentId: string], [imageData: bytes], [isPreview: bool],
    [timestamp: int64]. *)
Record FrameData := mkFrameData {
  AgentId : string;
  ImageData : list byte;
  Timestamp : Z;
  IsPreview : bool
  }.

(** Modelled from the spec: [proto.EventData] is not among the sources;
    section 6 gives [agentId: string] and an opaque event payload. *)
Record EventData := mkEventData {
  EventAgentId : string;
  EventPayload : list byte
  }.

(** [*proto.FrameData] and [*proto.EventData]: [None] is the nil pointer.
    Messages are never mutated after construction, so a pointer is
    modelled by the value it points to. *)
Abbreviation FramePtr := (option FrameData).
Abbreviation EventPtr := (option EventData).

(** Modelled from the spec: the generated getters are not among the
    sources; they return the field, or the zero value on a nil receiver. *)
Definition GetAgentId (f : FramePtr) : string :=
  match f with Some x => AgentId x | None => "" end.
Definition GetImageData (f : FramePtr) : list byte :=
  match f with Some x => ImageData x | None => [] end.
Definition GetTimestamp (f : FramePtr) : Z :=
  match f with Some x => Timestamp x | None => 0%Z end.
Definition GetIsPreview (f : FramePtr) : bool :=
  match f with Some x => IsPreview x | None => false end.

#[global] Instance byte_eq_dec : EqDecision byte := Byte.byte_eq_dec.
#[global] Instance FrameData_eq_dec : EqDecision FrameData.
Proof. solve_decision. Defined.
#[global] Instance EventData_eq_dec : EqDecision EventData.
Proof. solve_decision. Defined.

End proto.


(* ===================================================================== *)
(** ** Package server (admin.go)                                          *)
(* ===================================================================== *)

Module server.
Import proto.

Definition FRAME_CHANNEL_BUFFER_SIZE : nat := 4096.
Definition OFFLINE_TIMESTAMP : Z := 0.

(** Heap locations: the values of type [*adminSubscriber]. *)
Abbreviation loc := nat.

(** What running the body of [closeOnce.Do] does, in order. *)
Inductive closeEffect :=
  | ClosedFrameChan
  | ClosedEventChan
  | CalledCloseFn (fn : nat).

(** [closeOnce] is the done flag of the [sync.Once]; [closeFn] is nil or a
    callback, named by a token. *)
Record adminSubscriber := mkSubscriber {
  adminId : string;
  frameChan : Chan.chan FramePtr;
  eventChan : Chan.chan EventPtr;
  closeOnce : bool;
  closeFn : option nat
}.

Definition newAdminSubscriber (adminId : string) : adminSubscriber :=
  {| adminId := adminId;
     frameChan := Chan.make FRAME_CHANNEL_BUFFER_SIZE;
     eventChan := Chan.make FRAME_CHANNEL_BUFFER_SIZE;
     closeOnce := false;
     closeFn := None |}.

Definition newOfflineFrame (agentId : string) : FramePtr :=
  Some {| AgentId := agentId;
          ImageData := [];
          Timestamp := OFFLINE_TIMESTAMP;
          IsPreview := true |}.

Definition isOfflineFrame (frame : FramePtr) : bool :=
  match frame with
  | None => false
  | Some f => (Timestamp f =? OFFLINE_TIMESTAMP)%Z && (length (ImageData f) =? 0)%nat
  end.

(** [(a *adminSubscriber) close()].  [sync.Once.Do] runs its argument on the
    first call only; the calls are serialised by the [Once], so two calls are
    two applications of this function one after the other. *)
Definition close (a : adminSubscriber) : result (adminSubscriber * list closeEffect) :=
  if closeOnce a then Ok (a, [])
  else
    fc ← Chan.close (frameChan a);
    ec ← Chan.close (eventChan a);
    Ok ({| adminId := adminId a; frameChan := fc; eventChan := ec;
           closeOnce := true; closeFn := closeFn a |},
        [ClosedFrameChan; ClosedEventChan]
          ++ match closeFn a with Some fn => [CalledCloseFn fn] | None => [] end).

(** The three registry maps; the values are pointers to subscribers. *)
Record AdminService := mkAdminService {
  overviewSubs : gmap string loc;
  detailSubs : gmap string (gmap string loc);
  eventSubs : gmap string (gmap string loc)
}.

Definition NewAdminService : AdminService :=
  {| overviewSubs := ∅; detailSubs := ∅; eventSubs := ∅ |}.

(** A subscription key: which map, and the request's ids. *)
Inductive key :=
  | KOverview (adminId : string)
  | KDetail (adminId agentId : string)
  | KEvents (adminId agentId : string).

#[global] Instance key_eq_dec : EqDecision key.
Proof. solve_decision. Defined.

(** [m[adminId][agentId]], reading through a missing (nil) inner map. *)
Definition lookup2 (adminId agentId : string)
    (m : gmap string (gmap string loc)) : option loc :=
  m !! adminId ≫= λ inner, inner !! agentId.

Definition lookupKey (s : AdminService) (k : key) : option loc :=
  match k with
  | KOverview a => overviewSubs s !! a
  | KDetail a g => lookup2 a g (detailSubs s)
  | KEvents a g => lookup2 a g (eventSubs s)
  end.

(** [if m[adminId] == nil { m[adminId] = make(...) }; m[adminId][agentId] = sub] *)
Definition insert2 (adminId agentId : string) (p : loc)
    (m : gmap string (gmap string loc)) : gmap string (gmap string loc) :=
  let m1 := match m !! adminId with
            | None => <[adminId := ∅]> m
            | Some _ => m
            end in
  <[adminId := <[agentId := p]> (default ∅ (m1 !! adminId))]> m1.

(** [delete(m[adminId], agentId); if len(m[adminId]) == 0 { delete(m, adminId) }].
    [delete] on a missing (nil) inner map does nothing and its [len] is 0. *)
Definition delete2 (adminId agentId : string)
    (m : gmap string (gmap string loc)) : gmap string (gmap string loc) :=
  let m1 := match m !! adminId with
            | Some inner => <[adminId := delete agentId inner]> m
            | None => m
            end in
  if decide (size (default ∅ (m1 !! adminId)) = 0) then delete adminId m1 else m1.

(** The locked section at the start of [SubscribeOverview], [SubscribeDetail]
    and [SubscribeEvents]. *)
Definition register (k : key) (p : loc) (s : AdminService) : AdminService :=
  match k with
  | KOverview a =>
      {| overviewSubs := <[a := p]> (overviewSubs s);
         detailSubs := detailSubs s; eventSubs := eventSubs s |}
  | KDetail a g =>
      {| overviewSubs := overviewSubs s;
         detailSubs := insert2 a g p (detailSubs s); eventSubs := eventSubs s |}
  | KEvents a g =>
      {| overviewSubs := overviewSubs s;
         detailSubs := detailSubs s; eventSubs := insert2 a g p (eventSubs s) |}
  end.

(** The locked section of the deferred function of the three handlers. *)
Definition unregister (k : key) (s : AdminService) : AdminService :=
  match k with
  | KOverview a =>
      {| overviewSubs := delete a (overviewSubs s);
         detailSubs := detailSubs s; eventSubs := eventSubs s |}
  | KDetail a g =>
      {| overviewSubs := overviewSubs s;
         detailSubs := delete2 a g (detailSubs s); eventSubs := eventSubs s |}
  | KEvents a g =>
      {| overviewSubs := overviewSubs s;
         detailSubs := detailSubs s; eventSubs := delete2 a g (eventSubs s) |}
  end.

(** Where a running [Subscribe*] call stands. *)
Inductive phase :=
  | Streaming      (* registered, inside the [for ... range] loop *)
  | Returning      (* the loop was left; the deferred function has not run *)
  | Unregistered   (* the deferred function has deleted the key *)
  | TornDown.      (* the deferred function has called [sub.close()] *)

(** The locals of one [Subscribe*] call: the request, the program point and
    what [stream.Send] has accepted so far. *)
Record handler := mkHandler {
  h_key : key;
  h_phase : phase;
  h_frames : list FramePtr;
  h_events : list EventPtr
}.

(** The subscribers allocated so far, the running handlers (one per
    subscriber, under the subscriber's location) and the service. *)
Record state := mkState {
  heap : gmap loc adminSubscriber;
  handlers : gmap loc handler;
  nextLoc : loc;
  svc : AdminService
}.

Definition init : state :=
  {| heap := ∅; handlers := ∅; nextLoc := 0; svc := NewAdminService |}.

Definition set_heap (h : gmap loc adminSubscriber) (st : state) : state :=
  {| heap := h; handlers := handlers st; nextLoc := nextLoc st; svc := svc st |}.

Definition set_frameChan (c : Chan.chan FramePtr) (a : adminSubscriber) : adminSubscriber :=
  {| adminId := adminId a; frameChan := c; eventChan := eventChan a;
     closeOnce := closeOnce a; closeFn := closeFn a |}.

Definition set_eventChan (c : Chan.chan EventPtr) (a : adminSubscriber) : adminSubscriber :=
  {| adminId := adminId a; frameChan := frameChan a; eventChan := c;
     closeOnce := closeOnce a; closeFn := closeFn a |}.

(** [select { case sub.frameChan <- frame: default: }] through the pointer. *)
Definition sendFrame (frame : FramePtr) (p : loc)
    (h : gmap loc adminSubscriber) : result (gmap loc adminSubscriber) :=
  match h !! p with
  | None => Panic NilDereference
  | Some sub =>
      c ← Chan.trySend (frameChan sub) frame;
      Ok (<[p := set_frameChan c sub]> h)
  end.

(** [select { case s.eventChan <- event: default: }] through the pointer. *)
Definition sendEvent (event : EventPtr) (p : loc)
    (h : gmap loc adminSubscriber) : result (gmap loc adminSubscriber) :=
  match h !! p with
  | None => Panic NilDereference
  | Some sub =>
      c ← Chan.trySend (eventChan sub) event;
      Ok (<[p := set_eventChan c sub]> h)
  end.

(** The loop bodies, over one entry of the map that is ranged over. *)
Definition overviewBody (frame : FramePtr) (e : string * loc) :=
  sendFrame frame e.2.

Definition detailBody (agentId : string) (frame : FramePtr)
    (e : string * gmap string loc) (h : gmap loc adminSubscriber) :=
  match e.2 !! agentId with
  | Some p => sendFrame frame p h
  | None => Ok h
  end.

Definition eventsBody (agentId : string) (event : EventPtr)
    (e : string * gmap string loc) (h : gmap loc adminSubscriber) :=
  match e.2 !! agentId with
  | Some p => sendEvent event p h
  | None => Ok h
  end.

(** The broadcasts range over a Go map, whose iteration order is not
    specified; [map_to_list] fixes one order, and [forEach_sendFrame_perm]
    and [forEach_sendEvent_perm] below show that the order does not matter. *)
Definition broadcastOverview (frame : FramePtr) (st : state) : result state :=
  h ← forEach (overviewBody frame) (map_to_list (overviewSubs (svc st))) (heap st);
  Ok (set_heap h st).

Definition broadcastDetail (agentId : string) (frame : FramePtr) (st : state)
    : result state :=
  h ← forEach (detailBody agentId frame) (map_to_list (detailSubs (svc st))) (heap st);
  Ok (set_heap h st).

Definition broadcastEvents (agentId : string) (event : EventPtr) (st : state)
    : result state :=
  h ← forEach (eventsBody agentId event) (map_to_list (eventSubs (svc st))) (heap st);
  Ok (set_heap h st).

Definition PublishAgentOffline (agentId : string) (st : state) : result state :=
  let offlineFrame := newOfflineFrame agentId in
  st1 ← broadcastOverview offlineFrame st;
  broadcastDetail agentId offlineFrame st1.

(** The closing [isOfflineFrame] test of the source only chooses whether a
    log line is written. *)
Definition HandleIncomingFrame (frame : FramePtr) (st : state) : result state :=
  match frame with
  | None => Ok st
  | Some f =>
      st1 ← broadcastOverview frame st;
      broadcastDetail (AgentId f) frame st1
  end.

(** *** The [Subscribe*] handlers, one atomic step at a time *)

(** [SubscribeOverview], [SubscribeDetail] and [SubscribeEvents] differ in
    the map they use and the channel they drain; [key] says which of the
    three a call is.  Each call is: register (below), loop ([pump]), and the
    deferred function in its two halves ([teardownUnregister], then
    [teardownClose]).

    Lines 92-97, 118-127, 151-160: create the subscriber and register it. *)
Definition subscribe (k : key) (st : state) : loc * state :=
  let adminId := match k with
                 | KOverview a | KDetail a _ | KEvents a _ => a
                 end in
  let sub := newAdminSubscriber adminId in
  let p := nextLoc st in
  (p, {| heap := <[p := sub]> (heap st);
         handlers := <[p := mkHandler k Streaming [] []]> (handlers st);
         nextLoc := S p;
         svc := register k p (svc st) |}).

Definition set_phase (ph : phase) (h : handler) : handler :=
  {| h_key := h_key h; h_phase := ph; h_frames := h_frames h; h_events := h_events h |}.

(** Lines 107-112, 140-145, 173-178: one iteration of
    [for frame := range sub.frameChan] (overview and detail) or
    [for event := range sub.eventChan] (events): take the next item and
    pass it to [stream.Send], which succeeds or not ([sendOk]); an empty open
    channel leaves the handler waiting. *)
Definition pump (p : loc) (sendOk : bool) (st : state) : result state :=
  match handlers st !! p, heap st !! p with
  | Some h, Some sub =>
      match h_phase h with
      | Streaming =>
          match h_key h with
          | KOverview _ | KDetail _ _ =>
              match Chan.recv (frameChan sub) with
              | Chan.Item x c =>
                  Ok {| heap := <[p := set_frameChan c sub]> (heap st);
                        handlers :=
                          <[p := if sendOk
                                 then mkHandler (h_key h) Streaming
                                        (h_frames h ++ [x]) (h_events h)
                                 else set_phase Returning h]> (handlers st);
                        nextLoc := nextLoc st; svc := svc st |}
              | Chan.Drained =>
                  Ok {| heap := heap st;
                        handlers := <[p := set_phase Returning h]> (handlers st);
                        nextLoc := nextLoc st; svc := svc st |}
              | Chan.Blocked => Ok st
              end
          | KEvents _ _ =>
              match Chan.recv (eventChan sub) with
              | Chan.Item x c =>
                  Ok {| heap := <[p := set_eventChan c sub]> (heap st);
                        handlers :=
                          <[p := if sendOk
                                 then mkHandler (h_key h) Streaming
                                        (h_frames h) (h_events h ++ [x])
                                 else set_phase Returning h]> (handlers st);
                        nextLoc := nextLoc st; svc := svc st |}
              | Chan.Drained =>
                  Ok {| heap := heap st;
                        handlers := <[p := set_phase Returning h]> (handlers st);
                        nextLoc := nextLoc st; svc := svc st |}
              | Chan.Blocked => Ok st
              end
          end
      | _ => Ok st
      end
  | _, _ => Ok st
  end.

(** Lines 99-101, 129-134, 162-167: the deferred function, first half,
    [s.mu.Lock(); delete ...; s.mu.Unlock()].  The key is the handler's own
    request, whoever is registered under it. *)
Definition teardownUnregister (p : loc) (st : state) : result state :=
  match handlers st !! p with
  | Some h =>
      match h_phase h with
      | Returning =>
          Ok {| heap := heap st;
                handlers := <[p := set_phase Unregistered h]> (handlers st);
                nextLoc := nextLoc st;
                svc := unregister (h_key h) (svc st) |}
      | _ => Ok st
      end
  | None => Ok st
  end.

(** [sub.close()] through the pointer. *)
Definition closeSub (p : loc) (st : state) : result state :=
  match heap st !! p with
  | None => Panic NilDereference
  | Some sub => r ← close sub; Ok (set_heap (<[p := r.1]> (heap st)) st)
  end.

(** Lines 102, 135, 168: the deferred function, second half, [sub.close()]. *)
Definition teardownClose (p : loc) (st : state) : result state :=
  match handlers st !! p with
  | Some h =>
      match h_phase h with
      | Unregistered =>
          st1 ← closeSub p st;
          Ok {| heap := heap st1;
                handlers := <[p := set_phase TornDown h]> (handlers st1);
                nextLoc := nextLoc st1; svc := svc st1 |}
      | _ => Ok st
      end
  | None => Ok st
  end.

(** What can happen next: an RPC arrives, a handler takes one of its steps,
    or a producer publishes.  A handler step that is not enabled (wrong
    program point, empty open channel) leaves the state as it is. *)
Inductive action :=
  | Subscribe (k : key)
  | Pump (p : loc) (sendOk : bool)
  | Unregister (p : loc)
  | Close (p : loc)
  | IncomingFrame (frame : FramePtr)
  | AgentOffline (agentId : string)
  | PublishEvent (agentId : string) (event : EventPtr).

Definition step (a : action) (st : state) : result state :=
  match a with
  | Subscribe k => Ok (subscribe k st).2
  | Pump p sendOk => pump p sendOk st
  | Unregister p => teardownUnregister p st
  | Close p => teardownClose p st
  | IncomingFrame frame => HandleIncomingFrame frame st
  | AgentOffline agentId => PublishAgentOffline agentId st
  | PublishEvent agentId event => broadcastEvents agentId event st
  end.

Definition run (tr : list action) (st : state) : result state :=
  forEach step tr st.

Definition reachable (st : state) : Prop :=
  ∃ tr, run tr init = Ok st.

End server.

(* ===================================================================== *)
(** ** Package main (app.go): the observer client's frame cache           *)
(* ===================================================================== *)

Module main.

Record frameSnapshot := mkFrameSnapshot {
  AgentID : string;
  ImageBase : string;
  IsPreview : bool;
  Timestamp : Z
}.

(** Of the fields of [App] only the cache carries data; the others are
    connection handles.  A cached [*frameSnapshot] is written once and only
    read afterwards, so the map holds the snapshots themselves. *)
Record App := mkApp {
  latestFrames : gmap string frameSnapshot
}.

Definition NewApp : App := {| latestFrames := ∅ |}.

(** [base64.StdEncoding]: the alphabet, and the padded encoding of RFC 4648. *)
Definition encodeStd : string :=
  "ABCDEFGHIJKLMNOPQRSTUVWXYZabcdefghijklmnopqrstuvwxyz0123456789+/".

Definition sextet (v : N) (shift : N) : Ascii.ascii :=
  default "="%char
    (String.list_ascii_of_string encodeStd !! N.to_nat (N.land (N.shiftr v shift) 63)).

Fixpoint EncodeToString (src : list byte) : string :=
  match src with
  | [] => ""
  | [a] =>
      let v := N.shiftl (Byte.to_N a) 16 in
      String (sextet v 18) (String (sextet v 12) "==")
  | [a; b] =>
      let v := N.lor (N.shiftl (Byte.to_N a) 16) (N.shiftl (Byte.to_N b) 8) in
      String (sextet v 18) (String (sextet v 12) (String (sextet v 6) "="))
  | a :: b :: c :: rest =>
      let v := N.lor (N.lor (N.shiftl (Byte.to_N a) 16) (N.shiftl (Byte.to_N b) 8))
                     (Byte.to_N c) in
      String (sextet v 18) (String (sextet v 12) (String (sextet v 6)
        (String (sextet v 0) (EncodeToString rest))))
  end.

Definition storeFrame (f : proto.FramePtr) (base64Str : string) (a : App) : App :=
  {| latestFrames :=
       <[proto.GetAgentId f :=
           {| AgentID := proto.GetAgentId f;
              ImageBase := base64Str;
              IsPreview := proto.GetIsPreview f;
              Timestamp := proto.GetTimestamp f |}]> (latestFrames a) |}.

(** The values of the cache, in the unspecified order of a Go map range. *)
Definition GetLatestFrames (a : App) : list frameSnapshot :=
  (map_to_list (latestFrames a)).*2.

(** The cache part of one round of the receive loop of [subscribeOverview]
    (lines 107-108); the event emitted to the front end does not touch the
    cache. *)
Definition receive (frame : proto.FramePtr) (a : App) : App :=
  let bs := EncodeToString (proto.GetImageData frame) in
  storeFrame frame bs a.

Definition receiveAll (frames : list proto.FramePtr) (a : App) : App :=
  foldl (λ a f, receive f a) a frames.

End main.

(* ===================================================================== *)
(** ** The front end (App.tsx): the displayed frames                      *)
(* ===================================================================== *)

Module frontend.

Definition OFFLINE_TIMESTAMP : Z := 0.

(** [OverviewFrameData], the payload of an [overviewFrame] event.  The
    timestamp is a JSON number; only the test against 0 is made on it, and a
    non-zero integer stays non-zero on the way. *)
Record OverviewFrameData := mkOverviewFrameData {
  agentId : string;
  imageBase64 : string;
  isPreview : bool;
  timestamp : Z
}.

(** [!data.imageBase64]: of the strings only the empty one is falsy. *)
Definition isOffline (data : OverviewFrameData) : bool :=
  (timestamp data =? OFFLINE_TIMESTAMP)%Z && String.eqb (imageBase64 data) "".

(** The state update of the event handler (lines 43-53); the state
    [frames] is an object used as a map from agent ids to payloads. *)
Definition handler (data : OverviewFrameData)
    (prev : gmap string OverviewFrameData) : gmap string OverviewFrameData :=
  if isOffline data
  then delete (agentId data) prev
  else <[agentId data := data]> prev.

End frontend.

(* ===================================================================== *)
(** ** Invariants and the vocabulary of the properties                    *)
(* ===================================================================== *)

Import proto server.

(** The shape of the offline marker as the specification words it. *)
Definition offlineShape (f : FrameData) : Prop :=
  ImageData f = [] ∧ Timestamp f = 0%Z ∧ IsPreview f = true.

(** The offline marker for an agent, written out. *)
Definition offlineMarker (agentId : string) : FramePtr :=
  Some (mkFrameData agentId [] 0 true).

(** A subscriber's channels are closed exactly when its [Once] has fired:
    nothing but [close] closes them. *)
Definition subscriberOk (a : adminSubscriber) : Prop :=
  Chan.closed (frameChan a) = closeOnce a ∧ Chan.closed (eventChan a) = closeOnce a.

(** [n] calls of [close] in a row, with everything they did. *)
Fixpoint closeTimes (n : nat) (a : adminSubscriber)
    : result (adminSubscriber * list closeEffect) :=
  match n with
  | 0 => Ok (a, [])
  | S n' =>
      r ← close a;
      r' ← closeTimes n' r.1;
      Ok (r'.1, r.2 ++ r'.2)
  end.

(** No outer entry of a two-level map holds an empty inner map. *)
Definition noEmptyInner (m : gmap string (gmap string loc)) : Prop :=
  ∀ a inner, m !! a = Some inner → inner ≠ ∅.

(** What a non-blocking send does to an open subscriber. *)
Definition pushFrame (frame : FramePtr) (a : adminSubscriber) : adminSubscriber :=
  set_frameChan (Chan.enqueue (frameChan a) frame) a.

Definition pushEvent (event : EventPtr) (a : adminSubscriber) : adminSubscriber :=
  set_eventChan (Chan.enqueue (eventChan a) event) a.

(** The state a broadcast needs: every registered pointer leads to a
    subscriber with open channels, and no subscriber is registered under two
    keys. *)
Definition wf (st : state) : Prop :=
  (∀ k p, lookupKey (svc st) k = Some p →
     ∃ a, heap st !! p = Some a
          ∧ Chan.closed (frameChan a) = false
          ∧ Chan.closed (eventChan a) = false)
  ∧ (∀ k1 k2 p, lookupKey (svc st) k1 = Some p →
       lookupKey (svc st) k2 = Some p → k1 = k2).

(** The invariant of the reachable states. *)
Definition inv (st : state) : Prop :=
  (∀ k p, lookupKey (svc st) k = Some p →
     ∃ a h, heap st !! p = Some a ∧ closeOnce a = false
            ∧ handlers st !! p = Some h ∧ h_key h = k
            ∧ (h_phase h = Streaming ∨ h_phase h = Returning))
  ∧ (∀ p a, heap st !! p = Some a → p < nextLoc st ∧ subscriberOk a)
  ∧ (∀ p h, handlers st !! p = Some h →
       ∃ a, heap st !! p = Some a ∧ (h_phase h ≠ TornDown → closeOnce a = false))
  ∧ noEmptyInner (detailSubs (svc st))
  ∧ noEmptyInner (eventSubs (svc st)).

(** The subscribers a broadcast reaches, read off the map it ranges over. *)
Definition overviewTargets (st : state) : list loc :=
  (map_to_list (overviewSubs (svc st))).*2.
Definition detailTargets (agentId : string) (st : state) : list loc :=
  omap (λ e : string * gmap string loc, e.2 !! agentId)
       (map_to_list (detailSubs (svc st))).
Definition eventsTargets (agentId : string) (st : state) : list loc :=
  omap (λ e : string * gmap string loc, e.2 !! agentId)
       (map_to_list (eventSubs (svc st))).

(** The state after every subscriber in [l] got one non-blocking send of a
    frame (of an event) and nothing else changed. *)
Definition frameSentTo (frame : FramePtr) (l : list loc) (st st' : state) : Prop :=
  svc st' = svc st ∧ handlers st' = handlers st ∧ nextLoc st' = nextLoc st
  ∧ ∀ p, heap st' !! p
         = if decide (p ∈ l) then pushFrame frame <$> heap st !! p else heap st !! p.

Definition eventSentTo (event : EventPtr) (l : list loc) (st st' : state) : Prop :=
  svc st' = svc st ∧ handlers st' = handlers st ∧ nextLoc st' = nextLoc st
  ∧ ∀ p, heap st' !! p
         = if decide (p ∈ l) then pushEvent event <$> heap st !! p else heap st !! p.

(** The state of a [result], for scenarios that are known not to panic. *)
Definition stateOf (r : result state) : state :=
  match r with Ok st => st | Panic _ => init end.

(** A send changes the heap at a location only from one subscriber to
    another with the same flags. *)
Definition sameFlags (a b : adminSubscriber) : Prop :=
  closeOnce b = closeOnce a
  ∧ Chan.closed (frameChan b) = Chan.closed (frameChan a)
  ∧ Chan.closed (eventChan b) = Chan.closed (eventChan a).

Definition heapSameFlags (h h' : gmap loc adminSubscriber) : Prop :=
  ∀ p, match h !! p, h' !! p with
       | Some a, Some b => sameFlags a b
       | None, None => True
       | _, _ => False
       end.

(** Which registered subscribers the fan-out of a frame of [agentId]
    reaches, by the key they are registered under. *)
Definition frameReaches (agentId : string) (k : key) : bool :=
  match k with
  | KOverview _ => true
  | KDetail _ g => bool_decide (g = agentId)
  | KEvents _ _ => false
  end.

(** The subscriber with one more frame (event) at the back of its queue. *)
Definition withFrame (frame : FramePtr) (sub : adminSubscriber) : adminSubscriber :=
  set_frameChan
    (Chan.Make (Chan.buf (frameChan sub) ++ [frame]) (Chan.cap (frameChan sub))
       (Chan.closed (frameChan sub))) sub.

Definition withEvent (event : EventPtr) (sub : adminSubscriber) : adminSubscriber :=
  set_eventChan
    (Chan.Make (Chan.buf (eventChan sub) ++ [event]) (Chan.cap (eventChan sub))
       (Chan.closed (eventChan sub))) sub.

(** Drop on full: at capacity the subscriber stays exactly as it was, with
    room it gets the item at the back of the queue. *)
Definition frameDroppedOrQueued (frame : FramePtr) (sub sub' : adminSubscriber) : Prop :=
  (Chan.full (frameChan sub) → sub' = sub)
  ∧ (¬ Chan.full (frameChan sub) → sub' = withFrame frame sub).

Definition eventDroppedOrQueued (event : EventPtr) (sub sub' : adminSubscriber) : Prop :=
  (Chan.full (eventChan sub) → sub' = sub)
  ∧ (¬ Chan.full (eventChan sub) → sub' = withEvent event sub).

(** A publish that offers [frame] to the subscribers in [T] and to nobody
    else: the registry, the handlers and every other subscriber are as
    before, and no subscriber appears or disappears. *)
Definition offersFrame (frame : FramePtr) (T : loc → Prop) (st st' : state) : Prop :=
  svc st' = svc st ∧ handlers st' = handlers st ∧ nextLoc st' = nextLoc st
  ∧ dom (heap st') = dom (heap st)
  ∧ ∀ p sub, heap st !! p = Some sub →
      ∃ sub', heap st' !! p = Some sub'
              ∧ (T p → frameDroppedOrQueued frame sub sub')
              ∧ (¬ T p → sub' = sub).

Definition offersEvent (event : EventPtr) (T : loc → Prop) (st st' : state) : Prop :=
  svc st' = svc st ∧ handlers st' = handlers st ∧ nextLoc st' = nextLoc st
  ∧ dom (heap st') = dom (heap st)
  ∧ ∀ p sub, heap st !! p = Some sub →
      ∃ sub', heap st' !! p = Some sub'
              ∧ (T p → eventDroppedOrQueued event sub sub')
              ∧ (¬ T p → sub' = sub).

(** Everything but the contents of the queues is the same in both states. *)
Definition sameButQueues (a b : adminSubscriber) : Prop :=
  adminId b = adminId a ∧ closeOnce b = closeOnce a ∧ closeFn b = closeFn a
  ∧ Chan.cap (frameChan b) = Chan.cap (frameChan a)
  ∧ Chan.closed (frameChan b) = Chan.closed (frameChan a)
  ∧ Chan.cap (eventChan b) = Chan.cap (eventChan a)
  ∧ Chan.closed (eventChan b) = Chan.closed (eventChan a).

Definition onlyQueuesChange (st st' : state) : Prop :=
  svc st' = svc st ∧ handlers st' = handlers st ∧ nextLoc st' = nextLoc st
  ∧ (∀ k, lookupKey (svc st') k = lookupKey (svc st) k)
  ∧ ∀ p, match heap st !! p, heap st' !! p with
         | Some a, Some b => sameButQueues a b
         | None, None => True
         | _, _ => False
         end.

(** What is waiting in a subscriber's queues, and whether the frame queue
    is at capacity. *)
Definition frameQueue (st : state) (p : loc) : option (list FramePtr) :=
  (λ a, Chan.buf (frameChan a)) <$> heap st !! p.

Definition eventQueue (st : state) (p : loc) : option (list EventPtr) :=
  (λ a, Chan.buf (eventChan a)) <$> heap st !! p.

Definition frameQueueFull (st : state) (p : loc) : bool :=
  match heap st !! p with
  | Some a => bool_decide (Chan.full (frameChan a))
  | None => false
  end.

(** *** Scenarios *)

Definition frame1 : FrameData := mkFrameData "a1" ["001"%byte; "002"%byte; "003"%byte] 100 true.
Definition frame2 : FrameData := mkFrameData "a1" ["004"%byte] 200 false.

(** An overview subscriber that never consumes and has been sent 4096
    frames, and a second overview subscriber that has just arrived. *)
Definition slowFast : state :=
  stateOf (run (Subscribe (KOverview "slow")
                  :: repeat (IncomingFrame (Some frame1)) FRAME_CHANNEL_BUFFER_SIZE
                  ++ [Subscribe (KOverview "fast")]) init).

(** An overview subscriber, a detail subscriber of agent a1, a detail
    subscriber of agent b1 and an events subscriber of agent a1, all idle. *)
Definition fourSubscribers : state :=
  stateOf (run [Subscribe (KOverview "O1"); Subscribe (KDetail "O1" "a1");
                Subscribe (KDetail "O2" "b1"); Subscribe (KEvents "O1" "a1")] init).

(** C1 as the specification words it: the publish puts the offline marker
    at the back of the frame queue of every overview subscriber and every
    detail subscriber of the agent. *)
Definition offlineReachesAll (agentId : string) (st st' : state) : Prop :=
  ∀ k p sub,
    lookupKey (svc st) k = Some p → heap st !! p = Some sub →
    frameReaches agentId k = true →
    ∃ sub', heap st' !! p = Some sub'
            ∧ Chan.buf (frameChan sub')
              = Chan.buf (frameChan sub) ++ [offlineMarker agentId].

(** *** Vocabulary of the ordering property *)

(** The frames a subscription has taken in so far: those its handler has
    already forwarded to the stream, then those still waiting in the queue. *)
Definition received (st : state) (p : loc) : list FramePtr :=
  match heap st !! p with
  | Some sub => default [] (h_frames <$> handlers st !! p) ++ Chan.buf (frameChan sub)
  | None => []
  end.

(** A trace of frame traffic for agent [A]: frames of [A] coming in, and
    handlers forwarding what they have. *)
Definition isFrameTraffic (A : string) (a : action) : bool :=
  match a with
  | IncomingFrame (Some f) => bool_decide (AgentId f = A)
  | Pump _ true => true
  | _ => false
  end.

Definition isIncomingFrame (a : action) : bool :=
  match a with
  | IncomingFrame (Some _) => true
  | _ => false
  end.

(** The frames published along a trace, in the order of the calls. *)
Definition publishedFrames (tr : list action) : list FramePtr :=
  omap (λ a, match a with
             | IncomingFrame (Some f) => Some (Some f)
             | _ => None
             end) tr.

Definition hasRoom (st : state) (p : loc) : bool :=
  match heap st !! p with
  | Some sub => bool_decide (¬ Chan.full (frameChan sub))
  | None => false
  end.

(** None of the queues of [ps] is at capacity whenever a frame comes in. *)
Fixpoint roomAtEveryPublish (ps : list loc) (tr : list action) (st : state) : bool :=
  match tr with
  | [] => true
  | a :: tr' =>
      (if isIncomingFrame a then forallb (hasRoom st) ps else true)
      && match step a st with
         | Ok st' => roomAtEveryPublish ps tr' st'
         | Panic _ => false
         end
  end.

(** *** Vocabulary of re-subscription *)

(** An action that changes who is registered under [k]: a new registration
    under [k], or the unregistration step of a handler whose request was
    [k] and that has left its loop. *)
Definition disturbs (k : key) (st : state) (a : action) : bool :=
  match a with
  | Subscribe k' => bool_decide (k' = k)
  | Unregister q =>
      match handlers st !! q with
      | Some h =>
          bool_decide (h_key h = k)
          && match h_phase h with Returning => true | _ => false end
      | None => false
      end
  | _ => false
  end.

(** No action of the trace disturbs [k]. *)
Fixpoint quiet (k : key) (tr : list action) (st : state) : bool :=
  match tr with
  | [] => true
  | a :: tr' =>
      negb (disturbs k st a)
      && match step a st with
         | Ok st' => quiet k tr' st'
         | Panic _ => false
         end
  end.

(** An overview subscriber with one frame waiting. *)
Definition oneOverview : state :=
  stateOf (run [Subscribe (KOverview "O1"); IncomingFrame (Some frame1)] init).

(** Observer O1 subscribes to the overview twice; the first handler then
    fails to forward a frame and tears down; after that a frame comes in. *)
Definition staleTeardown : state :=
  stateOf (run [Subscribe (KOverview "O1"); IncomingFrame (Some frame1);
                Subscribe (KOverview "O1");
                Pump 0 false; Unregister 0; Close 0;
                IncomingFrame (Some frame2)] init).

(** *** Vocabulary of the further properties *)

(** Both queues of a subscriber have the capacity they were made with and
    hold no more than that. *)
Definition withinCapacity (a : adminSubscriber) : Prop :=
  Chan.cap (frameChan a) = FRAME_CHANNEL_BUFFER_SIZE
  ∧ Chan.cap (eventChan a) = FRAME_CHANNEL_BUFFER_SIZE
  ∧ length (Chan.buf (frameChan a)) ≤ FRAME_CHANNEL_BUFFER_SIZE
  ∧ length (Chan.buf (eventChan a)) ≤ FRAME_CHANNEL_BUFFER_SIZE.

(** What the client caches for a frame (lines 107-108 and 121-126 of app.go). *)
Definition snapshotOf (frame : FramePtr) : main.frameSnapshot :=
  main.mkFrameSnapshot (GetAgentId frame)
    (main.EncodeToString (GetImageData frame))
    (GetIsPreview frame) (GetTimestamp frame).

(** The payload the client emits for a frame (lines 109-114 of app.go), as
    the front end's handler gets it. *)
Definition emitted (frame : FramePtr) : frontend.OverviewFrameData :=
  frontend.mkOverviewFrameData (GetAgentId frame)
    (main.EncodeToString (GetImageData frame))
    (GetIsPreview frame) (GetTimestamp frame).



(** Observer O1 subscribes to the overview twice before any frame comes in. *)
Definition orphaned : state :=
  stateOf (run [Subscribe (KOverview "O1"); Subscribe (KOverview "O1")] init).

(** An overview subscriber with three frames waiting. *)
Definition threeWaiting : state :=
  stateOf (run [Subscribe (KOverview "O1"); IncomingFrame (Some frame1);
                IncomingFrame (Some frame2); AgentOffline "a1"] init).

(** A handler that has run the first half of its deferred function. *)
Definition afterUnregister : state :=
  stateOf (run [Subscribe (KDetail "O1" "a1"); IncomingFrame (Some frame1);
                IncomingFrame (Some frame2); Pump 0 false; Unregister 0] init).

(** *** Vocabulary of delivery in general *)

(** The events a subscription has taken in so far: forwarded, then queued. *)
Definition receivedEvents (st : state) (p : loc) : list EventPtr :=
  match heap st !! p with
  | Some sub => default [] (h_events <$> handlers st !! p) ++ Chan.buf (eventChan sub)
  | None => []
  end.

(** The frame an action publishes, with the agent it is fanned out for. *)
Definition publishedFrame (a : action) : option (string * FramePtr) :=
  match a with
  | IncomingFrame (Some f) => Some (AgentId f, Some f)
  | AgentOffline g => Some (g, newOfflineFrame g)
  | _ => None
  end.

Definition publishedEvent (a : action) : option (string * EventPtr) :=
  match a with
  | PublishEvent g e => Some (g, e)
  | _ => None
  end.

(** Which registered subscribers an event of [agentId] reaches. *)
Definition eventReaches (agentId : string) (k : key) : bool :=
  match k with
  | KEvents _ g => bool_decide (g = agentId)
  | _ => false
  end.

(** The frames (events) of a trace that the key [k] selects, in the order
    of the calls. *)
Definition framesFor (k : key) (tr : list action) : list FramePtr :=
  omap (λ a, match publishedFrame a with
             | Some (g, f) => if frameReaches g k then Some f else None
             | None => None
             end) tr.

Definition eventsFor (k : key) (tr : list action) : list EventPtr :=
  omap (λ a, match publishedEvent a with
             | Some (g, e) => if eventReaches g k then Some e else None
             | None => None
             end) tr.

(** Publishing and successful forwarding only. *)
Definition isPublishOrForward (a : action) : bool :=
  match a with
  | IncomingFrame _ | AgentOffline _ | PublishEvent _ _ | Pump _ true => true
  | _ => false
  end.

Definition hasEventRoom (st : state) (p : loc) : bool :=
  match heap st !! p with
  | Some sub => bool_decide (¬ Chan.full (eventChan sub))
  | None => false
  end.

(** The subscriber [p] under key [k] has room in the queue concerned
    whenever the trace publishes something that [k] selects. *)
Fixpoint roomWhenReached (k : key) (p : loc) (tr : list action) (st : state) : bool :=
  match tr with
  | [] => true
  | a :: tr' =>
      match publishedFrame a with
      | Some (g, _) => if frameReaches g k then hasRoom st p else true
      | None => true
      end
      && match publishedEvent a with
         | Some (g, _) => if eventReaches g k then hasEventRoom st p else true
         | None => true
         end
      && match step a st with
         | Ok st' => roomWhenReached k p tr' st'
         | Panic _ => false
         end
  end.

(* ===================================================================== *)
(** ** The offline marker                                                 *)
(* ===================================================================== *)

Lemma isOfflineFrame_spec (frame : FramePtr) :
  isOfflineFrame frame = true
  ↔ ∃ f, frame = Some f ∧ ImageData f = [] ∧ Timestamp f = 0%Z.
Proof.
  destruct frame as [f|]; simpl.
  - rewrite andb_true_iff, Z.eqb_eq, Nat.eqb_eq. unfold OFFLINE_TIMESTAMP.
    split.
    + intros [Hts Hlen]. exists f. split; [done|]. split; [|done].
      by destruct (ImageData f).
    + intros (f' & [= <-] & Hd & Hts). rewrite Hd. done.
  - split; [done|]. by intros (f & Hf & _).
Qed.

(** C6 (as amended): a frame is recognised as the offline marker exactly when
    it is non-nil, has an empty payload and timestamp 0, whatever its
    is-preview flag; [newOfflineFrame agentId] has the shape empty payload,
    timestamp 0, is-preview true, carries [agentId], and is recognised. *)
Theorem offline_marker_recognition :
  (∀ frame, isOfflineFrame frame = true
            ↔ ∃ f, frame = Some f ∧ ImageData f = [] ∧ Timestamp f = 0%Z)
  ∧ (∀ agentId, isOfflineFrame (newOfflineFrame agentId) = true)
  ∧ (∀ agentId, ∃ f, newOfflineFrame agentId = Some f
                     ∧ AgentId f = agentId ∧ offlineShape f).
Proof.
  split; [exact isOfflineFrame_spec|].
  split; [done|].
  intros agentId. eexists. split; [reflexivity|]. by repeat split.
Qed.

(** C6 (as stated) fails: a frame with empty payload and timestamp 0 whose
    is-preview flag is false is recognised as the offline marker although it
    does not have the marker's shape. *)
Lemma offline_marker_shape_counterexample :
  let f := mkFrameData "a1" [] 0 false in
  isOfflineFrame (Some f) = true ∧ ¬ offlineShape f.
Proof.
  split; [reflexivity|].
  intros (_ & _ & Hp). discriminate Hp.
Qed.

(* ===================================================================== *)
(** ** Closing a subscriber                                               *)
(* ===================================================================== *)

Lemma newAdminSubscriber_ok adminId : subscriberOk (newAdminSubscriber adminId).
Proof. by split. Qed.

Lemma close_done (a : adminSubscriber) :
  closeOnce a = true → close a = Ok (a, []).
Proof. intros H. unfold close. by rewrite H. Qed.

Lemma close_first (a : adminSubscriber) :
  subscriberOk a → closeOnce a = false →
  close a =
    Ok ({| adminId := adminId a;
           frameChan := Chan.Make (Chan.buf (frameChan a)) (Chan.cap (frameChan a)) true;
           eventChan := Chan.Make (Chan.buf (eventChan a)) (Chan.cap (eventChan a)) true;
           closeOnce := true; closeFn := closeFn a |},
        [ClosedFrameChan; ClosedEventChan]
          ++ match closeFn a with Some fn => [CalledCloseFn fn] | None => [] end).
Proof.
  intros [Hf He] Hno. unfold close, Chan.close.
  rewrite Hno in *. rewrite Hf, He. reflexivity.
Qed.

Lemma close_ok (a : adminSubscriber) :
  subscriberOk a →
  ∃ a' eff, close a = Ok (a', eff) ∧ subscriberOk a' ∧ closeOnce a' = true
            ∧ adminId a' = adminId a
            ∧ Chan.buf (frameChan a') = Chan.buf (frameChan a)
            ∧ Chan.buf (eventChan a') = Chan.buf (eventChan a).
Proof.
  intros Hok. destruct (closeOnce a) eqn:Hc.
  - exists a, []. rewrite close_done by done. by repeat split; try apply Hok.
  - eexists _, _. rewrite close_first by done. by repeat split.
Qed.

Lemma closeTimes_done (n : nat) (a : adminSubscriber) :
  closeOnce a = true → closeTimes n a = Ok (a, []).
Proof.
  intros H. induction n as [|n IH]; [done|].
  simpl. rewrite close_done by done. simpl. rewrite IH. done.
Qed.

(** C7: on a subscriber whose channels are closed exactly when its [Once] has
    fired, [close] never panics; the first call on a subscriber not yet closed
    closes the frame queue and the event queue once each (then runs [closeFn]
    if there is one), and any number of further calls change nothing and do
    nothing. *)
Theorem close_exactly_once (a : adminSubscriber) (n : nat) :
  subscriberOk a →
  ∃ a' eff,
    close a = Ok (a', eff)
    ∧ closeTimes (S n) a = Ok (a', eff)
    ∧ closeTimes n a' = Ok (a', [])
    ∧ Chan.closed (frameChan a') = true ∧ Chan.closed (eventChan a') = true
    ∧ eff = (if closeOnce a then []
             else [ClosedFrameChan; ClosedEventChan]
                    ++ match closeFn a with
                       | Some fn => [CalledCloseFn fn]
                       | None => []
                       end).
Proof.
  intros Hok.
  destruct (close_ok a Hok) as (a' & eff & Hc & Hok' & Hdone & _).
  exists a', eff.
  assert (Hn : ∀ m, closeTimes m a' = Ok (a', [])) by (intros m; by apply closeTimes_done).
  split; [done|]. split.
  { simpl. rewrite Hc. simpl. rewrite Hn. simpl. by rewrite app_nil_r. }
  split; [apply Hn|].
  destruct Hok' as [Hf He]. rewrite Hf, He, Hdone. split; [done|]. split; [done|].
  destruct (closeOnce a) eqn:Hca.
  - rewrite close_done in Hc by done. by injection Hc as _ <-.
  - rewrite close_first in Hc by done. by injection Hc as _ <-.
Qed.

Lemma close_exactly_once_witness :
  subscriberOk (newAdminSubscriber "O1")
  ∧ ∃ a' eff,
      close (newAdminSubscriber "O1") = Ok (a', eff)
      ∧ closeTimes 3 (newAdminSubscriber "O1") = Ok (a', eff)
      ∧ closeTimes 2 a' = Ok (a', [])
      ∧ Chan.closed (frameChan a') = true ∧ Chan.closed (eventChan a') = true
      ∧ eff = [ClosedFrameChan; ClosedEventChan].
Proof.
  split; [by split|].
  apply (close_exactly_once (newAdminSubscriber "O1") 2). by split.
Defined.

(* ===================================================================== *)
(** ** The registry maps                                                  *)
(* ===================================================================== *)

Section two_level.
Implicit Types (m : gmap string (gmap string loc)) (a g : string) (p : loc).

Lemma lookup2_insert2 m a g p a' g' :
  lookup2 a' g' (insert2 a g p m)
  = if decide (a' = a ∧ g' = g) then Some p else lookup2 a' g' m.
Proof.
  unfold lookup2, insert2.
  destruct (decide (a' = a)) as [->|Ha].
  - rewrite lookup_insert_eq. simpl.
    destruct (m !! a) as [inner|] eqn:Hm; simpl.
    + rewrite Hm. simpl. destruct (decide (g' = g)) as [->|Hg].
      * rewrite lookup_insert_eq. by rewrite decide_True.
      * rewrite lookup_insert_ne by done. rewrite decide_False by (intros [? ?]; congruence).
        done.
    + rewrite lookup_insert_eq. simpl. destruct (decide (g' = g)) as [->|Hg].
      * rewrite lookup_insert_eq. by rewrite decide_True.
      * rewrite lookup_insert_ne by done. rewrite decide_False by (intros [? ?]; congruence).
        by rewrite lookup_empty.
  - rewrite decide_False by (intros [? ?]; congruence).
    rewrite lookup_insert_ne by done.
    destruct (m !! a); [done|]. by rewrite lookup_insert_ne.
Qed.

Lemma delete2_lookup m a g :
  delete2 a g m !! a
  = match m !! a with
    | Some inner => if decide (delete g inner = ∅) then None else Some (delete g inner)
    | None => None
    end.
Proof.
  unfold delete2. destruct (m !! a) as [inner|] eqn:Hm.
  - rewrite lookup_insert_eq. simpl.
    destruct (decide (size (delete g inner) = 0)) as [Hs|Hs].
    + apply map_size_empty_inv in Hs. rewrite decide_True by done.
      by rewrite lookup_delete_eq.
    + rewrite decide_False; [by rewrite lookup_insert_eq|].
      intros He. apply Hs. rewrite He. apply map_size_empty.
  - rewrite Hm. simpl. rewrite decide_True by apply map_size_empty.
    by rewrite lookup_delete_eq.
Qed.

Lemma delete2_lookup_ne m a g a' :
  a' ≠ a → delete2 a g m !! a' = m !! a'.
Proof.
  intros Hne. unfold delete2.
  destruct (m !! a) as [inner|] eqn:Hm.
  - case_decide.
    + rewrite lookup_delete_ne by done. by rewrite lookup_insert_ne.
    + by rewrite lookup_insert_ne.
  - case_decide; [by rewrite lookup_delete_ne|done].
Qed.

Lemma lookup2_delete2 m a g a' g' :
  lookup2 a' g' (delete2 a g m)
  = if decide (a' = a ∧ g' = g) then None else lookup2 a' g' m.
Proof.
  unfold lookup2 at 1.
  destruct (decide (a' = a)) as [->|Ha].
  - rewrite delete2_lookup. unfold lookup2.
    destruct (m !! a) as [inner|] eqn:Hm; simpl.
    + destruct (decide (delete g inner = ∅)) as [He|He]; simpl.
      * case_decide; [done|].
        destruct (decide (g' = g)) as [->|Hg]; [naive_solver|].
        rewrite <- (lookup_delete_ne inner g g') by done.
        by rewrite He, lookup_empty.
      * destruct (decide (g' = g)) as [->|Hg].
        -- rewrite decide_True by done. by rewrite lookup_delete_eq.
        -- rewrite decide_False by (intros [? ?]; congruence). by rewrite lookup_delete_ne.
    + by case_decide.
  - rewrite delete2_lookup_ne by done. by rewrite decide_False by (intros [? ?]; congruence).
Qed.

Lemma noEmptyInner_insert2 m a g p :
  noEmptyInner m → noEmptyInner (insert2 a g p m).
Proof.
  intros Hm a' inner. unfold insert2.
  destruct (decide (a' = a)) as [->|Ha].
  - rewrite lookup_insert_eq. intros [= <-].
    apply insert_non_empty.
  - rewrite lookup_insert_ne by done.
    destruct (m !! a); [apply Hm|].
    rewrite lookup_insert_ne by done. apply Hm.
Qed.

Lemma noEmptyInner_delete2 m a g :
  noEmptyInner m → noEmptyInner (delete2 a g m).
Proof.
  intros Hm a' inner.
  destruct (decide (a' = a)) as [->|Ha].
  - rewrite delete2_lookup. destruct (m !! a); [|done].
    case_decide; [done|]. by intros [= <-].
  - rewrite delete2_lookup_ne by done. apply Hm.
Qed.

Lemma delete2_absent m a g :
  noEmptyInner m → lookup2 a g m = None → delete2 a g m = m.
Proof.
  intros Hm Hl. apply map_eq. intros a'.
  destruct (decide (a' = a)) as [->|Ha].
  - rewrite delete2_lookup. unfold lookup2 in Hl.
    destruct (m !! a) as [inner|] eqn:Hi; [|done]. simpl in Hl.
    rewrite delete_id by done.
    rewrite decide_False; [done|]. by eapply Hm.
  - by apply delete2_lookup_ne.
Qed.

End two_level.

Lemma lookupKey_register (s : AdminService) (k k' : key) (p : loc) :
  lookupKey (register k p s) k'
  = if decide (k' = k) then Some p else lookupKey s k'.
Proof.
  destruct k as [a|a g|a g], k' as [a'|a' g'|a' g'];
    cbn [lookupKey register unregister overviewSubs detailSubs eventSubs];
    try (rewrite decide_False by done; done).
  - destruct (decide (a' = a)) as [->|Ha].
    + rewrite lookup_insert_eq. by rewrite decide_True.
    + rewrite lookup_insert_ne by done. by rewrite decide_False by congruence.
  - rewrite lookup2_insert2. case_decide as H.
    + destruct H as [-> ->]. by rewrite decide_True.
    + rewrite decide_False; [done|]. intros [= -> ->]. by apply H.
  - rewrite lookup2_insert2. case_decide as H.
    + destruct H as [-> ->]. by rewrite decide_True.
    + rewrite decide_False; [done|]. intros [= -> ->]. by apply H.
Qed.

Lemma lookupKey_unregister (s : AdminService) (k k' : key) :
  lookupKey (unregister k s) k'
  = if decide (k' = k) then None else lookupKey s k'.
Proof.
  destruct k as [a|a g|a g], k' as [a'|a' g'|a' g'];
    cbn [lookupKey register unregister overviewSubs detailSubs eventSubs];
    try (rewrite decide_False by done; done).
  - destruct (decide (a' = a)) as [->|Ha].
    + rewrite lookup_delete_eq. by rewrite decide_True.
    + rewrite lookup_delete_ne by done. by rewrite decide_False by congruence.
  - rewrite lookup2_delete2. case_decide as H.
    + destruct H as [-> ->]. by rewrite decide_True.
    + rewrite decide_False; [done|]. intros [= -> ->]. by apply H.
  - rewrite lookup2_delete2. case_decide as H.
    + destruct H as [-> ->]. by rewrite decide_True.
    + rewrite decide_False; [done|]. intros [= -> ->]. by apply H.
Qed.

(** C8: unregistering a detail or events key removes that entry and no
    other; the outer entry of the observer is removed together with its last
    inner entry and otherwise keeps the inner map without the agent, so that
    no empty inner map is retained; and unregistering a key that is not
    present changes nothing.  [unregister] is a total function: there is no
    error to return. *)
Theorem unregister_two_level (s : AdminService) (a g : string) :
  noEmptyInner (detailSubs s) → noEmptyInner (eventSubs s) →
  let d := unregister (KDetail a g) s in
  let e := unregister (KEvents a g) s in
  (lookupKey d (KDetail a g) = None
   ∧ ∀ k, k ≠ KDetail a g → lookupKey d k = lookupKey s k)
  ∧ (lookupKey e (KEvents a g) = None
     ∧ ∀ k, k ≠ KEvents a g → lookupKey e k = lookupKey s k)
  ∧ detailSubs d !! a
    = (detailSubs s !! a ≫= λ inner,
         if decide (delete g inner = ∅) then None else Some (delete g inner))
  ∧ eventSubs e !! a
    = (eventSubs s !! a ≫= λ inner,
         if decide (delete g inner = ∅) then None else Some (delete g inner))
  ∧ (∀ a', a' ≠ a → detailSubs d !! a' = detailSubs s !! a')
  ∧ (∀ a', a' ≠ a → eventSubs e !! a' = eventSubs s !! a')
  ∧ (noEmptyInner (detailSubs d) ∧ noEmptyInner (eventSubs d))
  ∧ (noEmptyInner (detailSubs e) ∧ noEmptyInner (eventSubs e))
  ∧ (lookupKey s (KDetail a g) = None → d = s)
  ∧ (lookupKey s (KEvents a g) = None → e = s).
Proof.
  intros Hd He d e. subst d e.
  split.
  { split.
    - rewrite lookupKey_unregister. by rewrite decide_True.
    - intros k Hk. rewrite lookupKey_unregister. by rewrite decide_False. }
  split.
  { split.
    - rewrite lookupKey_unregister. by rewrite decide_True.
    - intros k Hk. rewrite lookupKey_unregister. by rewrite decide_False. }
  split.
  { cbn [unregister detailSubs]. rewrite delete2_lookup.
    by destruct (detailSubs s !! a). }
  split.
  { cbn [unregister eventSubs]. rewrite delete2_lookup.
    by destruct (eventSubs s !! a). }
  split; [intros a' Ha; by apply delete2_lookup_ne|].
  split; [intros a' Ha; by apply delete2_lookup_ne|].
  split; [split; [by apply noEmptyInner_delete2|done]|].
  split; [split; [done|by apply noEmptyInner_delete2]|].
  split.
  - cbn [lookupKey unregister]. intros Hl.
    rewrite delete2_absent by done. by destruct s.
  - cbn [lookupKey unregister]. intros Hl.
    rewrite delete2_absent by done. by destruct s.
Qed.

Lemma noEmptyInner_empty : noEmptyInner ∅.
Proof. intros a inner. by rewrite lookup_empty. Qed.

Lemma unregister_two_level_witness :
  let s := register (KDetail "O1" "a1") 0
             (register (KDetail "O1" "a2") 1
                (register (KEvents "O2" "a1") 2 NewAdminService)) in
  lookupKey (unregister (KDetail "O1" "a1") s) (KDetail "O1" "a1") = None
  ∧ lookupKey (unregister (KDetail "O1" "a1") s) (KDetail "O1" "a2") = Some 1
  ∧ eventSubs (unregister (KEvents "O2" "a1") s) !! "O2" = None
  ∧ unregister (KEvents "O1" "a1") s = s.
Proof.
  intros s.
  assert (Hd : noEmptyInner (detailSubs s)).
  { subst s. cbn [register detailSubs].
    do 2 apply noEmptyInner_insert2. apply noEmptyInner_empty. }
  assert (He : noEmptyInner (eventSubs s)).
  { subst s. cbn [register eventSubs].
    apply noEmptyInner_insert2. apply noEmptyInner_empty. }
  destruct (unregister_two_level s "O1" "a1" Hd He)
    as ([H1 H2] & _ & _ & _ & _ & _ & _ & _ & _ & H3).
  destruct (unregister_two_level s "O2" "a1" Hd He)
    as (_ & _ & _ & H4 & _).
  split; [exact H1|].
  split; [rewrite H2 by done; reflexivity|].
  split; [rewrite H4; reflexivity|].
  apply H3. reflexivity.
Defined.

(* ===================================================================== *)
(** ** The client's latest-frame cache                                    *)
(* ===================================================================== *)

Lemma storeFrame_lookup (f : FramePtr) (bs : string) (a : main.App) (x : string) :
  main.latestFrames (main.storeFrame f bs a) !! x
  = if decide (x = GetAgentId f)
    then Some (main.mkFrameSnapshot (GetAgentId f) bs (GetIsPreview f) (GetTimestamp f))
    else main.latestFrames a !! x.
Proof.
  unfold main.storeFrame. cbn [main.latestFrames].
  case_decide as H.
  - subst x. by rewrite lookup_insert_eq.
  - by rewrite lookup_insert_ne.
Qed.

Lemma receive_keeps (f : FramePtr) (a : main.App) :
  dom (main.latestFrames a) ⊆ dom (main.latestFrames (main.receive f a)).
Proof.
  intros x. rewrite !elem_of_dom. unfold main.receive.
  rewrite storeFrame_lookup. case_decide; [by eauto|done].
Qed.

Lemma receiveAll_keeps (frames : list FramePtr) (a : main.App) :
  dom (main.latestFrames a) ⊆ dom (main.latestFrames (main.receiveAll frames a)).
Proof.
  revert a. induction frames as [|f frames IH]; intros a; [done|].
  cbn [main.receiveAll foldl]. etrans; [apply (receive_keeps f)|apply IH].
Qed.

Lemma GetLatestFrames_elem (a : main.App) (s : main.frameSnapshot) :
  s ∈ main.GetLatestFrames a ↔ ∃ x, main.latestFrames a !! x = Some s.
Proof.
  unfold main.GetLatestFrames. rewrite list_elem_of_fmap. split.
  - intros ([x s'] & -> & Hin). exists x. by apply elem_of_map_to_list.
  - intros (x & Hx). exists (x, s). split; [done|]. by apply elem_of_map_to_list.
Qed.

(** C10: [storeFrame] writes every frame into the cache under its agent id,
    the offline marker like any other: after the marker for agent [A] is
    received, [GetLatestFrames] returns the entry of [A] with an empty image
    string, timestamp 0 and is-preview true; whatever is received later, [A]
    still has an entry that [GetLatestFrames] returns, and no agent ever
    leaves the cache. *)
Theorem client_cache_keeps_offline_agent (a : main.App) (A : string)
    (later : list FramePtr) :
  let a1 := main.receive (newOfflineFrame A) a in
  let marker := main.mkFrameSnapshot A "" true 0 in
  (∀ f bs a0,
     main.latestFrames (main.storeFrame f bs a0) !! GetAgentId f
     = Some (main.mkFrameSnapshot (GetAgentId f) bs (GetIsPreview f) (GetTimestamp f)))
  ∧ main.latestFrames a1 !! A = Some marker
  ∧ marker ∈ main.GetLatestFrames a1
  ∧ (∃ s, main.latestFrames (main.receiveAll later a1) !! A = Some s
          ∧ s ∈ main.GetLatestFrames (main.receiveAll later a1))
  ∧ (∀ frames a0,
       dom (main.latestFrames a0) ⊆ dom (main.latestFrames (main.receiveAll frames a0))).
Proof.
  intros a1 marker.
  assert (H1 : main.latestFrames a1 !! A = Some marker).
  { subst a1. unfold main.receive. rewrite storeFrame_lookup.
    by rewrite decide_True. }
  split.
  { intros f bs a0. rewrite storeFrame_lookup. by rewrite decide_True. }
  split; [done|].
  split; [apply GetLatestFrames_elem; by exists A|].
  split; [|intros frames a0; apply receiveAll_keeps].
  assert (Hin : A ∈ dom (main.latestFrames (main.receiveAll later a1))).
  { apply receiveAll_keeps. apply elem_of_dom. by eauto. }
  apply elem_of_dom in Hin as [s Hs]. exists s. split; [done|].
  apply GetLatestFrames_elem. by exists A.
Qed.

(* ===================================================================== *)
(** ** Ranging over subscribers                                           *)
(* ===================================================================== *)

Section forEach_send.
Context (send : loc → gmap loc adminSubscriber → result (gmap loc adminSubscriber)).
Context (F : adminSubscriber → adminSubscriber) (P : adminSubscriber → Prop).
Hypothesis send_ok : ∀ h p a, h !! p = Some a → P a → send p h = Ok (<[p := F a]> h).

Lemma forEach_send (l : list loc) (h : gmap loc adminSubscriber) :
  NoDup l →
  (∀ p, p ∈ l → ∃ a, h !! p = Some a ∧ P a) →
  ∃ h', forEach send l h = Ok h'
        ∧ ∀ p, h' !! p = if decide (p ∈ l) then F <$> h !! p else h !! p.
Proof.
  revert h. induction l as [|q l IH]; intros h Hnd Hall.
  { exists h. split; [done|]. intros p. rewrite decide_False; [done|].
    apply not_elem_of_nil. }
  apply NoDup_cons in Hnd as [Hq Hnd].
  destruct (Hall q) as (a & Ha & HP); [by left|].
  cbn [forEach]. rewrite (send_ok h q a Ha HP). cbn.
  destruct (IH (<[q := F a]> h) Hnd) as (h' & Hrun & Hh').
  { intros p Hp. destruct (Hall p) as (b & Hb & HPb); [by right|].
    exists b. split; [|done]. rewrite lookup_insert_ne; [done|].
    intros ->. done. }
  exists h'. split; [done|]. intros p. rewrite Hh'.
  destruct (decide (p = q)) as [->|Hne].
  - rewrite decide_False by done. rewrite decide_True by left.
    rewrite lookup_insert_eq, Ha. done.
  - rewrite lookup_insert_ne by done.
    destruct (decide (p ∈ l)) as [Hin|Hin].
    + rewrite decide_True by (by right). done.
    + rewrite decide_False; [done|]. intros [?|?]%elem_of_cons; done.
Qed.

Lemma forEach_send_perm (l l' : list loc) (h : gmap loc adminSubscriber) :
  l ≡ₚ l' → NoDup l →
  (∀ p, p ∈ l → ∃ a, h !! p = Some a ∧ P a) →
  forEach send l h = forEach send l' h.
Proof.
  intros Hp Hnd Hall.
  destruct (forEach_send l h Hnd Hall) as (h1 & -> & H1).
  destruct (forEach_send l' h) as (h2 & -> & H2).
  { by rewrite <- Hp. }
  { intros p Hin. apply Hall. by rewrite Hp. }
  f_equal. apply map_eq. intros p. rewrite H1, H2.
  destruct (decide (p ∈ l)) as [Hin|Hin].
  - rewrite decide_True; [done|]. by rewrite <- Hp.
  - rewrite decide_False; [done|]. by rewrite <- Hp.
Qed.

End forEach_send.

Lemma sendFrame_ok (frame : FramePtr) h p a :
  h !! p = Some a → Chan.closed (frameChan a) = false →
  sendFrame frame p h = Ok (<[p := pushFrame frame a]> h).
Proof.
  intros Ha Hc. unfold sendFrame, Chan.trySend. rewrite Ha, Hc. done.
Qed.

Lemma sendEvent_ok (event : EventPtr) h p a :
  h !! p = Some a → Chan.closed (eventChan a) = false →
  sendEvent event p h = Ok (<[p := pushEvent event a]> h).
Proof.
  intros Ha Hc. unfold sendEvent, Chan.trySend. rewrite Ha, Hc. done.
Qed.

(** The order in which a broadcast visits its subscribers does not matter. *)
Lemma forEach_sendFrame_perm (frame : FramePtr) (l l' : list loc) h :
  l ≡ₚ l' → NoDup l →
  (∀ p, p ∈ l → ∃ a, h !! p = Some a ∧ Chan.closed (frameChan a) = false) →
  forEach (sendFrame frame) l h = forEach (sendFrame frame) l' h.
Proof. apply forEach_send_perm with (F := pushFrame frame). apply sendFrame_ok. Qed.

Lemma forEach_sendEvent_perm (event : EventPtr) (l l' : list loc) h :
  l ≡ₚ l' → NoDup l →
  (∀ p, p ∈ l → ∃ a, h !! p = Some a ∧ Chan.closed (eventChan a) = false) →
  forEach (sendEvent event) l h = forEach (sendEvent event) l' h.
Proof. apply forEach_send_perm with (F := pushEvent event). apply sendEvent_ok. Qed.

Lemma forEach_overviewBody (frame : FramePtr) (l : list (string * loc)) h :
  forEach (overviewBody frame) l h = forEach (sendFrame frame) l.*2 h.
Proof.
  revert h. induction l as [|e l IH]; intros h; [done|].
  cbn [forEach fmap list_fmap].
  change (overviewBody frame e h) with (sendFrame frame e.2 h).
  destruct (sendFrame frame e.2 h); cbn; [apply IH|done].
Qed.

Lemma forEach_detailBody (agentId : string) (frame : FramePtr)
    (l : list (string * gmap string loc)) h :
  forEach (detailBody agentId frame) l h
  = forEach (sendFrame frame)
      (omap (λ e : string * gmap string loc, e.2 !! agentId) l) h.
Proof.
  revert h. induction l as [|e l IH]; intros h; [done|].
  cbn [forEach omap list_omap].
  change (detailBody agentId frame e h)
    with (match e.2 !! agentId with Some p => sendFrame frame p h | None => Ok h end).
  destruct (e.2 !! agentId) as [p|]; cbn [forEach].
  - destruct (sendFrame frame p h); cbn; [apply IH|done].
  - cbn. apply IH.
Qed.

Lemma forEach_eventsBody (agentId : string) (event : EventPtr)
    (l : list (string * gmap string loc)) h :
  forEach (eventsBody agentId event) l h
  = forEach (sendEvent event)
      (omap (λ e : string * gmap string loc, e.2 !! agentId) l) h.
Proof.
  revert h. induction l as [|e l IH]; intros h; [done|].
  cbn [forEach omap list_omap].
  change (eventsBody agentId event e h)
    with (match e.2 !! agentId with Some p => sendEvent event p h | None => Ok h end).
  destruct (e.2 !! agentId) as [p|]; cbn [forEach].
  - destruct (sendEvent event p h); cbn; [apply IH|done].
  - cbn. apply IH.
Qed.

Lemma NoDup_omap_inj {A B} (f : A → option B) (l : list A) :
  NoDup l →
  (∀ x y z, x ∈ l → y ∈ l → f x = Some z → f y = Some z → x = y) →
  NoDup (omap f l).
Proof.
  induction l as [|x l IH]; intros Hnd Hinj; [constructor|].
  apply NoDup_cons in Hnd as [Hx Hnd].
  cbn [omap list_omap].
  assert (Hrec : NoDup (omap f l)).
  { apply IH; [done|]. intros y1 y2 z H1 H2. apply Hinj; by right. }
  destruct (f x) as [z|] eqn:Hfx; [|done].
  apply NoDup_cons. split; [|done].
  intros (y & Hy & Hfy)%list_elem_of_omap.
  assert (x = y) by (apply (Hinj x y z); [by left|by right|done|done]).
  by subst y.
Qed.

Section targets.
Implicit Types (m : gmap string (gmap string loc)) (g : string) (p : loc).

Lemma elem_of_targets2 m g p :
  p ∈ omap (λ e : string * gmap string loc, e.2 !! g) (map_to_list m)
  ↔ ∃ a, lookup2 a g m = Some p.
Proof.
  rewrite list_elem_of_omap. unfold lookup2. split.
  - intros ([a inner] & Hin & Hp). apply elem_of_map_to_list in Hin.
    exists a. rewrite Hin. done.
  - intros (a & Ha). destruct (m !! a) as [inner|] eqn:Hm; [|done].
    exists (a, inner). split; [by apply elem_of_map_to_list|done].
Qed.

Lemma NoDup_targets2 m g :
  (∀ a1 a2 p, lookup2 a1 g m = Some p → lookup2 a2 g m = Some p → a1 = a2) →
  NoDup (omap (λ e : string * gmap string loc, e.2 !! g) (map_to_list m)).
Proof.
  intros Hinj. apply NoDup_omap_inj; [apply NoDup_map_to_list|].
  intros [a1 i1] [a2 i2] p H1%elem_of_map_to_list H2%elem_of_map_to_list Hp1 Hp2.
  cbn in Hp1, Hp2.
  assert (a1 = a2).
  { apply (Hinj a1 a2 p); unfold lookup2.
    - by rewrite H1.
    - by rewrite H2. }
  subst a2. congruence.
Qed.

End targets.

Lemma elem_of_overviewTargets (st : state) (p : loc) :
  p ∈ overviewTargets st ↔ ∃ a, lookupKey (svc st) (KOverview a) = Some p.
Proof.
  unfold overviewTargets. rewrite list_elem_of_fmap. cbn [lookupKey]. split.
  - intros ([a q] & -> & Hin). exists a. by apply elem_of_map_to_list.
  - intros (a & Ha). exists (a, p). split; [done|]. by apply elem_of_map_to_list.
Qed.

Lemma elem_of_detailTargets (agentId : string) (st : state) (p : loc) :
  p ∈ detailTargets agentId st
  ↔ ∃ a, lookupKey (svc st) (KDetail a agentId) = Some p.
Proof. apply elem_of_targets2. Qed.

Lemma elem_of_eventsTargets (agentId : string) (st : state) (p : loc) :
  p ∈ eventsTargets agentId st
  ↔ ∃ a, lookupKey (svc st) (KEvents a agentId) = Some p.
Proof. apply elem_of_targets2. Qed.

Lemma NoDup_overviewTargets (st : state) : wf st → NoDup (overviewTargets st).
Proof.
  intros [_ Hinj]. unfold overviewTargets.
  apply NoDup_fmap_2_strong; [|apply NoDup_map_to_list].
  intros [a1 p1] [a2 p2] H1%elem_of_map_to_list H2%elem_of_map_to_list Heq.
  cbn in Heq. subst p2.
  assert (KOverview a1 = KOverview a2) as [= ->]; [|done].
  by apply (Hinj _ _ p1).
Qed.

Lemma NoDup_detailTargets (agentId : string) (st : state) :
  wf st → NoDup (detailTargets agentId st).
Proof.
  intros [_ Hinj]. apply NoDup_targets2. intros a1 a2 p H1 H2.
  assert (KDetail a1 agentId = KDetail a2 agentId) as [= ->]; [|done].
  by apply (Hinj _ _ p).
Qed.

Lemma NoDup_eventsTargets (agentId : string) (st : state) :
  wf st → NoDup (eventsTargets agentId st).
Proof.
  intros [_ Hinj]. apply NoDup_targets2. intros a1 a2 p H1 H2.
  assert (KEvents a1 agentId = KEvents a2 agentId) as [= ->]; [|done].
  by apply (Hinj _ _ p).
Qed.

(* ===================================================================== *)
(** ** What the broadcasts do                                             *)
(* ===================================================================== *)

Lemma broadcastOverview_spec (frame : FramePtr) (st : state) :
  wf st →
  ∃ st', broadcastOverview frame st = Ok st'
         ∧ frameSentTo frame (overviewTargets st) st st'.
Proof.
  intros Hwf. unfold broadcastOverview. rewrite forEach_overviewBody.
  destruct (forEach_send (sendFrame frame) (pushFrame frame)
              (λ a, Chan.closed (frameChan a) = false) (sendFrame_ok frame)
              (overviewTargets st) (heap st)) as (h' & Hrun & Hh').
  - by apply NoDup_overviewTargets.
  - intros p (a & Ha)%elem_of_overviewTargets.
    destruct (proj1 Hwf _ _ Ha) as (sub & Hsub & Hf & _). by exists sub.
  - unfold overviewTargets in Hrun. rewrite Hrun. cbn.
    eexists. split; [done|]. by repeat split.
Qed.

Lemma broadcastDetail_spec (agentId : string) (frame : FramePtr) (st : state) :
  wf st →
  ∃ st', broadcastDetail agentId frame st = Ok st'
         ∧ frameSentTo frame (detailTargets agentId st) st st'.
Proof.
  intros Hwf. unfold broadcastDetail. rewrite forEach_detailBody.
  destruct (forEach_send (sendFrame frame) (pushFrame frame)
              (λ a, Chan.closed (frameChan a) = false) (sendFrame_ok frame)
              (detailTargets agentId st) (heap st)) as (h' & Hrun & Hh').
  - by apply NoDup_detailTargets.
  - intros p (a & Ha)%elem_of_detailTargets.
    destruct (proj1 Hwf _ _ Ha) as (sub & Hsub & Hf & _). by exists sub.
  - unfold detailTargets in Hrun. rewrite Hrun. cbn.
    eexists. split; [done|]. by repeat split.
Qed.

Lemma broadcastEvents_spec (agentId : string) (event : EventPtr) (st : state) :
  wf st →
  ∃ st', broadcastEvents agentId event st = Ok st'
         ∧ eventSentTo event (eventsTargets agentId st) st st'.
Proof.
  intros Hwf. unfold broadcastEvents. rewrite forEach_eventsBody.
  destruct (forEach_send (sendEvent event) (pushEvent event)
              (λ a, Chan.closed (eventChan a) = false) (sendEvent_ok event)
              (eventsTargets agentId st) (heap st)) as (h' & Hrun & Hh').
  - by apply NoDup_eventsTargets.
  - intros p (a & Ha)%elem_of_eventsTargets.
    destruct (proj1 Hwf _ _ Ha) as (sub & Hsub & _ & He). by exists sub.
  - unfold eventsTargets in Hrun. rewrite Hrun. cbn.
    eexists. split; [done|]. by repeat split.
Qed.

Lemma enqueue_full {A} (c : Chan.chan A) (x : A) :
  Chan.full c → Chan.enqueue c x = c.
Proof.
  unfold Chan.full, Chan.enqueue. intros H. rewrite decide_False by lia. done.
Qed.

Lemma enqueue_room {A} (c : Chan.chan A) (x : A) :
  ¬ Chan.full c →
  Chan.enqueue c x = Chan.Make (Chan.buf c ++ [x]) (Chan.cap c) (Chan.closed c).
Proof.
  unfold Chan.full, Chan.enqueue. intros H. rewrite decide_True by lia. done.
Qed.

Lemma enqueue_closed {A} (c : Chan.chan A) (x : A) :
  Chan.closed (Chan.enqueue c x) = Chan.closed c.
Proof. unfold Chan.enqueue. by case_decide. Qed.

Lemma enqueue_cap {A} (c : Chan.chan A) (x : A) :
  Chan.cap (Chan.enqueue c x) = Chan.cap c.
Proof. unfold Chan.enqueue. by case_decide. Qed.

Lemma pushFrame_full (frame : FramePtr) (a : adminSubscriber) :
  Chan.full (frameChan a) → pushFrame frame a = a.
Proof.
  intros H. unfold pushFrame. rewrite enqueue_full by done. by destruct a.
Qed.

Lemma pushEvent_full (event : EventPtr) (a : adminSubscriber) :
  Chan.full (eventChan a) → pushEvent event a = a.
Proof.
  intros H. unfold pushEvent. rewrite enqueue_full by done. by destruct a.
Qed.

Lemma pushFrame_room (frame : FramePtr) (a : adminSubscriber) :
  ¬ Chan.full (frameChan a) →
  pushFrame frame a
  = set_frameChan (Chan.Make (Chan.buf (frameChan a) ++ [frame])
                     (Chan.cap (frameChan a)) (Chan.closed (frameChan a))) a.
Proof. intros H. unfold pushFrame. by rewrite enqueue_room. Qed.

Lemma pushEvent_room (event : EventPtr) (a : adminSubscriber) :
  ¬ Chan.full (eventChan a) →
  pushEvent event a
  = set_eventChan (Chan.Make (Chan.buf (eventChan a) ++ [event])
                     (Chan.cap (eventChan a)) (Chan.closed (eventChan a))) a.
Proof. intros H. unfold pushEvent. by rewrite enqueue_room. Qed.

Lemma pushFrame_ok (frame : FramePtr) (a : adminSubscriber) :
  subscriberOk a → subscriberOk (pushFrame frame a).
Proof.
  intros [Hf He]. split; cbn; [|done]. by rewrite enqueue_closed.
Qed.

Lemma pushEvent_ok (event : EventPtr) (a : adminSubscriber) :
  subscriberOk a → subscriberOk (pushEvent event a).
Proof.
  intros [Hf He]. split; cbn; [done|]. by rewrite enqueue_closed.
Qed.

Lemma frameSentTo_sameFlags frame l st st' :
  frameSentTo frame l st st' → heapSameFlags (heap st) (heap st').
Proof.
  intros (_ & _ & _ & Hh) p. rewrite Hh.
  destruct (heap st !! p) as [a|]; case_decide; cbn; try done.
  split; [done|]. split; [apply enqueue_closed|done].
Qed.

Lemma eventSentTo_sameFlags event l st st' :
  eventSentTo event l st st' → heapSameFlags (heap st) (heap st').
Proof.
  intros (_ & _ & _ & Hh) p. rewrite Hh.
  destruct (heap st !! p) as [a|]; case_decide; cbn; try done.
  split; [done|]. split; [done|apply enqueue_closed].
Qed.

Lemma wf_sameFlags (st st' : state) :
  svc st' = svc st → heapSameFlags (heap st) (heap st') → wf st → wf st'.
Proof.
  intros Hsvc Hh [Hopen Hinj]. split; rewrite Hsvc; [|done].
  intros k p Hk. destruct (Hopen k p Hk) as (a & Ha & Hf & He).
  specialize (Hh p). rewrite Ha in Hh.
  destruct (heap st' !! p) as [b|]; [|done].
  destruct Hh as (_ & Hbf & Hbe). exists b. by rewrite Hbf, Hbe.
Qed.

Lemma frameSentTo_wf frame l st st' :
  wf st → frameSentTo frame l st st' → wf st'.
Proof.
  intros Hwf H. eapply wf_sameFlags; [apply H| |done].
  by eapply frameSentTo_sameFlags.
Qed.

Lemma eventSentTo_wf event l st st' :
  wf st → eventSentTo event l st st' → wf st'.
Proof.
  intros Hwf H. eapply wf_sameFlags; [apply H| |done].
  by eapply eventSentTo_sameFlags.
Qed.

Lemma frameSentTo_app frame l1 l2 st st1 st2 :
  (∀ p, p ∈ l1 → p ∈ l2 → False) →
  frameSentTo frame l1 st st1 → frameSentTo frame l2 st1 st2 →
  frameSentTo frame (l1 ++ l2) st st2.
Proof.
  intros Hdis (Hs1 & Hh1 & Hn1 & H1) (Hs2 & Hh2 & Hn2 & H2).
  split; [congruence|]. split; [congruence|]. split; [congruence|].
  intros p. rewrite H2, !H1.
  destruct (decide (p ∈ l1)) as [Hi1|Hi1], (decide (p ∈ l2)) as [Hi2|Hi2].
  - destruct (Hdis p Hi1 Hi2).
  - rewrite decide_True; [done|]. apply elem_of_app. by left.
  - rewrite decide_True; [done|]. apply elem_of_app. by right.
  - rewrite decide_False; [done|]. by intros [?|?]%elem_of_app.
Qed.

Lemma targets_disjoint (agentId : string) (st : state) (p : loc) :
  wf st → p ∈ overviewTargets st → p ∈ detailTargets agentId st → False.
Proof.
  intros [_ Hinj] (a1 & H1)%elem_of_overviewTargets (a2 & H2)%elem_of_detailTargets.
  by specialize (Hinj _ _ _ H1 H2).
Qed.

(** The fan-out of one frame: overview, then the detail subscribers of the
    frame's agent. *)
Lemma fanout_spec (agentId : string) (frame : FramePtr) (st : state) :
  wf st →
  ∃ st', (st1 ← broadcastOverview frame st; broadcastDetail agentId frame st1) = Ok st'
         ∧ frameSentTo frame (overviewTargets st ++ detailTargets agentId st) st st'.
Proof.
  intros Hwf.
  destruct (broadcastOverview_spec frame st Hwf) as (st1 & -> & H1). cbn.
  assert (Hwf1 : wf st1) by (by eapply frameSentTo_wf).
  destruct (broadcastDetail_spec agentId frame st1 Hwf1) as (st2 & -> & H2).
  exists st2. split; [done|].
  assert (Hsvc : svc st1 = svc st) by apply H1.
  eapply frameSentTo_app; [|done|].
  - intros p. by apply targets_disjoint.
  - unfold detailTargets in *. by rewrite <- Hsvc.
Qed.

Lemma PublishAgentOffline_spec (agentId : string) (st : state) :
  wf st →
  ∃ st', PublishAgentOffline agentId st = Ok st'
         ∧ frameSentTo (newOfflineFrame agentId)
             (overviewTargets st ++ detailTargets agentId st) st st'.
Proof. apply fanout_spec. Qed.

Lemma HandleIncomingFrame_spec (f : FrameData) (st : state) :
  wf st →
  ∃ st', HandleIncomingFrame (Some f) st = Ok st'
         ∧ frameSentTo (Some f)
             (overviewTargets st ++ detailTargets (AgentId f) st) st st'.
Proof. apply fanout_spec. Qed.

Lemma fanout_targets (agentId : string) (st : state) (k : key) (p : loc) :
  wf st → lookupKey (svc st) k = Some p →
  p ∈ overviewTargets st ++ detailTargets agentId st
  ↔ frameReaches agentId k = true.
Proof.
  intros [_ Hinj] Hk. rewrite elem_of_app.
  rewrite elem_of_overviewTargets, elem_of_detailTargets. split.
  - intros [(a & Ha)|(a & Ha)]; rewrite <- (Hinj _ _ _ Ha Hk); cbn; [done|].
    by apply bool_decide_eq_true.
  - destruct k as [a|a g|a g]; cbn; [by eauto| |done].
    intros ->%bool_decide_eq_true. by eauto.
Qed.

(* ===================================================================== *)
(** ** The invariant of the reachable states                              *)
(* ===================================================================== *)

Lemma inv_wf (st : state) : inv st → wf st.
Proof.
  intros (H1 & H2 & _). split.
  - intros k p Hk. destruct (H1 k p Hk) as (a & h & Ha & Hc & _).
    destruct (H2 p a Ha) as [_ [Hf He]]. exists a. by rewrite Hf, He.
  - intros k1 k2 p Hk1 Hk2.
    destruct (H1 k1 p Hk1) as (a1 & h1 & _ & _ & Hh1 & <- & _).
    destruct (H1 k2 p Hk2) as (a2 & h2 & _ & _ & Hh2 & <- & _).
    congruence.
Qed.

Lemma inv_init : inv init.
Proof.
  split; [|split; [|split; [|split]]]; try apply noEmptyInner_empty.
  - intros [a|a g|a g] p; cbn; unfold lookup2; by rewrite lookup_empty.
  - intros p a. cbn. by rewrite lookup_empty.
  - intros p h. cbn. by rewrite lookup_empty.
Qed.

Lemma noEmptyInner_register (k : key) (p : loc) (s : AdminService) :
  noEmptyInner (detailSubs s) → noEmptyInner (eventSubs s) →
  noEmptyInner (detailSubs (register k p s))
  ∧ noEmptyInner (eventSubs (register k p s)).
Proof.
  intros Hd He. destruct k; cbn; split; try done; by apply noEmptyInner_insert2.
Qed.

Lemma noEmptyInner_unregister (k : key) (s : AdminService) :
  noEmptyInner (detailSubs s) → noEmptyInner (eventSubs s) →
  noEmptyInner (detailSubs (unregister k s))
  ∧ noEmptyInner (eventSubs (unregister k s)).
Proof.
  intros Hd He. destruct k; cbn; split; try done; by apply noEmptyInner_delete2.
Qed.

Lemma inv_subscribe (k : key) (st : state) : inv st → inv (subscribe k st).2.
Proof.
  intros (H1 & H2 & H3 & Hd & He).
  assert (Hfresh : ∀ q a, heap st !! q = Some a → q ≠ nextLoc st).
  { intros q a Ha. destruct (H2 q a Ha). lia. }
  unfold subscribe. cbn [snd].
  split; [|split; [|split]]; cbn [heap handlers nextLoc svc].
  - intros k' q. rewrite lookupKey_register. case_decide as Hk.
    + intros [= <-]. subst k'. eexists _, _. rewrite !lookup_insert_eq.
      split; [done|]. split; [done|]. split; [done|]. split; [done|by left].
    + intros Hq. destruct (H1 k' q Hq) as (a & h & Ha & Hc & Hh & Hkey & Hph).
      exists a, h. rewrite !lookup_insert_ne by (symmetry; by eapply Hfresh).
      done.
  - intros q a. destruct (decide (q = nextLoc st)) as [->|Hne].
    + rewrite lookup_insert_eq. intros [= <-]. split; [lia|].
      apply newAdminSubscriber_ok.
    + rewrite lookup_insert_ne by done. intros Ha.
      destruct (H2 q a Ha). split; [lia|done].
  - intros q h. destruct (decide (q = nextLoc st)) as [->|Hne].
    + rewrite !lookup_insert_eq. intros [= <-]. eexists. split; [done|]. done.
    + rewrite !lookup_insert_ne by done. apply H3.
  - by apply noEmptyInner_register.
Qed.

(** A step that keeps the registry and the flags of every subscriber, and
    moves handlers at most from [Streaming] to [Returning]. *)
Lemma inv_same_flags (st st' : state) :
  inv st →
  svc st' = svc st → nextLoc st' = nextLoc st →
  heapSameFlags (heap st) (heap st') →
  (∀ p, match handlers st !! p, handlers st' !! p with
        | Some h, Some h' =>
            h_key h' = h_key h
            ∧ (h_phase h' = h_phase h
               ∨ (h_phase h = Streaming ∧ h_phase h' = Returning))
        | None, None => True
        | _, _ => False
        end) →
  inv st'.
Proof.
  intros (H1 & H2 & H3 & Hd & He) Hsvc Hnext Hheap Hhand.
  split; [|split; [|split]]; rewrite ?Hsvc, ?Hnext; [| | |done].
  - intros k p Hk. destruct (H1 k p Hk) as (a & h & Ha & Hc & Hh & Hkey & Hph).
    specialize (Hheap p). specialize (Hhand p). rewrite Ha in Hheap. rewrite Hh in Hhand.
    destruct (heap st' !! p) as [b|]; [|done].
    destruct (handlers st' !! p) as [h'|]; [|done].
    exists b, h'. destruct Hheap as (Hb & _). destruct Hhand as [Hk' Hp'].
    split; [done|]. split; [congruence|]. split; [done|]. split; [congruence|].
    destruct Hp' as [->|[_ ->]]; [done|by right].
  - intros p b Hb. specialize (Hheap p). rewrite Hb in Hheap.
    destruct (heap st !! p) as [a|] eqn:Ha; [|done].
    destruct (H2 p a Ha) as [Hlt [Hf Hev]]. split; [done|].
    destruct Hheap as (Hc & Hbf & Hbe). split; congruence.
  - intros p h' Hh'. specialize (Hheap p). specialize (Hhand p).
    rewrite Hh' in Hhand.
    destruct (handlers st !! p) as [h|] eqn:Hh; [|done].
    destruct (H3 p h Hh) as (a & Ha & Hc). rewrite Ha in Hheap.
    destruct (heap st' !! p) as [b|]; [|done]. exists b. split; [done|].
    destruct Hheap as (Hb & _). destruct Hhand as [_ Hp'].
    intros Hnt. rewrite Hb. apply Hc.
    destruct Hp' as [<-|[-> _]]; done.
Qed.

Lemma heapSameFlags_refl h : heapSameFlags h h.
Proof. intros p. destruct (h !! p); [by repeat split|done]. Qed.

Lemma heapSameFlags_insert h p a b :
  h !! p = Some a → sameFlags a b → heapSameFlags h (<[p := b]> h).
Proof.
  intros Ha Hab q. destruct (decide (q = p)) as [->|Hne].
  - by rewrite lookup_insert_eq, Ha.
  - rewrite lookup_insert_ne by done. apply heapSameFlags_refl.
Qed.

Lemma handlers_same (hs : gmap loc handler) (p : loc) :
  match hs !! p, hs !! p with
  | Some h, Some h' =>
      h_key h' = h_key h
      ∧ (h_phase h' = h_phase h ∨ (h_phase h = Streaming ∧ h_phase h' = Returning))
  | None, None => True
  | _, _ => False
  end.
Proof. destruct (hs !! p); [by split; [|left]|done]. Qed.

Lemma handlers_insert (hs : gmap loc handler) (q : loc) (h h' : handler) (p : loc) :
  hs !! q = Some h → h_key h' = h_key h →
  (h_phase h' = h_phase h ∨ (h_phase h = Streaming ∧ h_phase h' = Returning)) →
  match hs !! p, <[q := h']> hs !! p with
  | Some h, Some h' =>
      h_key h' = h_key h
      ∧ (h_phase h' = h_phase h ∨ (h_phase h = Streaming ∧ h_phase h' = Returning))
  | None, None => True
  | _, _ => False
  end.
Proof.
  intros Hq Hk Hp. destruct (decide (p = q)) as [->|Hne].
  - by rewrite lookup_insert_eq, Hq.
  - rewrite lookup_insert_ne by done. apply handlers_same.
Qed.

Lemma inv_frameSentTo frame l st st' :
  inv st → frameSentTo frame l st st' → inv st'.
Proof.
  intros Hinv H. pose proof (frameSentTo_sameFlags _ _ _ _ H) as Hf.
  destruct H as (Hs & Hh & Hn & _).
  apply (inv_same_flags st); try done.
  intros p. rewrite Hh. apply handlers_same.
Qed.

Lemma inv_eventSentTo event l st st' :
  inv st → eventSentTo event l st st' → inv st'.
Proof.
  intros Hinv H. pose proof (eventSentTo_sameFlags _ _ _ _ H) as Hf.
  destruct H as (Hs & Hh & Hn & _).
  apply (inv_same_flags st); try done.
  intros p. rewrite Hh. apply handlers_same.
Qed.

Lemma inv_handler_step (st : state) (p : loc) (h h' : handler)
    (sub sub' : adminSubscriber) :
  inv st →
  handlers st !! p = Some h → heap st !! p = Some sub →
  sameFlags sub sub' → h_key h' = h_key h →
  (h_phase h' = h_phase h ∨ (h_phase h = Streaming ∧ h_phase h' = Returning)) →
  inv {| heap := <[p := sub']> (heap st);
         handlers := <[p := h']> (handlers st);
         nextLoc := nextLoc st; svc := svc st |}.
Proof.
  intros Hinv Hh Hsub Hfl Hk Hph.
  apply (inv_same_flags st); cbn [svc nextLoc heap handlers]; try done.
  - by eapply heapSameFlags_insert.
  - intros q. by eapply handlers_insert.
Qed.

Lemma pump_inv (p : loc) (sendOk : bool) (st : state) :
  inv st → ∃ st', pump p sendOk st = Ok st' ∧ inv st'.
Proof.
  intros Hinv. unfold pump.
  destruct (handlers st !! p) as [h|] eqn:Hh; [|by eauto].
  destruct (heap st !! p) as [sub|] eqn:Hsub; [|by eauto].
  destruct (h_phase h) eqn:Hph; try by eauto.
  assert (Hdrained :
    inv {| heap := heap st; handlers := <[p := set_phase Returning h]> (handlers st);
           nextLoc := nextLoc st; svc := svc st |}).
  { rewrite <- (insert_id (heap st) p sub) at 1 by done.
    apply (inv_handler_step st p h _ sub sub); try done.
    right. by rewrite Hph. }
  destruct (h_key h) eqn:Hk.
  - unfold Chan.recv. destruct (Chan.buf (frameChan sub)) as [|x b].
    + destruct (Chan.closed (frameChan sub)); by eauto.
    + eexists. split; [done|].
      apply (inv_handler_step st p h _ sub); try done.
      * destruct sendOk; cbn; by rewrite ?Hk.
      * destruct sendOk; cbn; [left|right]; by rewrite Hph.
  - unfold Chan.recv. destruct (Chan.buf (frameChan sub)) as [|x b].
    + destruct (Chan.closed (frameChan sub)); by eauto.
    + eexists. split; [done|].
      apply (inv_handler_step st p h _ sub); try done.
      * destruct sendOk; cbn; by rewrite ?Hk.
      * destruct sendOk; cbn; [left|right]; by rewrite Hph.
  - unfold Chan.recv. destruct (Chan.buf (eventChan sub)) as [|x b].
    + destruct (Chan.closed (eventChan sub)); by eauto.
    + eexists. split; [done|].
      apply (inv_handler_step st p h _ sub); try done.
      * destruct sendOk; cbn; by rewrite ?Hk.
      * destruct sendOk; cbn; [left|right]; by rewrite Hph.
Qed.

Lemma teardownUnregister_inv (p : loc) (st : state) :
  inv st → ∃ st', teardownUnregister p st = Ok st' ∧ inv st'.
Proof.
  intros Hinv. unfold teardownUnregister.
  destruct (handlers st !! p) as [h|] eqn:Hh; [|by eauto].
  destruct (h_phase h) eqn:Hph; try by eauto.
  eexists. split; [done|].
  destruct Hinv as (H1 & H2 & H3 & Hd & He).
  split; [|split; [|split]]; cbn [heap handlers nextLoc svc].
  - intros k q. rewrite lookupKey_unregister. case_decide as Hk; [done|].
    intros Hq. destruct (H1 k q Hq) as (a & hq & Ha & Hc & Hhq & Hkey & Hphq).
    exists a, hq. rewrite lookup_insert_ne; [done|].
    intros ->. rewrite Hh in Hhq. injection Hhq as <-. done.
  - done.
  - intros q hq. destruct (decide (q = p)) as [->|Hne].
    + rewrite lookup_insert_eq. intros [= <-].
      destruct (H3 p h Hh) as (a & Ha & Hc). exists a. split; [done|].
      intros _. apply Hc. by rewrite Hph.
    + rewrite lookup_insert_ne by done. apply H3.
  - by apply noEmptyInner_unregister.
Qed.

Lemma teardownClose_inv (p : loc) (st : state) :
  inv st → ∃ st', teardownClose p st = Ok st' ∧ inv st'.
Proof.
  intros Hinv. unfold teardownClose.
  destruct (handlers st !! p) as [h|] eqn:Hh; [|by eauto].
  destruct (h_phase h) eqn:Hph; try by eauto.
  destruct Hinv as (H1 & H2 & H3 & Hd & He).
  destruct (H3 p h Hh) as (a & Ha & Hc).
  destruct (H2 p a Ha) as [Hlt Hok].
  unfold closeSub. rewrite Ha.
  rewrite close_first; [|done|apply Hc; by rewrite Hph]. cbn.
  eexists. split; [done|].
  split; [|split; [|split]]; cbn [heap handlers nextLoc svc]; [| | |done].
  - intros k q Hq.
    destruct (H1 k q Hq) as (b & hq & Hb & Hcb & Hhq & Hkey & Hphq).
    assert (q ≠ p).
    { intros ->. rewrite Hh in Hhq. injection Hhq as <-.
      rewrite Hph in Hphq. by destruct Hphq. }
    exists b, hq. by rewrite !lookup_insert_ne.
  - intros q b. destruct (decide (q = p)) as [->|Hne].
    + rewrite lookup_insert_eq. intros [= <-]. split; [done|]. by split.
    + rewrite lookup_insert_ne by done. apply H2.
  - intros q hq. destruct (decide (q = p)) as [->|Hne].
    + rewrite !lookup_insert_eq. intros [= <-]. eexists. split; [done|].
      by intros [].
    + rewrite !lookup_insert_ne by done. apply H3.
Qed.

(** No step panics in a state that satisfies the invariant, and every step
    keeps the invariant. *)
Lemma step_inv (a : action) (st : state) :
  inv st → ∃ st', step a st = Ok st' ∧ inv st'.
Proof.
  intros Hinv. destruct a as [k|p ok|p|p|frame|agentId|agentId event]; cbn [step].
  - eexists. split; [done|]. by apply inv_subscribe.
  - by apply pump_inv.
  - by apply teardownUnregister_inv.
  - by apply teardownClose_inv.
  - destruct frame as [f|]; [|by eauto].
    destruct (HandleIncomingFrame_spec f st (inv_wf _ Hinv)) as (st' & Hr & Hs).
    exists st'. split; [done|]. by eapply inv_frameSentTo.
  - destruct (PublishAgentOffline_spec agentId st (inv_wf _ Hinv)) as (st' & Hr & Hs).
    exists st'. split; [done|]. by eapply inv_frameSentTo.
  - destruct (broadcastEvents_spec agentId event st (inv_wf _ Hinv)) as (st' & Hr & Hs).
    exists st'. split; [done|]. by eapply inv_eventSentTo.
Qed.

Lemma run_inv (tr : list action) (st : state) :
  inv st → ∃ st', run tr st = Ok st' ∧ inv st'.
Proof.
  revert st. induction tr as [|a tr IH]; intros st Hinv; [by exists st|].
  destruct (step_inv a st Hinv) as (st1 & Hs & Hinv1).
  destruct (IH st1 Hinv1) as (st2 & Hr & Hinv2).
  exists st2. split; [|done]. unfold run in *. cbn [forEach]. rewrite Hs. done.
Qed.

Lemma run_app (tr1 tr2 : list action) (st : state) :
  run (tr1 ++ tr2) st = run tr1 st ≫= run tr2.
Proof.
  revert st. induction tr1 as [|a tr1 IH]; intros st; [done|].
  unfold run in *. cbn [forEach app]. destruct (step a st); cbn; [apply IH|done].
Qed.

Lemma reachable_inv (st : state) : reachable st → inv st.
Proof.
  intros [tr Hrun]. destruct (run_inv tr init inv_init) as (st' & Hr & Hinv).
  congruence.
Qed.

Lemma reachable_wf (st : state) : reachable st → wf st.
Proof. intros H. by apply inv_wf, reachable_inv. Qed.

Lemma reachable_stateOf (tr : list action) : reachable (stateOf (run tr init)).
Proof.
  exists tr. destruct (run_inv tr init inv_init) as (st' & -> & _). done.
Qed.

(* ===================================================================== *)
(** ** Drop on full                                                       *)
(* ===================================================================== *)

Lemma pushFrame_droppedOrQueued (frame : FramePtr) (sub : adminSubscriber) :
  frameDroppedOrQueued frame sub (pushFrame frame sub).
Proof.
  split; intros H; [by apply pushFrame_full|by apply pushFrame_room].
Qed.

Lemma pushEvent_droppedOrQueued (event : EventPtr) (sub : adminSubscriber) :
  eventDroppedOrQueued event sub (pushEvent event sub).
Proof.
  split; intros H; [by apply pushEvent_full|by apply pushEvent_room].
Qed.

Lemma sentTo_dom {A} (h h' : gmap loc A) (f : A → A) (l : list loc) :
  (∀ p, h' !! p = if decide (p ∈ l) then f <$> h !! p else h !! p) →
  dom h' = dom h.
Proof.
  intros H. apply set_eq. intros p. rewrite !elem_of_dom, H.
  case_decide; [|done]. by rewrite fmap_is_Some.
Qed.

Lemma frameSentTo_offers frame l (T : loc → Prop) st st' :
  (∀ p, p ∈ l ↔ T p) →
  frameSentTo frame l st st' → offersFrame frame T st st'.
Proof.
  intros HT (Hs & Hh & Hn & Hheap).
  split; [done|]. split; [done|]. split; [done|].
  split; [by eapply sentTo_dom|].
  intros p sub Hsub. rewrite Hheap, Hsub.
  destruct (decide (p ∈ l)) as [Hin|Hin]; cbn.
  - exists (pushFrame frame sub). split; [done|]. split.
    + intros _. apply pushFrame_droppedOrQueued.
    + intros HnT. destruct HnT. by apply HT.
  - exists sub. split; [done|]. split; [|done].
    intros Ht. destruct Hin. by apply HT.
Qed.

Lemma eventSentTo_offers event l (T : loc → Prop) st st' :
  (∀ p, p ∈ l ↔ T p) →
  eventSentTo event l st st' → offersEvent event T st st'.
Proof.
  intros HT (Hs & Hh & Hn & Hheap).
  split; [done|]. split; [done|]. split; [done|].
  split; [by eapply sentTo_dom|].
  intros p sub Hsub. rewrite Hheap, Hsub.
  destruct (decide (p ∈ l)) as [Hin|Hin]; cbn.
  - exists (pushEvent event sub). split; [done|]. split.
    + intros _. apply pushEvent_droppedOrQueued.
    + intros HnT. destruct HnT. by apply HT.
  - exists sub. split; [done|]. split; [|done].
    intros Ht. destruct Hin. by apply HT.
Qed.

Lemma elem_of_fanout (agentId : string) (st : state) (p : loc) :
  p ∈ overviewTargets st ++ detailTargets agentId st
  ↔ ∃ k, lookupKey (svc st) k = Some p ∧ frameReaches agentId k = true.
Proof.
  rewrite elem_of_app, elem_of_overviewTargets, elem_of_detailTargets. split.
  - intros [(a & Ha)|(a & Ha)]; eexists; (split; [exact Ha|]); cbn; [done|].
    by apply bool_decide_eq_true.
  - intros ([a|a g|a g] & Hk & Hr); cbn in Hr; [by eauto| |done].
    apply bool_decide_eq_true in Hr as ->. by eauto.
Qed.

(** C3: in a state where every registered subscriber is open and registered
    once, each broadcast and the frame fan-out built on them returns
    normally; a registered subscriber it ranges over whose queue is at
    capacity is left exactly as it was (the item is kept nowhere), one with
    room gets the item at the back of its queue, and the registry, the
    handlers and all other subscribers are untouched. *)
Theorem publish_drops_on_full (st : state) (agentId : string)
    (frame : FramePtr) (f : FrameData) (event : EventPtr) :
  wf st →
  (∃ st', broadcastOverview frame st = Ok st'
          ∧ offersFrame frame
              (λ p, ∃ a, lookupKey (svc st) (KOverview a) = Some p) st st')
  ∧ (∃ st', broadcastDetail agentId frame st = Ok st'
            ∧ offersFrame frame
                (λ p, ∃ a, lookupKey (svc st) (KDetail a agentId) = Some p) st st')
  ∧ (∃ st', broadcastEvents agentId event st = Ok st'
            ∧ offersEvent event
                (λ p, ∃ a, lookupKey (svc st) (KEvents a agentId) = Some p) st st')
  ∧ (∃ st', HandleIncomingFrame (Some f) st = Ok st'
            ∧ offersFrame (Some f)
                (λ p, ∃ k, lookupKey (svc st) k = Some p
                           ∧ frameReaches (AgentId f) k = true) st st').
Proof.
  intros Hwf. split; [|split; [|split]].
  - destruct (broadcastOverview_spec frame st Hwf) as (st' & Hr & Hs).
    exists st'. split; [done|].
    eapply frameSentTo_offers; [|done]. apply elem_of_overviewTargets.
  - destruct (broadcastDetail_spec agentId frame st Hwf) as (st' & Hr & Hs).
    exists st'. split; [done|].
    eapply frameSentTo_offers; [|done]. apply elem_of_detailTargets.
  - destruct (broadcastEvents_spec agentId event st Hwf) as (st' & Hr & Hs).
    exists st'. split; [done|].
    eapply eventSentTo_offers; [|done]. apply elem_of_eventsTargets.
  - destruct (HandleIncomingFrame_spec f st Hwf) as (st' & Hr & Hs).
    exists st'. split; [done|].
    eapply frameSentTo_offers; [|done]. apply elem_of_fanout.
Qed.

Lemma frameQueueFull_true (st : state) (p : loc) :
  frameQueueFull st p = true →
  ∃ sub, heap st !! p = Some sub ∧ Chan.full (frameChan sub).
Proof.
  unfold frameQueueFull. destruct (heap st !! p) as [sub|]; [|done].
  intros H%bool_decide_eq_true. by exists sub.
Qed.

Lemma newAdminSubscriber_room adminId :
  ¬ Chan.full (frameChan (newAdminSubscriber adminId))
  ∧ ¬ Chan.full (eventChan (newAdminSubscriber adminId)).
Proof. unfold Chan.full. cbn. unfold FRAME_CHANNEL_BUFFER_SIZE. lia. Qed.

Lemma publish_drops_on_full_witness :
  wf slowFast
  ∧ ∃ st', broadcastOverview (Some frame2) slowFast = Ok st'
           ∧ frameQueueFull slowFast 0 = true
           ∧ heap st' !! 0 = heap slowFast !! 0
           ∧ frameQueue st' 1 = Some [Some frame2].
Proof.
  assert (Hwf : wf slowFast) by apply reachable_wf, reachable_stateOf.
  split; [done|].
  destruct (publish_drops_on_full slowFast "a1" (Some frame2) frame2 None Hwf)
    as ((st' & Hrun & _ & _ & _ & _ & Hq) & _).
  exists st'. split; [done|].
  assert (Hfull : frameQueueFull slowFast 0 = true) by (vm_compute; reflexivity).
  split; [done|]. split.
  - apply frameQueueFull_true in Hfull as (sub & Hsub & Hfull).
    destruct (Hq 0 sub Hsub) as (sub' & -> & Hdrop & _).
    rewrite Hsub. f_equal. apply Hdrop; [|done].
    exists "slow". vm_compute. reflexivity.
  - assert (H1 : heap slowFast !! 1 = Some (newAdminSubscriber "fast"))
      by (vm_compute; reflexivity).
    destruct (Hq 1 _ H1) as (sub' & Hsub' & Hdrop & _).
    unfold frameQueue. rewrite Hsub'. cbn. f_equal.
    destruct Hdrop as [_ Hroom]; [exists "fast"; vm_compute; reflexivity|].
    rewrite Hroom by apply newAdminSubscriber_room. reflexivity.
Defined.

(* ===================================================================== *)
(** ** Publishing leaves the registry alone                               *)
(* ===================================================================== *)

Lemma onlyQueuesChange_refl (st : state) : onlyQueuesChange st st.
Proof.
  repeat (split; [done|]). intros p. destruct (heap st !! p); [|done].
  by repeat split.
Qed.

Lemma frameSentTo_onlyQueues frame l st st' :
  frameSentTo frame l st st' → onlyQueuesChange st st'.
Proof.
  intros (Hs & Hh & Hn & Hheap).
  split; [done|]. split; [done|]. split; [done|].
  split; [intros k; by rewrite Hs|].
  intros p. rewrite Hheap. destruct (heap st !! p) as [a|]; case_decide; cbn; try done.
  repeat split; try done; [apply enqueue_cap|apply enqueue_closed].
Qed.

Lemma eventSentTo_onlyQueues event l st st' :
  eventSentTo event l st st' → onlyQueuesChange st st'.
Proof.
  intros (Hs & Hh & Hn & Hheap).
  split; [done|]. split; [done|]. split; [done|].
  split; [intros k; by rewrite Hs|].
  intros p. rewrite Hheap. destruct (heap st !! p) as [a|]; case_decide; cbn; try done.
  repeat split; try done; [apply enqueue_cap|apply enqueue_closed].
Qed.

(** C9: in a state where every registered subscriber is open and registered
    once, the three broadcasts and the two publish entry points built on
    them return normally and leave the three registry maps as they were, so
    that every key has the same subscriber before and after; the handlers
    are untouched, no subscriber is created or removed, and of a subscriber
    only the contents of its queues can differ. *)
Theorem broadcasts_keep_registry (st : state) (agentId : string)
    (frame : FramePtr) (event : EventPtr) :
  wf st →
  (∃ st', broadcastOverview frame st = Ok st' ∧ onlyQueuesChange st st')
  ∧ (∃ st', broadcastDetail agentId frame st = Ok st' ∧ onlyQueuesChange st st')
  ∧ (∃ st', broadcastEvents agentId event st = Ok st' ∧ onlyQueuesChange st st')
  ∧ (∃ st', HandleIncomingFrame frame st = Ok st' ∧ onlyQueuesChange st st')
  ∧ (∃ st', PublishAgentOffline agentId st = Ok st' ∧ onlyQueuesChange st st').
Proof.
  intros Hwf. split; [|split; [|split; [|split]]].
  - destruct (broadcastOverview_spec frame st Hwf) as (st' & Hr & Hs).
    exists st'. split; [done|]. by eapply frameSentTo_onlyQueues.
  - destruct (broadcastDetail_spec agentId frame st Hwf) as (st' & Hr & Hs).
    exists st'. split; [done|]. by eapply frameSentTo_onlyQueues.
  - destruct (broadcastEvents_spec agentId event st Hwf) as (st' & Hr & Hs).
    exists st'. split; [done|]. by eapply eventSentTo_onlyQueues.
  - destruct frame as [f|].
    + destruct (HandleIncomingFrame_spec f st Hwf) as (st' & Hr & Hs).
      exists st'. split; [done|]. by eapply frameSentTo_onlyQueues.
    + exists st. split; [done|]. apply onlyQueuesChange_refl.
  - destruct (PublishAgentOffline_spec agentId st Hwf) as (st' & Hr & Hs).
    exists st'. split; [done|]. by eapply frameSentTo_onlyQueues.
Qed.

Lemma broadcasts_keep_registry_witness :
  wf fourSubscribers
  ∧ ∃ st', HandleIncomingFrame (Some frame1) fourSubscribers = Ok st'
           ∧ svc st' = svc fourSubscribers
           ∧ lookupKey (svc st') (KDetail "O1" "a1") = Some 1.
Proof.
  assert (Hwf : wf fourSubscribers) by apply reachable_wf, reachable_stateOf.
  split; [done|].
  destruct (broadcasts_keep_registry fourSubscribers "a1" (Some frame1) None Hwf)
    as (_ & _ & _ & (st' & Hrun & Hsvc & _ & _ & Hk & _) & _).
  exists st'. split; [done|]. split; [done|].
  rewrite Hk. vm_compute. reflexivity.
Defined.

(* ===================================================================== *)
(** ** The offline publish                                                *)
(* ===================================================================== *)

Lemma newOfflineFrame_marker (agentId : string) :
  newOfflineFrame agentId = offlineMarker agentId.
Proof. reflexivity. Qed.

(** C1 (as amended): in a state where every registered subscriber is open
    and registered once, [PublishAgentOffline agentId] returns normally,
    keeps the registry, and offers one frame with the agent's id, empty
    payload, timestamp 0 and is-preview true to every overview subscriber
    and every detail subscriber of [agentId]: one with room gets exactly that
    frame at the back of its frame queue, one at capacity is left as it was.
    Detail subscribers of other agents and event subscribers are left as
    they were. *)
Theorem offline_publish_delivery (st : state) (agentId : string) :
  wf st →
  ∃ st', PublishAgentOffline agentId st = Ok st'
         ∧ svc st' = svc st
         ∧ ∀ k p sub,
             lookupKey (svc st) k = Some p → heap st !! p = Some sub →
             ∃ sub', heap st' !! p = Some sub'
                     ∧ match k with
                       | KOverview _ =>
                           frameDroppedOrQueued (offlineMarker agentId) sub sub'
                       | KDetail _ g =>
                           if decide (g = agentId)
                           then frameDroppedOrQueued (offlineMarker agentId) sub sub'
                           else sub' = sub
                       | KEvents _ _ => sub' = sub
                       end.
Proof.
  intros Hwf.
  destruct (PublishAgentOffline_spec agentId st Hwf) as (st' & Hrun & Hs & _ & _ & Hheap).
  exists st'. split; [done|]. split; [done|].
  intros k p sub Hk Hsub.
  pose proof (fanout_targets agentId st k p Hwf Hk) as Ht.
  rewrite Hheap, Hsub. rewrite newOfflineFrame_marker.
  destruct (frameReaches agentId k) eqn:Hr.
  - rewrite decide_True by (by apply Ht). cbn. eexists. split; [done|].
    destruct k as [a|a g|a g]; cbn in Hr; [| |done].
    + apply pushFrame_droppedOrQueued.
    + apply bool_decide_eq_true in Hr. rewrite decide_True by done.
      apply pushFrame_droppedOrQueued.
  - rewrite decide_False by (intros Hin; apply Ht in Hin; done).
    exists sub. split; [done|].
    destruct k as [a|a g|a g]; cbn in Hr; [done| |done].
    apply bool_decide_eq_false in Hr. by rewrite decide_False.
Qed.

Lemma offline_publish_delivery_witness :
  wf fourSubscribers
  ∧ ∃ st', PublishAgentOffline "a1" fourSubscribers = Ok st'
           ∧ frameQueue st' 0 = Some [Some (mkFrameData "a1" [] 0 true)]
           ∧ frameQueue st' 1 = Some [Some (mkFrameData "a1" [] 0 true)]
           ∧ heap st' !! 2 = heap fourSubscribers !! 2
           ∧ heap st' !! 3 = heap fourSubscribers !! 3.
Proof.
  assert (Hwf : wf fourSubscribers) by apply reachable_wf, reachable_stateOf.
  split; [done|].
  destruct (offline_publish_delivery fourSubscribers "a1" Hwf) as (st' & Hrun & _ & H).
  exists st'. split; [done|].
  assert (H0 : heap fourSubscribers !! 0 = Some (newAdminSubscriber "O1"))
    by (vm_compute; reflexivity).
  assert (H1 : heap fourSubscribers !! 1 = Some (newAdminSubscriber "O1"))
    by (vm_compute; reflexivity).
  assert (H2 : heap fourSubscribers !! 2 = Some (newAdminSubscriber "O2"))
    by (vm_compute; reflexivity).
  assert (H3 : heap fourSubscribers !! 3 = Some (newAdminSubscriber "O1"))
    by (vm_compute; reflexivity).
  destruct (H (KOverview "O1") 0 _ eq_refl H0) as (s0 & Hs0 & _ & Hq0).
  destruct (H (KDetail "O1" "a1") 1 _ eq_refl H1) as (s1 & Hs1 & Hq1).
  destruct (H (KDetail "O2" "b1") 2 _ eq_refl H2) as (s2 & Hs2 & Hq2).
  destruct (H (KEvents "O1" "a1") 3 _ eq_refl H3) as (s3 & Hs3 & Hq3).
  rewrite decide_True in Hq1 by done. destruct Hq1 as [_ Hq1].
  rewrite decide_False in Hq2 by done.
  unfold frameQueue. rewrite Hs0, Hs1, Hs2, Hs3, H2, H3.
  rewrite Hq0, Hq1 by apply newAdminSubscriber_room. subst s2 s3.
  repeat split; reflexivity.
Defined.

(** C1 (as stated) fails: the overview subscriber of [slowFast] whose queue
    holds 4096 frames is registered, and the offline publish does not put
    the marker into its queue. *)
Lemma offline_publish_full_queue_counterexample :
  reachable slowFast
  ∧ ∃ st', PublishAgentOffline "a1" slowFast = Ok st'
           ∧ ¬ offlineReachesAll "a1" slowFast st'.
Proof.
  split; [apply reachable_stateOf|].
  assert (Hwf : wf slowFast) by apply reachable_wf, reachable_stateOf.
  destruct (PublishAgentOffline_spec "a1" slowFast Hwf)
    as (st' & Hrun & _ & _ & _ & Hheap).
  exists st'. split; [done|]. intros Hall.
  assert (Hfull : frameQueueFull slowFast 0 = true) by (vm_compute; reflexivity).
  apply frameQueueFull_true in Hfull as (sub & Hsub & Hfull).
  assert (Hk : lookupKey (svc slowFast) (KOverview "slow") = Some 0)
    by (vm_compute; reflexivity).
  destruct (Hall _ _ _ Hk Hsub eq_refl) as (s2 & Hs2 & Hbuf).
  rewrite Hheap, Hsub in Hs2.
  rewrite decide_True in Hs2 by (by apply (fanout_targets _ _ (KOverview "slow"))).
  cbn -[pushFrame] in Hs2. rewrite pushFrame_full in Hs2 by done.
  injection Hs2 as <-.
  apply (f_equal length) in Hbuf. rewrite length_app in Hbuf. cbn in Hbuf. lia.
Qed.

(* ===================================================================== *)
(** ** Nil frames and nil events                                          *)
(* ===================================================================== *)

Lemma state_eq (st st' : state) :
  heap st' = heap st → handlers st' = handlers st →
  nextLoc st' = nextLoc st → svc st' = svc st → st' = st.
Proof. destruct st, st'; cbn. by intros -> -> -> ->. Qed.

(** C5 (as amended): [HandleIncomingFrame] on a nil frame returns at once and
    changes nothing.  [broadcastEvents] has no nil check: in a state where
    every registered subscriber is open and registered once it returns
    normally and keeps the registry, but it offers the nil event to the event
    subscribers of the agent like any other event, so it changes nothing
    only when it reaches no subscriber with room; with no event subscriber
    of the agent registered the state is the same. *)
Theorem nil_publish (st : state) (agentId : string) :
  wf st →
  HandleIncomingFrame None st = Ok st
  ∧ ∃ st', broadcastEvents agentId None st = Ok st'
           ∧ offersEvent None
               (λ p, ∃ a, lookupKey (svc st) (KEvents a agentId) = Some p) st st'
           ∧ ((∀ a, lookupKey (svc st) (KEvents a agentId) = None) → st' = st).
Proof.
  intros Hwf. split; [done|].
  destruct (broadcastEvents_spec agentId None st Hwf) as (st' & Hrun & Hs).
  exists st'. split; [done|]. split.
  - eapply eventSentTo_offers; [|done]. apply elem_of_eventsTargets.
  - intros Hnone. destruct Hs as (Hsvc & Hh & Hn & Hheap).
    apply state_eq; try done. apply map_eq. intros p. rewrite Hheap.
    rewrite decide_False; [done|].
    intros (a & Ha)%elem_of_eventsTargets. by rewrite Hnone in Ha.
Qed.

Lemma nil_publish_witness :
  wf fourSubscribers
  ∧ HandleIncomingFrame None fourSubscribers = Ok fourSubscribers
  ∧ ∃ st', broadcastEvents "b1" None fourSubscribers = Ok st'
           ∧ st' = fourSubscribers.
Proof.
  assert (Hwf : wf fourSubscribers) by apply reachable_wf, reachable_stateOf.
  split; [done|].
  destruct (nil_publish fourSubscribers "b1" Hwf) as (Hnil & st' & Hrun & _ & Hsame).
  split; [done|]. exists st'. split; [done|].
  apply Hsame. intros a.
  change (lookup2 a "b1" (eventSubs (svc fourSubscribers)) = None).
  unfold lookup2.
  destruct (decide (a = "O1")) as [->|Hne]; [vm_compute; reflexivity|].
  replace (eventSubs (svc fourSubscribers))
    with (<["O1" := {["a1" := 3]}]> (∅ : gmap string (gmap string loc)))
    by (vm_compute; reflexivity).
  rewrite lookup_insert_ne by done. by rewrite lookup_empty.
Defined.

(** C5 (as stated) fails for events: a nil event broadcast for agent a1
    lands in the queue of the events subscriber of a1. *)
Lemma nil_event_counterexample :
  reachable fourSubscribers
  ∧ eventQueue fourSubscribers 3 = Some []
  ∧ ∃ st', broadcastEvents "a1" None fourSubscribers = Ok st'
           ∧ eventQueue st' 3 = Some [None]
           ∧ st' ≠ fourSubscribers.
Proof.
  split; [apply reachable_stateOf|].
  assert (H0 : eventQueue fourSubscribers 3 = Some []) by (vm_compute; reflexivity).
  split; [done|].
  assert (Hwf : wf fourSubscribers) by apply reachable_wf, reachable_stateOf.
  destruct (broadcastEvents_spec "a1" None fourSubscribers Hwf)
    as (st' & Hrun & _ & _ & _ & Hheap).
  exists st'. split; [done|].
  assert (H3 : heap fourSubscribers !! 3 = Some (newAdminSubscriber "O1"))
    by (vm_compute; reflexivity).
  assert (H1 : eventQueue st' 3 = Some [None]).
  { unfold eventQueue. rewrite Hheap, H3. rewrite decide_True; [reflexivity|].
    apply elem_of_eventsTargets. exists "O1". vm_compute. reflexivity. }
  split; [done|]. intros ->. rewrite H0 in H1. discriminate H1.
Qed.

(* ===================================================================== *)
(** ** Frames arrive in the order of the publish calls                    *)
(* ===================================================================== *)

Lemma pump_ok (p : loc) (sendOk : bool) (st : state) :
  ∃ st', pump p sendOk st = Ok st' ∧ svc st' = svc st
         ∧ nextLoc st' = nextLoc st
         ∧ heapSameFlags (heap st) (heap st').
Proof.
  unfold pump.
  destruct (handlers st !! p) as [h|] eqn:Hh;
    [|exists st; by eauto using heapSameFlags_refl].
  destruct (heap st !! p) as [sub|] eqn:Hsub;
    [|exists st; by eauto using heapSameFlags_refl].
  destruct (h_phase h); try (exists st; by eauto using heapSameFlags_refl).
  destruct (h_key h).
  - unfold Chan.recv. destruct (Chan.buf (frameChan sub)) as [|x b].
    + destruct (Chan.closed (frameChan sub)); eexists;
        (split; [done|]); eauto using heapSameFlags_refl.
    + eexists. split; [done|]. repeat split.
      eapply heapSameFlags_insert; [done|by repeat split].
  - unfold Chan.recv. destruct (Chan.buf (frameChan sub)) as [|x b].
    + destruct (Chan.closed (frameChan sub)); eexists;
        (split; [done|]); eauto using heapSameFlags_refl.
    + eexists. split; [done|]. repeat split.
      eapply heapSameFlags_insert; [done|by repeat split].
  - unfold Chan.recv. destruct (Chan.buf (eventChan sub)) as [|x b].
    + destruct (Chan.closed (eventChan sub)); eexists;
        (split; [done|]); eauto using heapSameFlags_refl.
    + eexists. split; [done|]. repeat split.
      eapply heapSameFlags_insert; [done|by repeat split].
Qed.

(** Forwarding moves a frame from the queue to the stream: what the
    subscription has taken in stays the same. *)
Lemma pump_received (p : loc) (st st' : state) (q : loc) :
  pump p true st = Ok st' → received st' q = received st q.
Proof.
  unfold pump.
  destruct (handlers st !! p) as [h|] eqn:Hh; [|by intros [= <-]].
  destruct (heap st !! p) as [sub|] eqn:Hsub; [|by intros [= <-]].
  destruct (h_phase h); try by intros [= <-].
  assert (Hmove : ∀ x b c ev,
    Chan.buf (frameChan sub) = x :: b →
    received {| heap := <[p := set_frameChan (Chan.Make b c (Chan.closed (frameChan sub))) sub]> (heap st);
                handlers := <[p := mkHandler (h_key h) Streaming (h_frames h ++ [x]) ev]> (handlers st);
                nextLoc := nextLoc st; svc := svc st |} q
    = received st q).
  { intros x b c ev Hbuf. unfold received. cbn [heap handlers].
    destruct (decide (q = p)) as [->|Hne].
    - rewrite !lookup_insert_eq, Hsub, Hh. cbn. rewrite Hbuf.
      by rewrite <- app_assoc.
    - by rewrite !lookup_insert_ne. }
  assert (Hev : ∀ c ev,
    received {| heap := <[p := set_eventChan c sub]> (heap st);
                handlers := <[p := mkHandler (h_key h) Streaming (h_frames h) ev]> (handlers st);
                nextLoc := nextLoc st; svc := svc st |} q
    = received st q).
  { intros c ev. unfold received. cbn [heap handlers].
    destruct (decide (q = p)) as [->|Hne].
    - by rewrite !lookup_insert_eq, Hsub, Hh.
    - by rewrite !lookup_insert_ne. }
  assert (Hret :
    received {| heap := heap st;
                handlers := <[p := set_phase Returning h]> (handlers st);
                nextLoc := nextLoc st; svc := svc st |} q
    = received st q).
  { unfold received. cbn [heap handlers].
    destruct (decide (q = p)) as [->|Hne].
    - by rewrite !lookup_insert_eq, Hsub, Hh.
    - by rewrite !lookup_insert_ne. }
  destruct (h_key h); unfold Chan.recv.
  - destruct (Chan.buf (frameChan sub)) as [|x b] eqn:Hbuf.
    + destruct (Chan.closed (frameChan sub)); intros [= <-]; done.
    + intros [= <-]. by apply Hmove.
  - destruct (Chan.buf (frameChan sub)) as [|x b] eqn:Hbuf.
    + destruct (Chan.closed (frameChan sub)); intros [= <-]; done.
    + intros [= <-]. by apply Hmove.
  - destruct (Chan.buf (eventChan sub)) as [|x b] eqn:Hbuf.
    + destruct (Chan.closed (eventChan sub)); intros [= <-]; done.
    + intros [= <-]. by apply Hev.
Qed.

Lemma frameSentTo_received frame l st st' (p : loc) :
  frameSentTo frame l st st' →
  received st' p
  = received st p ++ (if decide (p ∈ l)
                      then if hasRoom st p then [frame] else []
                      else []).
Proof.
  intros (_ & Hh & _ & Hheap). unfold received, hasRoom. rewrite Hheap, Hh.
  destruct (heap st !! p) as [sub|]; case_decide; cbn -[pushFrame];
    try by rewrite ?app_nil_r.
  case_bool_decide as Hfull.
  - rewrite pushFrame_room by done. cbn. by rewrite app_assoc.
  - rewrite pushFrame_full by done. by rewrite app_nil_r.
Qed.

Lemma forallb_elem_of {A} (f : A → bool) (l : list A) (x : A) :
  forallb f l = true → x ∈ l → f x = true.
Proof.
  intros H Hin. apply (proj1 (forallb_forall f l) H). by apply list_elem_of_In.
Qed.

Lemma run_cons (a : action) (tr : list action) (st : state) :
  run (a :: tr) st = step a st ≫= run tr.
Proof. reflexivity. Qed.

(** One registered subscriber along a trace of frame traffic. *)
Lemma run_received (A : string) (k : key) (ps : list loc) (tr : list action) :
  ∀ (st : state) (p : loc),
    wf st → lookupKey (svc st) k = Some p →
    (frameReaches A k = true → p ∈ ps) →
    forallb (isFrameTraffic A) tr = true →
    roomAtEveryPublish ps tr st = true →
    ∃ st', run tr st = Ok st' ∧ wf st' ∧ svc st' = svc st
           ∧ received st' p
             = received st p ++ (if frameReaches A k then publishedFrames tr else []).
Proof.
  induction tr as [|a tr IH]; intros st p Hwf Hk Hps Htr Hroom.
  { exists st. split; [done|]. split; [done|]. split; [done|].
    destruct (frameReaches A k); by rewrite app_nil_r. }
  cbn [forallb] in Htr. apply andb_true_iff in Htr as [Ha Htr].
  cbn [roomAtEveryPublish] in Hroom. apply andb_true_iff in Hroom as [Hnow Hroom].
  rewrite run_cons.
  destruct a as [|q ok| | |[f|]| |]; try discriminate Ha.
  - destruct ok; [|discriminate Ha]. cbn [step] in *.
    destruct (pump_ok q true st) as (st1 & Hrun & Hsvc & _ & Hflags).
    rewrite Hrun in *. cbn.
    assert (Hwf1 : wf st1) by (by eapply wf_sameFlags).
    destruct (IH st1 p Hwf1) as (st' & Hr & Hwf' & Hsvc' & Hrec); try done.
    { by rewrite Hsvc. }
    exists st'. split; [done|]. split; [done|]. split; [congruence|].
    rewrite Hrec. by rewrite (pump_received q st st1 p Hrun).
  - apply bool_decide_eq_true in Ha. cbn [step isIncomingFrame] in *.
    destruct (HandleIncomingFrame_spec f st Hwf) as (st1 & Hrun & Hsent).
    rewrite Hrun in *. cbn.
    assert (Hwf1 : wf st1) by (by eapply frameSentTo_wf).
    assert (Hsvc : svc st1 = svc st) by apply Hsent.
    destruct (IH st1 p Hwf1) as (st' & Hr & Hwf' & Hsvc' & Hrec); try done.
    { by rewrite Hsvc. }
    exists st'. split; [done|]. split; [done|]. split; [congruence|].
    rewrite Hrec, (frameSentTo_received _ _ _ _ p Hsent).
    pose proof (fanout_targets (AgentId f) st k p Hwf Hk) as Ht. subst A.
    destruct (frameReaches (AgentId f) k) eqn:Hreach.
    + rewrite decide_True by (by apply Ht).
      rewrite (forallb_elem_of _ _ p Hnow) by (by apply Hps).
      cbn. by rewrite <- app_assoc.
    + rewrite decide_False; [by rewrite !app_nil_r|].
      intros Hin. by apply Ht in Hin.
Qed.

Lemma publish_only_handlers (tr : list action) :
  ∀ st st', wf st → forallb isIncomingFrame tr = true →
            run tr st = Ok st' → handlers st' = handlers st.
Proof.
  induction tr as [|a tr IH]; intros st st' Hwf Htr Hrun.
  { by injection Hrun as <-. }
  cbn [forallb] in Htr. apply andb_true_iff in Htr as [Ha Htr].
  destruct a as [| | | |[f|]| |]; try discriminate Ha.
  rewrite run_cons in Hrun. cbn [step] in Hrun.
  destruct (HandleIncomingFrame_spec f st Hwf) as (st1 & Hr1 & Hsent).
  rewrite Hr1 in Hrun. cbn in Hrun.
  rewrite (IH st1 st'); [apply Hsent|by eapply frameSentTo_wf|done|done].
Qed.

Lemma received_frameQueue (st st' : state) (p : loc) (l : list FramePtr) :
  handlers st' = handlers st →
  is_Some (heap st !! p) → is_Some (heap st' !! p) →
  received st' p = received st p ++ l →
  frameQueue st' p = (λ q, q ++ l) <$> frameQueue st p.
Proof.
  intros Hh [sub Hsub] [sub' Hsub']. unfold received, frameQueue.
  rewrite Hh, Hsub, Hsub'. cbn. rewrite <- app_assoc.
  intros H%app_inv_head. by rewrite H.
Qed.

(** C4: take a state where every registered subscriber is open and
    registered once, with an overview subscriber, a detail subscriber of
    agent [A] and a detail subscriber of another agent [B], and any trace
    made of frames of [A] coming in and of handlers forwarding frames, such
    that the first two queues are never at capacity when a frame comes in.
    The trace runs without a panic; what the overview subscriber and the
    detail subscriber of [A] have taken in (forwarded, then queued) is what
    they had, followed by every published frame in the order of the calls;
    the detail subscriber of [B] has taken in nothing new.  When no handler
    forwards anything, this is a statement about the queues themselves. *)
Theorem frames_arrive_in_order (st : state) (A B aO aD aB : string)
    (pO pD pB : loc) (tr : list action) :
  wf st → B ≠ A →
  lookupKey (svc st) (KOverview aO) = Some pO →
  lookupKey (svc st) (KDetail aD A) = Some pD →
  lookupKey (svc st) (KDetail aB B) = Some pB →
  forallb (isFrameTraffic A) tr = true →
  roomAtEveryPublish [pO; pD] tr st = true →
  ∃ st', run tr st = Ok st'
         ∧ svc st' = svc st
         ∧ received st' pO = received st pO ++ publishedFrames tr
         ∧ received st' pD = received st pD ++ publishedFrames tr
         ∧ received st' pB = received st pB
         ∧ (forallb isIncomingFrame tr = true →
            frameQueue st' pO = (λ q, q ++ publishedFrames tr) <$> frameQueue st pO
            ∧ frameQueue st' pD = (λ q, q ++ publishedFrames tr) <$> frameQueue st pD
            ∧ frameQueue st' pB = frameQueue st pB).
Proof.
  intros Hwf HAB HO HD HB Htr Hroom.
  destruct (run_received A (KOverview aO) [pO; pD] tr st pO)
    as (st' & Hrun & Hwf' & Hsvc & HrO); try done.
  { intros _. by left. }
  destruct (run_received A (KDetail aD A) [pO; pD] tr st pD)
    as (st2 & Hrun2 & _ & _ & HrD); try done.
  { intros _. right. by left. }
  destruct (run_received A (KDetail aB B) [pO; pD] tr st pB)
    as (st3 & Hrun3 & _ & _ & HrB); try done.
  { cbn. rewrite bool_decide_eq_false_2 by done. done. }
  rewrite Hrun in Hrun2, Hrun3. injection Hrun2 as <-. injection Hrun3 as <-.
  cbn [frameReaches] in HrO, HrD, HrB.
  rewrite bool_decide_eq_true_2 in HrD by done.
  rewrite bool_decide_eq_false_2 in HrB by done.
  exists st'. split; [done|]. split; [done|]. split; [done|]. split; [done|].
  split; [by rewrite HrB, app_nil_r|].
  intros Hpub.
  pose proof (publish_only_handlers tr st st' Hwf Hpub Hrun) as Hh.
  assert (Halloc : ∀ s k p, wf s → lookupKey (svc s) k = Some p → is_Some (heap s !! p)).
  { intros s k p [Hopen _] Hk. destruct (Hopen k p Hk) as (a & -> & _). by eexists. }
  split; [|split].
  - apply received_frameQueue; try done.
    + by eapply Halloc.
    + eapply Halloc; [done|]. by rewrite Hsvc.
  - apply received_frameQueue; try done.
    + by eapply Halloc.
    + eapply Halloc; [done|]. by rewrite Hsvc.
  - rewrite (received_frameQueue st st' pB []); try done.
    + destruct (frameQueue st pB); cbn; [|done]. by rewrite app_nil_r.
    + by eapply Halloc.
    + eapply Halloc; [done|]. by rewrite Hsvc.
Qed.

Lemma frames_arrive_in_order_witness :
  let tr := [IncomingFrame (Some frame1); Pump 0 true; IncomingFrame (Some frame2);
             Pump 1 true; IncomingFrame (Some frame1)] in
  wf fourSubscribers
  ∧ ∃ st', run tr fourSubscribers = Ok st'
           ∧ received st' 0 = [Some frame1; Some frame2; Some frame1]
           ∧ received st' 1 = [Some frame1; Some frame2; Some frame1]
           ∧ received st' 2 = [].
Proof.
  intros tr.
  assert (Hwf : wf fourSubscribers) by apply reachable_wf, reachable_stateOf.
  split; [done|].
  destruct (frames_arrive_in_order fourSubscribers "a1" "b1" "O1" "O1" "O2" 0 1 2 tr Hwf)
    as (st' & Hrun & _ & HO & HD & HB & _);
    [discriminate|vm_compute; reflexivity..|].
  exists st'. split; [exact Hrun|].
  rewrite HO, HD, HB. repeat split; vm_compute; reflexivity.
Defined.

(* ===================================================================== *)
(** ** Subscribing again under the same key                               *)
(* ===================================================================== *)

Lemma broadcastOverview_svc frame st st' :
  broadcastOverview frame st = Ok st' → svc st' = svc st.
Proof.
  unfold broadcastOverview. destruct (forEach _ _ _); cbn; [|done].
  by intros [= <-].
Qed.

Lemma broadcastDetail_svc agentId frame st st' :
  broadcastDetail agentId frame st = Ok st' → svc st' = svc st.
Proof.
  unfold broadcastDetail. destruct (forEach _ _ _); cbn; [|done].
  by intros [= <-].
Qed.

Lemma broadcastEvents_svc agentId event st st' :
  broadcastEvents agentId event st = Ok st' → svc st' = svc st.
Proof.
  unfold broadcastEvents. destruct (forEach _ _ _); cbn; [|done].
  by intros [= <-].
Qed.

Lemma fanout_svc agentId frame st st' :
  (st1 ← broadcastOverview frame st; broadcastDetail agentId frame st1) = Ok st' →
  svc st' = svc st.
Proof.
  destruct (broadcastOverview frame st) as [st1|] eqn:H1; cbn; [|done].
  intros H2. rewrite (broadcastDetail_svc _ _ _ _ H2).
  by apply broadcastOverview_svc in H1.
Qed.

Lemma teardownClose_svc p st st' :
  teardownClose p st = Ok st' → svc st' = svc st.
Proof.
  unfold teardownClose, closeSub.
  destruct (handlers st !! p) as [h|]; [|by intros [= <-]].
  destruct (h_phase h); try by intros [= <-].
  destruct (heap st !! p) as [sub|]; cbn; [|done].
  destruct (close sub); cbn; [|done]. by intros [= <-].
Qed.

(** Only a registration and an enabled unregistration touch the registry. *)
Lemma step_svc (a : action) (st st' : state) :
  step a st = Ok st' →
  svc st'
  = match a with
    | Subscribe k => register k (nextLoc st) (svc st)
    | Unregister q =>
        match handlers st !! q with
        | Some h =>
            match h_phase h with
            | Returning => unregister (h_key h) (svc st)
            | _ => svc st
            end
        | None => svc st
        end
    | _ => svc st
    end.
Proof.
  destruct a as [k|p ok|p|p|frame|agentId|agentId event]; cbn [step].
  - by intros [= <-].
  - destruct (pump_ok p ok st) as (st1 & -> & Hs & _). by intros [= <-].
  - unfold teardownUnregister. destruct (handlers st !! p) as [h|]; [|by intros [= <-]].
    destruct (h_phase h); by intros [= <-].
  - apply teardownClose_svc.
  - destruct frame as [f|]; [apply fanout_svc|by intros [= <-]].
  - apply fanout_svc.
  - apply broadcastEvents_svc.
Qed.

Lemma step_quiet (k : key) (a : action) (st : state) (p : loc) :
  inv st → disturbs k st a = false → lookupKey (svc st) k = Some p →
  ∃ st', step a st = Ok st' ∧ inv st' ∧ lookupKey (svc st') k = Some p.
Proof.
  intros Hinv Hq Hk. destruct (step_inv a st Hinv) as (st' & Hstep & Hinv').
  exists st'. split; [done|]. split; [done|].
  rewrite (step_svc a st st' Hstep).
  destruct a as [k'|q ok|q|q|frame|agentId|agentId event]; cbn in Hq; try done.
  - rewrite lookupKey_register. apply bool_decide_eq_false in Hq.
    by rewrite decide_False by congruence.
  - destruct (handlers st !! q) as [h|]; [|done].
    destruct (h_phase h); try done.
    rewrite andb_true_r in Hq. apply bool_decide_eq_false in Hq.
    rewrite lookupKey_unregister. by rewrite decide_False by congruence.
Qed.

Lemma run_quiet (k : key) (tr : list action) :
  ∀ (st : state) (p : loc),
    inv st → quiet k tr st = true → lookupKey (svc st) k = Some p →
    ∃ st', run tr st = Ok st' ∧ inv st' ∧ lookupKey (svc st') k = Some p.
Proof.
  induction tr as [|a tr IH]; intros st p Hinv Hq Hk; [by exists st|].
  cbn [quiet] in Hq. apply andb_true_iff in Hq as [Ha Hq].
  apply negb_true_iff in Ha.
  destruct (step_quiet k a st p Hinv Ha Hk) as (st1 & Hstep & Hinv1 & Hk1).
  rewrite Hstep in Hq.
  destruct (IH st1 p Hinv1 Hq Hk1) as (st' & Hrun & Hinv' & Hk').
  exists st'. split; [|done]. rewrite run_cons, Hstep. done.
Qed.

(** A handler whose request was [k] and that is not the one registered under
    [k] is registered nowhere. *)
Lemma stale_handler_unregistered (st : state) (k k' : key) (p q : loc) (h : handler) :
  inv st → lookupKey (svc st) k = Some p →
  handlers st !! q = Some h → h_key h = k → q ≠ p →
  lookupKey (svc st) k' ≠ Some q.
Proof.
  intros (H1 & _) Hk Hh Hkey Hne Hk'.
  destruct (H1 k' q Hk') as (a & h' & _ & _ & Hh' & Hkey' & _).
  rewrite Hh in Hh'. injection Hh' as <-. subst k'. congruence.
Qed.

(** What holds of re-subscription: from a reachable state, register a
    subscription under a key, and let anything happen afterwards except a
    further registration under the key and the unregistration step of a
    handler of the key.  Then the registry holds exactly one subscriber under
    the key, the one just registered; earlier subscriptions of the key are
    registered nowhere; a frame (an event) published for the key is offered
    to the new subscriber and leaves the earlier ones as they were.  The
    unregistration step deletes by key: when a handler of the key that has
    left its loop runs it, be it an earlier subscription, the key is left
    with no subscriber. *)
Theorem latest_subscription_wins (st : state) (k : key) (tr : list action) :
  inv st → quiet k tr (subscribe k st).2 = true →
  let p2 := (subscribe k st).1 in
  ∃ st',
    run tr (subscribe k st).2 = Ok st'
    ∧ (∀ q, lookupKey (svc st') k = Some q ↔ q = p2)
    ∧ (∀ q h k', handlers st' !! q = Some h → h_key h = k → q ≠ p2 →
                 lookupKey (svc st') k' ≠ Some q)
    ∧ (∀ f, frameReaches (AgentId f) k = true →
         ∃ st'' sub sub',
           HandleIncomingFrame (Some f) st' = Ok st''
           ∧ heap st' !! p2 = Some sub ∧ heap st'' !! p2 = Some sub'
           ∧ frameDroppedOrQueued (Some f) sub sub'
           ∧ ∀ q h, handlers st' !! q = Some h → h_key h = k → q ≠ p2 →
                    heap st'' !! q = heap st' !! q)
    ∧ (∀ a g event, k = KEvents a g →
         ∃ st'' sub sub',
           broadcastEvents g event st' = Ok st''
           ∧ heap st' !! p2 = Some sub ∧ heap st'' !! p2 = Some sub'
           ∧ eventDroppedOrQueued event sub sub'
           ∧ ∀ q h, handlers st' !! q = Some h → h_key h = k → q ≠ p2 →
                    heap st'' !! q = heap st' !! q)
    ∧ (∀ q h, handlers st' !! q = Some h → h_key h = k → h_phase h = Returning →
         ∃ st'', step (Unregister q) st' = Ok st''
                 ∧ lookupKey (svc st'') k = None).
Proof.
  intros Hinv Hquiet p2.
  assert (Hk2 : lookupKey (svc (subscribe k st).2) k = Some p2).
  { unfold subscribe. cbn [snd svc]. rewrite lookupKey_register.
    by rewrite decide_True. }
  destruct (run_quiet k tr _ p2 (inv_subscribe k st Hinv) Hquiet Hk2)
    as (st' & Hrun & Hinv' & Hk').
  pose proof (inv_wf _ Hinv') as Hwf'.
  assert (Hstale : ∀ q h k', handlers st' !! q = Some h → h_key h = k → q ≠ p2 →
                             lookupKey (svc st') k' ≠ Some q).
  { intros q h k' Hh Hkey Hne. by eapply stale_handler_unregistered. }
  destruct (proj1 Hwf' k p2 Hk') as (sub & Hsub & _).
  exists st'. split; [done|]. split; [|split; [done|split; [|split]]].
  - intros q. rewrite Hk'. split; [by intros [= <-]|by intros ->].
  - intros f Hreach.
    destruct (HandleIncomingFrame_spec f st' Hwf') as (st'' & Hr & _ & _ & _ & Hheap).
    exists st'', sub, (pushFrame (Some f) sub). split; [done|]. split; [done|].
    split; [|split; [apply pushFrame_droppedOrQueued|]].
    + rewrite Hheap, Hsub.
      by rewrite decide_True by (by apply (fanout_targets _ _ k)).
    + intros q h Hh Hkey Hne. rewrite Hheap. rewrite decide_False; [done|].
      intros (k' & Hq & _)%elem_of_fanout. by eapply Hstale.
  - intros a g event ->.
    destruct (broadcastEvents_spec g event st' Hwf') as (st'' & Hr & _ & _ & _ & Hheap).
    exists st'', sub, (pushEvent event sub). split; [done|]. split; [done|].
    split; [|split; [apply pushEvent_droppedOrQueued|]].
    + rewrite Hheap, Hsub.
      rewrite decide_True; [done|]. apply elem_of_eventsTargets. by exists a.
    + intros q h Hh Hkey Hne. rewrite Hheap. rewrite decide_False; [done|].
      intros (a' & Hq)%elem_of_eventsTargets. by eapply Hstale.
  - intros q h Hh Hkey Hph. cbn [step]. unfold teardownUnregister.
    rewrite Hh, Hph. eexists. split; [done|]. cbn [svc].
    rewrite lookupKey_unregister. by rewrite decide_True.
Qed.

Lemma latest_subscription_wins_witness :
  let st2 := (subscribe (KOverview "O1") oneOverview).2 in
  let tr := [IncomingFrame (Some frame2); Pump 0 false; Close 0; Pump 1 true] in
  inv oneOverview ∧ quiet (KOverview "O1") tr st2 = true
  ∧ ∃ st', run tr st2 = Ok st'
           ∧ lookupKey (svc st') (KOverview "O1") = Some 1
           ∧ (h_phase <$> handlers st' !! 0) = Some Returning
           ∧ ∃ st'', step (Unregister 0) st' = Ok st''
                     ∧ lookupKey (svc st'') (KOverview "O1") = None.
Proof.
  intros st2 tr.
  assert (Hinv : inv oneOverview) by apply reachable_inv, reachable_stateOf.
  assert (Hq : quiet (KOverview "O1") tr st2 = true) by (vm_compute; reflexivity).
  split; [done|]. split; [done|].
  destruct (latest_subscription_wins oneOverview (KOverview "O1") tr Hinv Hq)
    as (st' & Hrun & Hone & _ & _ & _ & Hdel).
  exists st'. split; [exact Hrun|].
  split; [apply Hone; vm_compute; reflexivity|].
  assert (Hst' : st' = stateOf (run tr st2)) by (fold st2 in Hrun; by rewrite Hrun).
  assert (Hh : handlers st' !! 0 = Some (mkHandler (KOverview "O1") Returning [] []))
    by (rewrite Hst'; vm_compute; reflexivity).
  split; [by rewrite Hh|].
  by apply (Hdel 0 _ Hh).
Defined.

(** C2: the code at the failing input [staleTeardown].  Observer O1
    subscribes to the overview twice; the second subscription is the most
    recent one and its handler is still in its loop; the first handler's
    deferred function deletes the key, which by then holds the second
    subscriber.  The key is left with no subscriber, and the frame published
    afterwards reaches neither the stream nor the queue of the second
    subscription. *)
Lemma resubscribe_stale_teardown :
  reachable staleTeardown
  ∧ handlers staleTeardown !! 1 = Some (mkHandler (KOverview "O1") Streaming [] [])
  ∧ (h_phase <$> handlers staleTeardown !! 0) = Some TornDown
  ∧ lookupKey (svc staleTeardown) (KOverview "O1") = None
  ∧ frameQueue staleTeardown 1 = Some []
  ∧ received staleTeardown 1 = [].
Proof.
  split; [apply reachable_stateOf|].
  repeat split; vm_compute; reflexivity.
Qed.

(* ===================================================================== *)
(** ** Worked examples                                                    *)
(* ===================================================================== *)

(** The test vectors of RFC 4648 for the padded standard alphabet. *)
Example EncodeToString_rfc4648 :
  main.EncodeToString [] = ""
  ∧ main.EncodeToString ["f"%byte] = "Zg=="
  ∧ main.EncodeToString ["f"%byte; "o"%byte] = "Zm8="
  ∧ main.EncodeToString ["f"%byte; "o"%byte; "o"%byte] = "Zm9v"
  ∧ main.EncodeToString ["f"%byte; "o"%byte; "o"%byte; "b"%byte; "a"%byte; "r"%byte]
    = "Zm9vYmFy".
Proof. repeat split; reflexivity. Qed.

(** The concrete scenario of the specification: O1 subscribes to the
    overview; a frame of a1 comes in and is forwarded; a1 goes offline and
    the marker is forwarded; the next forward fails, the handler unregisters
    and closes; a further frame of a1 reaches nobody. *)
Example overview_then_offline_then_gone :
  let st := stateOf (run [Subscribe (KOverview "O1");
                          IncomingFrame (Some frame1); Pump 0 true;
                          AgentOffline "a1"; Pump 0 true;
                          IncomingFrame (Some frame2); Pump 0 false;
                          Unregister 0; Close 0;
                          IncomingFrame (Some frame1)] init) in
  (h_frames <$> handlers st !! 0)
  = Some [Some frame1; Some (mkFrameData "a1" [] 0 true)]
  ∧ (h_phase <$> handlers st !! 0) = Some TornDown
  ∧ frameQueue st 0 = Some []
  ∧ (closeOnce <$> heap st !! 0) = Some true
  ∧ lookupKey (svc st) (KOverview "O1") = None.
Proof. repeat split; vm_compute; reflexivity. Qed.

(** What the client makes of the offline marker. *)
Example client_receives_offline_marker :
  main.GetLatestFrames
    (main.receiveAll [Some frame1; newOfflineFrame "a1"] main.NewApp)
  = [main.mkFrameSnapshot "a1" "" true 0].
Proof. vm_compute. reflexivity. Qed.

(* ===================================================================== *)
(** ** Further properties: what every step keeps of every subscriber      *)
(* ===================================================================== *)

Lemma forEach_keeps {A S} (body : A → S → result S) (P : S → Prop) (l : list A) :
  (∀ x s s', body x s = Ok s' → P s → P s') →
  ∀ s s', forEach body l s = Ok s' → P s → P s'.
Proof.
  intros Hbody. induction l as [|x l IH]; intros s s' Hrun Hs.
  { by injection Hrun as <-. }
  cbn [forEach] in Hrun. destruct (body x s) as [s1|] eqn:Hx; [|done].
  cbn in Hrun. eapply IH; [done|]. by eapply Hbody.
Qed.

Section every_subscriber.
Context (Q : adminSubscriber → Prop).
Hypothesis Q_new : ∀ id, Q (newAdminSubscriber id).
Hypothesis Q_pushFrame : ∀ f a, Q a → Q (pushFrame f a).
Hypothesis Q_pushEvent : ∀ e a, Q a → Q (pushEvent e a).
Hypothesis Q_popFrame : ∀ a x b,
  Chan.buf (frameChan a) = x :: b → Q a →
  Q (set_frameChan (Chan.Make b (Chan.cap (frameChan a)) (Chan.closed (frameChan a))) a).
Hypothesis Q_popEvent : ∀ a x b,
  Chan.buf (eventChan a) = x :: b → Q a →
  Q (set_eventChan (Chan.Make b (Chan.cap (eventChan a)) (Chan.closed (eventChan a))) a).
Hypothesis Q_close : ∀ a r, close a = Ok r → Q a → Q r.1.

Lemma sendFrame_keeps f p (h h' : gmap loc adminSubscriber) :
  sendFrame f p h = Ok h' → map_Forall (λ _, Q) h → map_Forall (λ _, Q) h'.
Proof.
  unfold sendFrame, Chan.trySend. destruct (h !! p) as [sub|] eqn:Hp; [|done].
  destruct (Chan.closed (frameChan sub)); [done|]. cbn. intros [= <-] Hall.
  apply map_Forall_insert_2; [|done]. apply Q_pushFrame. by eapply Hall.
Qed.

Lemma sendEvent_keeps e p (h h' : gmap loc adminSubscriber) :
  sendEvent e p h = Ok h' → map_Forall (λ _, Q) h → map_Forall (λ _, Q) h'.
Proof.
  unfold sendEvent, Chan.trySend. destruct (h !! p) as [sub|] eqn:Hp; [|done].
  destruct (Chan.closed (eventChan sub)); [done|]. cbn. intros [= <-] Hall.
  apply map_Forall_insert_2; [|done]. apply Q_pushEvent. by eapply Hall.
Qed.

Lemma broadcastOverview_keeps frame st st' :
  broadcastOverview frame st = Ok st' →
  map_Forall (λ _, Q) (heap st) → map_Forall (λ _, Q) (heap st').
Proof.
  unfold broadcastOverview.
  destruct (forEach _ _ _) as [h|] eqn:Hrun; [|done]. cbn. intros [= <-]. cbn.
  eapply forEach_keeps; [|done]. intros e s s'. apply sendFrame_keeps.
Qed.

Lemma broadcastDetail_keeps agentId frame st st' :
  broadcastDetail agentId frame st = Ok st' →
  map_Forall (λ _, Q) (heap st) → map_Forall (λ _, Q) (heap st').
Proof.
  unfold broadcastDetail.
  destruct (forEach _ _ _) as [h|] eqn:Hrun; [|done]. cbn. intros [= <-]. cbn.
  eapply forEach_keeps; [|done]. intros e s s'. unfold detailBody.
  destruct (e.2 !! agentId); [apply sendFrame_keeps|by intros [= <-]].
Qed.

Lemma broadcastEvents_keeps agentId event st st' :
  broadcastEvents agentId event st = Ok st' →
  map_Forall (λ _, Q) (heap st) → map_Forall (λ _, Q) (heap st').
Proof.
  unfold broadcastEvents.
  destruct (forEach _ _ _) as [h|] eqn:Hrun; [|done]. cbn. intros [= <-]. cbn.
  eapply forEach_keeps; [|done]. intros e s s'. unfold eventsBody.
  destruct (e.2 !! agentId); [apply sendEvent_keeps|by intros [= <-]].
Qed.

Lemma fanout_keeps agentId frame st st' :
  (st1 ← broadcastOverview frame st; broadcastDetail agentId frame st1) = Ok st' →
  map_Forall (λ _, Q) (heap st) → map_Forall (λ _, Q) (heap st').
Proof.
  destruct (broadcastOverview frame st) as [st1|] eqn:H1; [|done]. cbn.
  intros H2 Hall. eapply broadcastDetail_keeps; [done|].
  by eapply broadcastOverview_keeps.
Qed.

Lemma pump_keeps p ok st st' :
  pump p ok st = Ok st' →
  map_Forall (λ _, Q) (heap st) → map_Forall (λ _, Q) (heap st').
Proof.
  unfold pump.
  destruct (handlers st !! p) as [h|]; [|by intros [= <-]].
  destruct (heap st !! p) as [sub|] eqn:Hsub; [|by intros [= <-]].
  destruct (h_phase h); try by intros [= <-].
  destruct (h_key h); unfold Chan.recv.
  - destruct (Chan.buf (frameChan sub)) as [|x b] eqn:Hbuf.
    + destruct (Chan.closed (frameChan sub)); by intros [= <-].
    + intros [= <-] Hall. cbn. apply map_Forall_insert_2; [|done].
      eapply Q_popFrame; [done|]. by eapply Hall.
  - destruct (Chan.buf (frameChan sub)) as [|x b] eqn:Hbuf.
    + destruct (Chan.closed (frameChan sub)); by intros [= <-].
    + intros [= <-] Hall. cbn. apply map_Forall_insert_2; [|done].
      eapply Q_popFrame; [done|]. by eapply Hall.
  - destruct (Chan.buf (eventChan sub)) as [|x b] eqn:Hbuf.
    + destruct (Chan.closed (eventChan sub)); by intros [= <-].
    + intros [= <-] Hall. cbn. apply map_Forall_insert_2; [|done].
      eapply Q_popEvent; [done|]. by eapply Hall.
Qed.

Lemma teardownClose_keeps p st st' :
  teardownClose p st = Ok st' →
  map_Forall (λ _, Q) (heap st) → map_Forall (λ _, Q) (heap st').
Proof.
  unfold teardownClose, closeSub.
  destruct (handlers st !! p) as [h|]; [|by intros [= <-]].
  destruct (h_phase h); try by intros [= <-].
  destruct (heap st !! p) as [sub|] eqn:Hsub; [|done]. cbn.
  destruct (close sub) as [r|] eqn:Hc; [|done]. cbn. intros [= <-] Hall. cbn.
  apply map_Forall_insert_2; [|done]. eapply Q_close; [done|]. by eapply Hall.
Qed.

Lemma step_keeps a st st' :
  step a st = Ok st' →
  map_Forall (λ _, Q) (heap st) → map_Forall (λ _, Q) (heap st').
Proof.
  destruct a as [k|p ok|p|p|frame|agentId|agentId event]; cbn [step].
  - intros [= <-] Hall. cbn. by apply map_Forall_insert_2.
  - apply pump_keeps.
  - unfold teardownUnregister. destruct (handlers st !! p) as [h|]; [|by intros [= <-]].
    destruct (h_phase h); by intros [= <-].
  - apply teardownClose_keeps.
  - destruct frame as [f|]; [apply fanout_keeps|by intros [= <-]].
  - apply fanout_keeps.
  - apply broadcastEvents_keeps.
Qed.

Lemma run_keeps tr st st' :
  run tr st = Ok st' →
  map_Forall (λ _, Q) (heap st) → map_Forall (λ _, Q) (heap st').
Proof.
  apply (forEach_keeps step (λ s, map_Forall (λ _, Q) (heap s))).
  intros a s s'. apply step_keeps.
Qed.

Lemma reachable_every_subscriber st p a :
  reachable st → heap st !! p = Some a → Q a.
Proof.
  intros [tr Hrun] Ha.
  assert (Hall : map_Forall (λ _, Q) (heap st)).
  { eapply run_keeps; [done|]. apply map_Forall_empty. }
  by eapply Hall.
Qed.

End every_subscriber.

(** X1: whatever the observers, the handlers and the producers do, in
    whatever order, nothing panics: no send on a closed channel, no second
    [close] of a channel, no nil subscriber; and in the state reached every
    registered subscriber is open and registered under one key only. *)
Theorem service_never_panics (tr : list action) :
  ∃ st, run tr init = Ok st ∧ wf st.
Proof.
  destruct (run_inv tr init inv_init) as (st & Hrun & Hinv).
  exists st. split; [done|]. by apply inv_wf.
Qed.

Lemma withinCapacity_new id : withinCapacity (newAdminSubscriber id).
Proof. unfold withinCapacity. cbn. repeat split; lia. Qed.

Lemma enqueue_length {A} (c : Chan.chan A) (x : A) :
  length (Chan.buf c) ≤ Chan.cap c →
  length (Chan.buf (Chan.enqueue c x)) ≤ Chan.cap c.
Proof.
  unfold Chan.enqueue. case_decide; cbn; [|done].
  rewrite length_app. cbn. lia.
Qed.

Lemma withinCapacity_pushFrame f a : withinCapacity a → withinCapacity (pushFrame f a).
Proof.
  intros (Hcf & Hce & Hlf & Hle). unfold withinCapacity. cbn.
  rewrite enqueue_cap. repeat split; try done.
  rewrite <- Hcf. apply enqueue_length. by rewrite Hcf.
Qed.

Lemma withinCapacity_pushEvent e a : withinCapacity a → withinCapacity (pushEvent e a).
Proof.
  intros (Hcf & Hce & Hlf & Hle). unfold withinCapacity. cbn.
  rewrite enqueue_cap. repeat split; try done.
  rewrite <- Hce. apply enqueue_length. by rewrite Hce.
Qed.

Lemma withinCapacity_close a r : close a = Ok r → withinCapacity a → withinCapacity r.1.
Proof.
  unfold close, Chan.close. destruct (closeOnce a); [by intros [= <-]|].
  destruct (Chan.closed (frameChan a)); [done|]. cbn.
  destruct (Chan.closed (eventChan a)); [done|]. cbn.
  by intros [= <-].
Qed.

(** X2: in every reachable state both queues of every subscriber ever
    created still have capacity 4096 and hold at most 4096 items. *)
Theorem queues_within_capacity (st : state) (p : loc) (a : adminSubscriber) :
  reachable st → heap st !! p = Some a → withinCapacity a.
Proof.
  apply (reachable_every_subscriber withinCapacity).
  - apply withinCapacity_new.
  - apply withinCapacity_pushFrame.
  - apply withinCapacity_pushEvent.
  - intros b x l Hbuf (Hcf & Hce & Hlf & Hle). unfold withinCapacity. cbn.
    rewrite Hbuf in Hlf. cbn in Hlf. repeat split; try done. lia.
  - intros b x l Hbuf (Hcf & Hce & Hlf & Hle). unfold withinCapacity. cbn.
    rewrite Hbuf in Hle. cbn in Hle. repeat split; try done. lia.
  - apply withinCapacity_close.
Qed.

Lemma queues_within_capacity_witness :
  reachable slowFast
  ∧ ∃ a, heap slowFast !! 0 = Some a
         ∧ length (Chan.buf (frameChan a)) = 4096
         ∧ withinCapacity a.
Proof.
  assert (Hr : reachable slowFast) by apply reachable_stateOf.
  split; [exact Hr|].
  assert (Hlen : (λ o, match o with
                       | Some a => length (Chan.buf (frameChan a))
                       | None => 0
                       end) (heap slowFast !! 0) = 4096)
    by (vm_compute; reflexivity).
  destruct (heap slowFast !! 0) as [a|] eqn:Ha; [|discriminate Hlen].
  exists a. split; [reflexivity|]. split; [exact Hlen|].
  exact (queues_within_capacity _ 0 a Hr Ha).
Defined.

(* ===================================================================== *)
(** ** Further properties: one subscription among the others              *)
(* ===================================================================== *)

Lemma pump_other (p q : loc) ok st st' :
  pump q ok st = Ok st' → p ≠ q →
  heap st' !! p = heap st !! p ∧ handlers st' !! p = handlers st !! p.
Proof.
  intros Hrun Hne. unfold pump in Hrun.
  destruct (handlers st !! q) as [h|]; [|by injection Hrun as <-].
  destruct (heap st !! q) as [sub|]; [|by injection Hrun as <-].
  destruct (h_phase h); try by injection Hrun as <-.
  destruct (h_key h); unfold Chan.recv in Hrun.
  - destruct (Chan.buf (frameChan sub)) as [|x b];
      [destruct (Chan.closed (frameChan sub))|];
      injection Hrun as <-; cbn; by rewrite ?lookup_insert_ne.
  - destruct (Chan.buf (frameChan sub)) as [|x b];
      [destruct (Chan.closed (frameChan sub))|];
      injection Hrun as <-; cbn; by rewrite ?lookup_insert_ne.
  - destruct (Chan.buf (eventChan sub)) as [|x b];
      [destruct (Chan.closed (eventChan sub))|];
      injection Hrun as <-; cbn; by rewrite ?lookup_insert_ne.
Qed.

Lemma teardownUnregister_other (p q : loc) st st' :
  teardownUnregister q st = Ok st' →
  heap st' = heap st ∧ (p ≠ q → handlers st' !! p = handlers st !! p).
Proof.
  unfold teardownUnregister.
  destruct (handlers st !! q) as [h|]; [|by intros [= <-]].
  destruct (h_phase h); intros [= <-]; cbn; split; try done.
  intros Hne. by rewrite lookup_insert_ne.
Qed.

Lemma teardownClose_other (p q : loc) st st' :
  teardownClose q st = Ok st' → p ≠ q →
  heap st' !! p = heap st !! p ∧ handlers st' !! p = handlers st !! p.
Proof.
  unfold teardownClose, closeSub. intros Hrun Hne.
  destruct (handlers st !! q) as [h|]; [|by injection Hrun as <-].
  destruct (h_phase h); try by injection Hrun as <-.
  destruct (heap st !! q) as [sub|]; [|done]. cbn in Hrun.
  destruct (close sub) as [r|]; [|done]. cbn in Hrun. injection Hrun as <-. cbn.
  by rewrite !lookup_insert_ne.
Qed.

Lemma inv_handler_allocated (st : state) (p : loc) (h : handler) :
  inv st → handlers st !! p = Some h →
  ∃ a, heap st !! p = Some a ∧ p < nextLoc st ∧ subscriberOk a
       ∧ (h_phase h ≠ TornDown → closeOnce a = false).
Proof.
  intros (_ & H2 & H3 & _) Hh. destruct (H3 p h Hh) as (a & Ha & Hc).
  destruct (H2 p a Ha) as [Hlt Hok]. by exists a.
Qed.

Lemma inv_registered_phase (st : state) (k : key) (p : loc) (h : handler) :
  inv st → lookupKey (svc st) k = Some p → handlers st !! p = Some h →
  h_key h = k ∧ (h_phase h = Streaming ∨ h_phase h = Returning).
Proof.
  intros (H1 & _) Hk Hh. destruct (H1 k p Hk) as (a & h' & _ & _ & Hh' & Hkey & Hph).
  rewrite Hh in Hh'. by injection Hh' as <-.
Qed.

(** How one step moves the fan-out past a subscriber that is registered
    nowhere. *)
Lemma publish_misses_unregistered (a : action) (st st' : state) (p : loc) :
  inv st → (∀ k, lookupKey (svc st) k ≠ Some p) →
  match a with
  | IncomingFrame _ | AgentOffline _ | PublishEvent _ _ => True
  | _ => False
  end →
  step a st = Ok st' →
  heap st' !! p = heap st !! p ∧ handlers st' = handlers st ∧ svc st' = svc st.
Proof.
  intros Hinv Hnot Hpub Hstep. pose proof (inv_wf _ Hinv) as Hwf.
  destruct a as [| | | |[f|]|agentId|agentId event]; try done; cbn [step] in Hstep.
  - destruct (HandleIncomingFrame_spec f st Hwf) as (s & Hr & Hs & Hh & _ & Hheap).
    rewrite Hr in Hstep. injection Hstep as <-. split; [|done].
    rewrite Hheap. rewrite decide_False; [done|].
    intros (k & Hk & _)%elem_of_fanout. by eapply Hnot.
  - by injection Hstep as <-.
  - destruct (PublishAgentOffline_spec agentId st Hwf) as (s & Hr & Hs & Hh & _ & Hheap).
    rewrite Hr in Hstep. injection Hstep as <-. split; [|done].
    rewrite Hheap. rewrite decide_False; [done|].
    intros (k & Hk & _)%elem_of_fanout. by eapply Hnot.
  - destruct (broadcastEvents_spec agentId event st Hwf) as (s & Hr & Hs & Hh & _ & Hheap).
    rewrite Hr in Hstep. injection Hstep as <-. split; [|done].
    rewrite Hheap. rewrite decide_False; [done|].
    intros (k & Hk)%elem_of_eventsTargets. by eapply Hnot.
Qed.

(** A subscriber that is registered nowhere stays so, unless it is the
    one a registration creates. *)
Lemma step_unregistered_stays (a : action) (st st' : state) (p : loc) :
  p < nextLoc st → (∀ k, lookupKey (svc st) k ≠ Some p) →
  step a st = Ok st' → ∀ k, lookupKey (svc st') k ≠ Some p.
Proof.
  intros Hlt Hnot Hstep k. rewrite (step_svc a st st' Hstep).
  destruct a as [k'|q ok|q|q|frame|agentId|agentId event]; try apply Hnot.
  - rewrite lookupKey_register. case_decide; [|apply Hnot]. intros [= Heq]. lia.
  - destruct (handlers st !! q) as [h|]; [|apply Hnot].
    destruct (h_phase h); try apply Hnot.
    rewrite lookupKey_unregister. case_decide; [done|apply Hnot].
Qed.

Lemma gone_step (a : action) (st st' : state) (p : loc) (h : handler) :
  inv st → handlers st !! p = Some h →
  (h_phase h = Unregistered ∨ h_phase h = TornDown) →
  step a st = Ok st' →
  ∃ h', handlers st' !! p = Some h'
        ∧ (h_phase h' = Unregistered ∨ h_phase h' = TornDown)
        ∧ h_frames h' = h_frames h ∧ h_events h' = h_events h
        ∧ frameQueue st' p = frameQueue st p
        ∧ eventQueue st' p = eventQueue st p.
Proof.
  intros Hinv Hh Hph Hstep.
  destruct (inv_handler_allocated st p h Hinv Hh) as (sub & Hsub & Hlt & Hok & Hc).
  assert (Hnot : ∀ k, lookupKey (svc st) k ≠ Some p).
  { intros k Hk. destruct (inv_registered_phase st k p h Hinv Hk Hh) as [_ [H|H]];
      destruct Hph as [H'|H']; congruence. }
  assert (Hsame : heap st' !! p = heap st !! p → handlers st' !! p = handlers st !! p →
    ∃ h', handlers st' !! p = Some h'
          ∧ (h_phase h' = Unregistered ∨ h_phase h' = TornDown)
          ∧ h_frames h' = h_frames h ∧ h_events h' = h_events h
          ∧ frameQueue st' p = frameQueue st p
          ∧ eventQueue st' p = eventQueue st p).
  { intros Hheap Hhand. exists h. unfold frameQueue, eventQueue.
    by rewrite Hheap, Hhand. }
  destruct a as [k|q ok|q|q|frame|agentId|agentId event].
  - cbn [step] in Hstep. injection Hstep as <-. apply Hsame; cbn;
      rewrite lookup_insert_ne; try done; lia.
  - cbn [step] in Hstep. destruct (decide (q = p)) as [->|Hne].
    + unfold pump in Hstep. rewrite Hh, Hsub in Hstep.
      destruct Hph as [Hp|Hp]; rewrite Hp in Hstep; injection Hstep as <-;
        by apply Hsame.
    + destruct (pump_other p q ok st st' Hstep) as [H1 H2]; [done|]. by apply Hsame.
  - cbn [step] in Hstep. destruct (decide (q = p)) as [->|Hne].
    + unfold teardownUnregister in Hstep. rewrite Hh in Hstep.
      destruct Hph as [Hp|Hp]; rewrite Hp in Hstep; injection Hstep as <-;
        by apply Hsame.
    + destruct (teardownUnregister_other p q st st' Hstep) as [H1 H2].
      apply Hsame; [by rewrite H1|by apply H2].
  - cbn [step] in Hstep. destruct (decide (q = p)) as [->|Hne].
    + unfold teardownClose, closeSub in Hstep. rewrite Hh in Hstep.
      destruct Hph as [Hp|Hp]; rewrite Hp in Hstep;
        [|injection Hstep as <-; by apply Hsame].
      rewrite Hsub in Hstep. cbn in Hstep.
      rewrite close_first in Hstep; [|done|apply Hc; by rewrite Hp].
      cbn in Hstep. injection Hstep as <-.
      eexists. cbn. rewrite lookup_insert_eq. split; [done|].
      split; [by right|]. split; [done|]. split; [done|].
      unfold frameQueue, eventQueue. cbn. by rewrite lookup_insert_eq, Hsub.
    + destruct (teardownClose_other p q st st' Hstep) as [H1 H2]; [done|].
      by apply Hsame.
  - destruct (publish_misses_unregistered (IncomingFrame frame) st st' p Hinv Hnot I Hstep)
      as (H1 & H2 & _).
    apply Hsame; [done|by rewrite H2].
  - destruct (publish_misses_unregistered (AgentOffline agentId) st st' p Hinv Hnot I Hstep)
      as (H1 & H2 & _).
    apply Hsame; [done|by rewrite H2].
  - destruct (publish_misses_unregistered (PublishEvent agentId event) st st' p Hinv Hnot I
                Hstep) as (H1 & H2 & _).
    apply Hsame; [done|by rewrite H2].
Qed.

(** X3: once a handler has run the unregistration half of its deferred
    function, nothing that happens later reaches its subscriber: whatever
    the trace, the subscriber is registered under no key, its two queues
    hold what they held, and its stream has been sent nothing more. *)
Theorem unregistered_subscriber_is_left_alone (st : state) (p : loc) (h : handler)
    (tr : list action) :
  reachable st → handlers st !! p = Some h →
  h_phase h = Unregistered ∨ h_phase h = TornDown →
  ∃ st' h',
    run tr st = Ok st'
    ∧ handlers st' !! p = Some h'
    ∧ (h_phase h' = Unregistered ∨ h_phase h' = TornDown)
    ∧ h_frames h' = h_frames h ∧ h_events h' = h_events h
    ∧ frameQueue st' p = frameQueue st p
    ∧ eventQueue st' p = eventQueue st p
    ∧ ∀ k, lookupKey (svc st') k ≠ Some p.
Proof.
  intros Hreach. apply reachable_inv in Hreach as Hinv. clear Hreach.
  revert st h Hinv. induction tr as [|a tr IH]; intros st h Hinv Hh Hph.
  { exists st, h. repeat (split; [done|]). intros k Hk.
    destruct (inv_registered_phase st k p h Hinv Hk Hh) as [_ [H|H]];
      destruct Hph as [H'|H']; congruence. }
  destruct (step_inv a st Hinv) as (st1 & Hstep & Hinv1).
  destruct (gone_step a st st1 p h Hinv Hh Hph Hstep)
    as (h1 & Hh1 & Hph1 & Hf1 & He1 & Hfq1 & Heq1).
  destruct (IH st1 h1 Hinv1 Hh1 Hph1)
    as (st' & h' & Hrun & Hh' & Hph' & Hf' & He' & Hfq' & Heq' & Hnot).
  exists st', h'. rewrite run_cons, Hstep. cbn.
  repeat split; try done; congruence.
Qed.

Lemma unregistered_subscriber_is_left_alone_witness :
  let tr := [IncomingFrame (Some frame1); Pump 0 true;
             Subscribe (KDetail "O2" "a1"); Close 0; AgentOffline "a1"] in
  reachable afterUnregister
  ∧ ∃ st', run tr afterUnregister = Ok st'
           ∧ frameQueue st' 0 = Some [Some frame2]
           ∧ ∀ k, lookupKey (svc st') k ≠ Some 0.
Proof.
  intros tr.
  assert (Hr : reachable afterUnregister) by apply reachable_stateOf.
  split; [exact Hr|].
  assert (Hh : handlers afterUnregister !! 0
               = Some (mkHandler (KDetail "O1" "a1") Unregistered [] []))
    by (vm_compute; reflexivity).
  destruct (unregistered_subscriber_is_left_alone afterUnregister 0 _ tr Hr Hh)
    as (st' & h' & Hrun & _ & _ & _ & _ & Hfq & _ & Hnot); [by left|].
  exists st'. split; [exact Hrun|]. split; [|exact Hnot].
  rewrite Hfq. vm_compute. reflexivity.
Defined.

Lemma orphan_step (a : action) (st st' : state) (p : loc) (h : handler) :
  inv st → handlers st !! p = Some h → h_phase h = Streaming →
  (∀ k, lookupKey (svc st) k ≠ Some p) →
  frameQueue st p = Some [] → eventQueue st p = Some [] →
  step a st = Ok st' →
  heap st' !! p = heap st !! p ∧ handlers st' !! p = handlers st !! p.
Proof.
  intros Hinv Hh Hph Hnot Hfq Heq Hstep.
  destruct (inv_handler_allocated st p h Hinv Hh) as (sub & Hsub & Hlt & [Hcf Hce] & Hc).
  unfold frameQueue, eventQueue in Hfq, Heq. rewrite Hsub in Hfq, Heq.
  cbn in Hfq, Heq. injection Hfq as Hfq. injection Heq as Heq.
  assert (Hopen : closeOnce sub = false) by (apply Hc; by rewrite Hph).
  rewrite Hopen in Hcf, Hce.
  destruct a as [k|q ok|q|q|frame|agentId|agentId event].
  - cbn [step] in Hstep. injection Hstep as <-. cbn.
    rewrite !lookup_insert_ne by lia. done.
  - cbn [step] in Hstep. destruct (decide (q = p)) as [->|Hne].
    + unfold pump, Chan.recv in Hstep. rewrite Hh, Hsub, Hph, Hfq, Heq, Hcf, Hce in Hstep.
      destruct (h_key h); by injection Hstep as <-.
    + by apply (pump_other p q ok).
  - cbn [step] in Hstep. destruct (decide (q = p)) as [->|Hne].
    + unfold teardownUnregister in Hstep. rewrite Hh, Hph in Hstep.
      by injection Hstep as <-.
    + destruct (teardownUnregister_other p q st st' Hstep) as [H1 H2].
      split; [by rewrite H1|by apply H2].
  - cbn [step] in Hstep. destruct (decide (q = p)) as [->|Hne].
    + unfold teardownClose in Hstep. rewrite Hh, Hph in Hstep.
      by injection Hstep as <-.
    + by apply (teardownClose_other p q).
  - destruct (publish_misses_unregistered (IncomingFrame frame) st st' p Hinv Hnot I Hstep)
      as (H1 & H2 & _). by rewrite H2.
  - destruct (publish_misses_unregistered (AgentOffline agentId) st st' p Hinv Hnot I Hstep)
      as (H1 & H2 & _). by rewrite H2.
  - destruct (publish_misses_unregistered (PublishEvent agentId event) st st' p Hinv Hnot I
                Hstep) as (H1 & H2 & _). by rewrite H2.
Qed.

(** X4: a handler that is still in its loop while its subscriber is
    registered under no key and has nothing queued (what is left of a
    subscription after a second one took its key) never leaves the loop:
    whatever happens later, it is sent nothing, it is not registered again,
    its channels are never closed, and the handler stays where it is. *)
Theorem orphaned_handler_waits_forever (st : state) (p : loc) (h : handler)
    (tr : list action) :
  reachable st → handlers st !! p = Some h → h_phase h = Streaming →
  (∀ k, lookupKey (svc st) k ≠ Some p) →
  frameQueue st p = Some [] → eventQueue st p = Some [] →
  ∃ st', run tr st = Ok st'
         ∧ handlers st' !! p = Some h
         ∧ heap st' !! p = heap st !! p
         ∧ ∀ k, lookupKey (svc st') k ≠ Some p.
Proof.
  intros Hreach. apply reachable_inv in Hreach as Hinv. clear Hreach.
  revert st Hinv. induction tr as [|a tr IH]; intros st Hinv Hh Hph Hnot Hfq Heq.
  { by exists st. }
  destruct (step_inv a st Hinv) as (st1 & Hstep & Hinv1).
  destruct (orphan_step a st st1 p h Hinv Hh Hph Hnot Hfq Heq Hstep) as [Hheap Hhand].
  destruct (inv_handler_allocated st p h Hinv Hh) as (sub & Hsub & Hlt & _).
  destruct (IH st1 Hinv1) as (st' & Hrun & Hh' & Hheap' & Hnot'); try done.
  - by rewrite Hhand.
  - by eapply step_unregistered_stays.
  - unfold frameQueue in *. by rewrite Hheap.
  - unfold eventQueue in *. by rewrite Hheap.
  - exists st'. rewrite run_cons, Hstep. cbn. repeat split; try done. congruence.
Qed.

Lemma orphaned_handler_waits_forever_witness :
  let tr := [IncomingFrame (Some frame1); Pump 0 true; Pump 0 false;
             Unregister 0; Close 0; PublishEvent "a1" None; AgentOffline "a1"] in
  reachable orphaned
  ∧ ∃ st', run tr orphaned = Ok st'
           ∧ handlers st' !! 0 = Some (mkHandler (KOverview "O1") Streaming [] [])
           ∧ frameQueue st' 0 = Some []
           ∧ frameQueue st' 1 = Some [Some frame1; Some (mkFrameData "a1" [] 0 true)].
Proof.
  intros tr.
  assert (Hr : reachable orphaned) by apply reachable_stateOf.
  split; [exact Hr|].
  assert (Hh : handlers orphaned !! 0 = Some (mkHandler (KOverview "O1") Streaming [] []))
    by (vm_compute; reflexivity).
  assert (Hnot : ∀ k, lookupKey (svc orphaned) k ≠ Some 0).
  { intros k Hk.
    destruct (inv_registered_phase orphaned k 0 _ (reachable_inv _ Hr) Hk Hh) as [<- _].
    vm_compute in Hk. discriminate Hk. }
  destruct (orphaned_handler_waits_forever orphaned 0 _ tr Hr Hh eq_refl Hnot)
    as (st' & Hrun & Hh' & Hheap & _); [vm_compute; reflexivity..|].
  exists st'. split; [exact Hrun|]. split; [exact Hh'|].
  split; [unfold frameQueue; rewrite Hheap; vm_compute; reflexivity|].
  assert (Hst' : st' = stateOf (run tr orphaned)) by (by rewrite Hrun).
  rewrite Hst'. vm_compute. reflexivity.
Defined.

(* ===================================================================== *)
(** ** Further properties: the registry                                   *)
(* ===================================================================== *)

Section two_level_roundtrip.
Implicit Types (m : gmap string (gmap string loc)) (a g : string) (p : loc).

Lemma insert2_lookup m a g p :
  insert2 a g p m !! a = Some (<[g := p]> (default ∅ (m !! a))).
Proof.
  unfold insert2. rewrite lookup_insert_eq.
  destruct (m !! a) as [inner|] eqn:Hm; cbn; [by rewrite Hm|].
  by rewrite lookup_insert_eq.
Qed.

Lemma insert2_lookup_ne m a g p a' :
  a' ≠ a → insert2 a g p m !! a' = m !! a'.
Proof.
  intros Hne. unfold insert2. rewrite lookup_insert_ne by done.
  destruct (m !! a); [done|]. by rewrite lookup_insert_ne.
Qed.

Lemma delete2_insert2 m a g p :
  noEmptyInner m → lookup2 a g m = None → delete2 a g (insert2 a g p m) = m.
Proof.
  intros Hne Hl. apply map_eq. intros a'.
  destruct (decide (a' = a)) as [->|Ha].
  - rewrite delete2_lookup, insert2_lookup. rewrite delete_insert_eq.
    unfold lookup2 in Hl. destruct (m !! a) as [inner|] eqn:Hm; cbn in *.
    + rewrite delete_id by done. rewrite decide_False; [done|]. by eapply Hne.
    + rewrite delete_id by apply lookup_empty. by rewrite decide_True.
  - rewrite delete2_lookup_ne by done. by apply insert2_lookup_ne.
Qed.

Lemma insert2_delete2 m a g p :
  lookup2 a g m = Some p → insert2 a g p (delete2 a g m) = m.
Proof.
  intros Hl. apply map_eq. intros a'.
  destruct (decide (a' = a)) as [->|Ha].
  - rewrite insert2_lookup, delete2_lookup.
    unfold lookup2 in Hl. destruct (m !! a) as [inner|] eqn:Hm; [|done]. cbn in Hl.
    f_equal. case_decide as He; cbn.
    + rewrite <- He. rewrite insert_delete_eq. by apply insert_id.
    + rewrite insert_delete_eq. by apply insert_id.
  - rewrite insert2_lookup_ne by done. by apply delete2_lookup_ne.
Qed.

End two_level_roundtrip.

(** X5: registering under a key that is free and then unregistering it gives
    back the registry exactly as it was, inner maps included; unregistering
    a key and registering the same subscriber under it again does so too. *)
Theorem register_unregister_roundtrip (s : AdminService) (k : key) (p : loc) :
  noEmptyInner (detailSubs s) → noEmptyInner (eventSubs s) →
  (lookupKey s k = None → unregister k (register k p s) = s)
  ∧ (lookupKey s k = Some p → register k p (unregister k s) = s).
Proof.
  intros Hd He. destruct s as [o d e]. cbn in Hd, He.
  destruct k as [a|a g|a g]; cbn; split; intros Hk; f_equal.
  - rewrite delete_insert_eq. by apply delete_id.
  - rewrite insert_delete_eq. by apply insert_id.
  - by apply delete2_insert2.
  - by apply insert2_delete2.
  - by apply delete2_insert2.
  - by apply insert2_delete2.
Qed.

Lemma register_unregister_roundtrip_witness :
  let s := register (KDetail "O1" "a1") 0 (register (KEvents "O2" "a1") 1 NewAdminService) in
  unregister (KDetail "O1" "a2") (register (KDetail "O1" "a2") 2 s) = s
  ∧ unregister (KDetail "O3" "a1") (register (KDetail "O3" "a1") 2 s) = s
  ∧ register (KEvents "O2" "a1") 1 (unregister (KEvents "O2" "a1") s) = s.
Proof.
  intros s.
  assert (Hd : noEmptyInner (detailSubs s)).
  { subst s. cbn [register detailSubs].
    apply noEmptyInner_insert2. apply noEmptyInner_empty. }
  assert (He : noEmptyInner (eventSubs s)).
  { subst s. cbn [register eventSubs].
    apply noEmptyInner_insert2. apply noEmptyInner_empty. }
  split; [|split].
  - apply (register_unregister_roundtrip s (KDetail "O1" "a2") 2 Hd He). reflexivity.
  - apply (register_unregister_roundtrip s (KDetail "O3" "a1") 2 Hd He). reflexivity.
  - apply (register_unregister_roundtrip s (KEvents "O2" "a1") 1 Hd He). reflexivity.
Defined.



(* ===================================================================== *)
(** ** Further properties: the order of a map range, and the loop         *)
(* ===================================================================== *)

(** X7: Go ranges over a map in an unspecified order; when every registered
    subscriber is open and registered once, the three broadcasts give the
    same result in whatever order the entries of the map are visited. *)
Theorem broadcast_order_is_irrelevant (st : state) (agentId : string)
    (frame : FramePtr) (event : EventPtr)
    (lo : list (string * loc)) (ld le : list (string * gmap string loc)) :
  wf st →
  lo ≡ₚ map_to_list (overviewSubs (svc st)) →
  ld ≡ₚ map_to_list (detailSubs (svc st)) →
  le ≡ₚ map_to_list (eventSubs (svc st)) →
  (h ← forEach (overviewBody frame) lo (heap st); Ok (set_heap h st))
  = broadcastOverview frame st
  ∧ (h ← forEach (detailBody agentId frame) ld (heap st); Ok (set_heap h st))
    = broadcastDetail agentId frame st
  ∧ (h ← forEach (eventsBody agentId event) le (heap st); Ok (set_heap h st))
    = broadcastEvents agentId event st.
Proof.
  intros Hwf Ho Hd He. unfold broadcastOverview, broadcastDetail, broadcastEvents.
  split; [|split]; f_equal.
  - rewrite !forEach_overviewBody. symmetry. apply forEach_sendFrame_perm.
    + by rewrite Ho.
    + by apply NoDup_overviewTargets.
    + intros p (a & Ha)%elem_of_overviewTargets.
      destruct (proj1 Hwf _ _ Ha) as (sub & Hsub & Hf & _). by exists sub.
  - rewrite !forEach_detailBody. symmetry. apply forEach_sendFrame_perm.
    + by rewrite Hd.
    + by apply NoDup_detailTargets.
    + intros p (a & Ha)%elem_of_detailTargets.
      destruct (proj1 Hwf _ _ Ha) as (sub & Hsub & Hf & _). by exists sub.
  - rewrite !forEach_eventsBody. symmetry. apply forEach_sendEvent_perm.
    + by rewrite He.
    + by apply NoDup_eventsTargets.
    + intros p (a & Ha)%elem_of_eventsTargets.
      destruct (proj1 Hwf _ _ Ha) as (sub & Hsub & _ & Hev). by exists sub.
Qed.

Lemma broadcast_order_is_irrelevant_witness :
  wf slowFast
  ∧ (h ← forEach (overviewBody (Some frame2)) [("fast", 1); ("slow", 0)] (heap slowFast);
     Ok (set_heap h slowFast))
    = broadcastOverview (Some frame2) slowFast
  ∧ (h ← forEach (overviewBody (Some frame2)) [("slow", 0); ("fast", 1)] (heap slowFast);
     Ok (set_heap h slowFast))
    = broadcastOverview (Some frame2) slowFast.
Proof.
  assert (Hwf : wf slowFast) by apply reachable_wf, reachable_stateOf.
  split; [exact Hwf|].
  assert (Hm : overviewSubs (svc slowFast)
               = <["slow" := 0]> (<["fast" := 1]> (∅ : gmap string loc)))
    by (vm_compute; reflexivity).
  assert (Hp : [("slow", 0); ("fast", 1)] ≡ₚ map_to_list (overviewSubs (svc slowFast))).
  { rewrite Hm. rewrite map_to_list_insert by done.
    rewrite map_to_list_insert by done. by rewrite map_to_list_empty. }
  split.
  - refine (proj1 (broadcast_order_is_irrelevant slowFast "a1" (Some frame2) None
                     [("fast", 1); ("slow", 0)]
                     (map_to_list (detailSubs (svc slowFast)))
                     (map_to_list (eventSubs (svc slowFast))) Hwf _ _ _));
      [|reflexivity..].
    rewrite <- Hp. apply perm_swap.
  - exact (proj1 (broadcast_order_is_irrelevant slowFast "a1" (Some frame2) None
                    [("slow", 0); ("fast", 1)]
                    (map_to_list (detailSubs (svc slowFast)))
                    (map_to_list (eventSubs (svc slowFast))) Hwf Hp
                    (reflexivity _) (reflexivity _))).
Defined.

Lemma pump_frame_step (st : state) (p : loc) (h : handler) (sub : adminSubscriber)
    (x : FramePtr) (b : list FramePtr) :
  handlers st !! p = Some h → h_phase h = Streaming →
  (∀ a g, h_key h ≠ KEvents a g) →
  heap st !! p = Some sub → Chan.buf (frameChan sub) = x :: b →
  pump p true st
  = Ok {| heap := <[p := set_frameChan
                          (Chan.Make b (Chan.cap (frameChan sub))
                             (Chan.closed (frameChan sub))) sub]> (heap st);
          handlers := <[p := mkHandler (h_key h) Streaming (h_frames h ++ [x])
                                (h_events h)]> (handlers st);
          nextLoc := nextLoc st; svc := svc st |}.
Proof.
  intros Hh Hph Hk Hsub Hbuf. unfold pump, Chan.recv.
  rewrite Hh, Hsub, Hph, Hbuf. destruct (h_key h) as [a|a g|a g]; try done.
  by destruct (Hk a g).
Qed.

(** X8: a handler of an overview or detail subscription that is in its loop
    forwards what is queued in the order it was queued: after [n] rounds
    with successful sends the stream has been sent the first [n] queued
    frames, in order and after what it had been sent before, the queue holds
    the rest, the handler is still in its loop, and the registry and every
    other subscriber and handler are untouched. *)
Theorem handler_forwards_in_queue_order (n : nat) :
  ∀ (st : state) (p : loc) (h : handler) (sub : adminSubscriber),
    handlers st !! p = Some h → h_phase h = Streaming →
    (∀ a g, h_key h ≠ KEvents a g) →
    heap st !! p = Some sub → n ≤ length (Chan.buf (frameChan sub)) →
    ∃ st',
      run (replicate n (Pump p true)) st = Ok st'
      ∧ handlers st' !! p
        = Some (mkHandler (h_key h) Streaming
                  (h_frames h ++ take n (Chan.buf (frameChan sub))) (h_events h))
      ∧ frameQueue st' p = Some (drop n (Chan.buf (frameChan sub)))
      ∧ eventQueue st' p = eventQueue st p
      ∧ svc st' = svc st
      ∧ ∀ q, q ≠ p → heap st' !! q = heap st !! q
                     ∧ handlers st' !! q = handlers st !! q.
Proof.
  induction n as [|n IH]; intros st p h sub Hh Hph Hk Hsub Hn.
  { exists st. split; [done|]. cbn. rewrite app_nil_r.
    split; [by destruct h; cbn in *; subst|].
    unfold frameQueue. rewrite Hsub. done. }
  destruct (Chan.buf (frameChan sub)) as [|x b] eqn:Hbuf; [cbn in Hn; lia|].
  cbn [replicate]. rewrite run_cons. cbn [step].
  rewrite (pump_frame_step st p h sub x b) by done. cbn [mbind result_mbind result_bind].
  match goal with |- context [run _ ?s] => set (st1 := s) end.
  destruct (IH st1 p (mkHandler (h_key h) Streaming (h_frames h ++ [x]) (h_events h))
              (set_frameChan (Chan.Make b (Chan.cap (frameChan sub))
                                (Chan.closed (frameChan sub))) sub))
    as (st' & Hrun & Hh' & Hfq & Heq & Hsvc & Hother).
  - subst st1. cbn [handlers]. apply lookup_insert_eq.
  - done.
  - cbn [h_key]. exact Hk.
  - subst st1. cbn [heap]. apply lookup_insert_eq.
  - cbn. cbn in Hn. lia.
  - subst st1. exists st'. split; [exact Hrun|]. cbn in Hh', Hfq.
    split; [by rewrite Hh', <- app_assoc|]. split; [done|].
    split.
    { rewrite Heq. unfold eventQueue. cbn. by rewrite lookup_insert_eq, Hsub. }
    split; [done|]. intros q Hq. destruct (Hother q Hq) as [H1 H2].
    cbn [heap handlers] in H1, H2.
    rewrite lookup_insert_ne in H1 by done. rewrite lookup_insert_ne in H2 by done.
    done.
Qed.

Lemma handler_forwards_in_queue_order_witness :
  handlers threeWaiting !! 0 = Some (mkHandler (KOverview "O1") Streaming [] [])
  ∧ ∃ st', run (replicate 2 (Pump 0 true)) threeWaiting = Ok st'
           ∧ (h_frames <$> handlers st' !! 0) = Some [Some frame1; Some frame2]
           ∧ frameQueue st' 0 = Some [Some (mkFrameData "a1" [] 0 true)].
Proof.
  assert (Hh : handlers threeWaiting !! 0
               = Some (mkHandler (KOverview "O1") Streaming [] []))
    by (vm_compute; reflexivity).
  split; [exact Hh|].
  assert (Hsub : heap threeWaiting !! 0
                 = Some (withFrame (newOfflineFrame "a1")
                           (withFrame (Some frame2)
                              (withFrame (Some frame1) (newAdminSubscriber "O1")))))
    by (vm_compute; reflexivity).
  destruct (handler_forwards_in_queue_order 2 threeWaiting 0 _
              (withFrame (newOfflineFrame "a1")
                 (withFrame (Some frame2)
                    (withFrame (Some frame1) (newAdminSubscriber "O1"))))
              Hh eq_refl)
    as (st' & Hrun & Hh' & Hfq & _); [discriminate|exact Hsub|cbn; lia|].
  exists st'. split; [exact Hrun|]. rewrite Hh', Hfq. split; reflexivity.
Defined.

(* ===================================================================== *)
(** ** Further properties: the client's cache and the front end           *)
(* ===================================================================== *)

Lemma receiveAll_snoc (frames : list FramePtr) (f : FramePtr) (a : main.App) :
  main.receiveAll (frames ++ [f]) a = main.receive f (main.receiveAll frames a).
Proof. unfold main.receiveAll. by rewrite foldl_snoc. Qed.

Lemma receive_lookup (f : FramePtr) (a : main.App) (x : string) :
  main.latestFrames (main.receive f a) !! x
  = if decide (x = GetAgentId f) then Some (snapshotOf f) else main.latestFrames a !! x.
Proof. unfold main.receive. by rewrite storeFrame_lookup. Qed.

Lemma receiveAll_lookup (frames : list FramePtr) (a : main.App) (x : string) :
  main.latestFrames (main.receiveAll frames a) !! x
  = match last (filter (λ f, GetAgentId f = x) frames) with
    | Some f => Some (snapshotOf f)
    | None => main.latestFrames a !! x
    end.
Proof.
  induction frames as [|f frames IH] using rev_ind; [done|].
  rewrite receiveAll_snoc, receive_lookup, filter_app.
  destruct (decide (x = GetAgentId f)) as [->|Hne].
  - rewrite (filter_cons_True _ f []) by done. rewrite filter_nil.
    by rewrite last_snoc.
  - rewrite (filter_cons_False _ f []) by congruence. rewrite filter_nil.
    by rewrite app_nil_r.
Qed.

(** X9: after any stream of frames the cache holds, for each agent, the
    snapshot of the last frame of that agent in the stream (agent id, base64
    of the payload, preview flag, timestamp); an agent without a frame in the
    stream keeps the entry it had, if any. *)
Theorem cache_holds_latest_frame (frames : list FramePtr) (a : main.App) (x : string) :
  main.latestFrames (main.receiveAll frames a) !! x
  = match last (filter (λ f, GetAgentId f = x) frames) with
    | Some f => Some (snapshotOf f)
    | None => main.latestFrames a !! x
    end.
Proof.
  induction frames as [|f frames IH] using rev_ind; [done|].
  rewrite receiveAll_snoc, receive_lookup, filter_app.
  destruct (decide (x = GetAgentId f)) as [->|Hne].
  - rewrite (filter_cons_True _ f []) by done. rewrite filter_nil.
    by rewrite last_snoc.
  - rewrite (filter_cons_False _ f []) by congruence. rewrite filter_nil.
    by rewrite app_nil_r.
Qed.

Lemma NewApp_lookup (x : string) : main.latestFrames main.NewApp !! x = None.
Proof. apply lookup_empty. Qed.

(** X10: starting from the empty cache, every entry is stored under the
    agent id it carries, so [GetLatestFrames] returns exactly one snapshot
    for each agent that occurs in the stream and none for any other. *)
Theorem cache_has_one_entry_per_agent (frames : list FramePtr) :
  let a := main.receiveAll frames main.NewApp in
  (∀ x s, main.latestFrames a !! x = Some s → main.AgentID s = x)
  ∧ NoDup (main.AgentID <$> main.GetLatestFrames a)
  ∧ (∀ x, x ∈ main.AgentID <$> main.GetLatestFrames a
          ↔ ∃ f, f ∈ frames ∧ GetAgentId f = x).
Proof.
  intros a.
  assert (Hkey : ∀ x s, main.latestFrames a !! x = Some s → main.AgentID s = x).
  { intros x s. subst a. rewrite receiveAll_lookup.
    destruct (last _) as [f|] eqn:Hlast; [|by rewrite NewApp_lookup].
    intros [= <-]. apply last_Some_elem_of in Hlast.
    by apply list_elem_of_filter in Hlast as [<- _]. }
  assert (Hfst : main.AgentID <$> main.GetLatestFrames a
                 = (map_to_list (main.latestFrames a)).*1).
  { unfold main.GetLatestFrames. rewrite <- list_fmap_compose.
    apply list_fmap_ext. intros i [x s] Hin%list_elem_of_lookup_2%elem_of_map_to_list.
    cbn. by apply Hkey. }
  split; [exact Hkey|]. split.
  - rewrite Hfst. apply NoDup_fst_map_to_list.
  - intros x. rewrite Hfst. rewrite list_elem_of_fmap. split.
    + intros ([x' s] & -> & Hin%elem_of_map_to_list). cbn.
      subst a. rewrite receiveAll_lookup in Hin.
      destruct (last _) as [f|] eqn:Hlast; [|by rewrite NewApp_lookup in Hin].
      apply last_Some_elem_of in Hlast.
      apply list_elem_of_filter in Hlast as [Hx Hf]. by exists f.
    + intros (f & Hf & Hx).
      assert (Hin : f ∈ filter (λ f, GetAgentId f = x) frames)
        by (by apply list_elem_of_filter).
      destruct (last (filter (λ f, GetAgentId f = x) frames)) as [g|] eqn:Hlast.
      * exists (x, snapshotOf g). split; [done|]. apply elem_of_map_to_list.
        subst a. by rewrite receiveAll_lookup, Hlast.
      * apply last_None in Hlast. rewrite Hlast in Hin. by apply elem_of_nil in Hin.
Qed.

Lemma EncodeToString_triples (P : list byte → Prop) :
  P [] → (∀ a, P [a]) → (∀ a b, P [a; b]) →
  (∀ a b c l, P l → P (a :: b :: c :: l)) →
  ∀ l, P l.
Proof.
  intros H0 H1 H2 H3 l.
  assert (H : P l ∧ (∀ a, P (a :: l)) ∧ (∀ a b, P (a :: b :: l))).
  { induction l as [|c l (IH0 & IH1 & IH2)]; [by repeat split|].
    split; [apply IH1|]. split; [intros a; apply IH2|].
    intros a b. by apply H3. }
  apply H.
Qed.

Lemma div3_step (n : nat) : (S (S (S n)) + 2) / 3 = S ((n + 2) / 3).
Proof.
  replace (S (S (S n)) + 2) with ((n + 2) + 1 * 3) by lia.
  rewrite Nat.div_add by lia. generalize ((n + 2) / 3). intros m. lia.
Qed.

Lemma EncodeToString_length_eq (l : list byte) :
  String.length (main.EncodeToString l) = 4 * ((length l + 2) / 3).
Proof.
  revert l. apply EncodeToString_triples; try done.
  intros a b c l IH.
  change (String.length (main.EncodeToString (a :: b :: c :: l)))
    with (4 + String.length (main.EncodeToString l)).
  rewrite IH. change (length (a :: b :: c :: l)) with (S (S (S (length l)))).
  rewrite div3_step. generalize ((length l + 2) / 3). intros m. lia.
Qed.

Lemma EncodeToString_empty (src : list byte) :
  main.EncodeToString src = "" ↔ src = [].
Proof.
  split; [|by intros ->].
  intros He. pose proof (EncodeToString_length_eq src) as H. rewrite He in H.
  destruct src as [|a l]; [done|]. exfalso.
  assert (Hm : 1 ≤ (length (a :: l) + 2) / 3).
  { apply Nat.div_le_lower_bound; cbn [length]; lia. }
  revert H Hm. generalize ((length (a :: l) + 2) / 3). intros m H Hm.
  change (String.length "") with 0 in H. lia.
Qed.

(** X11: the base64 text the client makes of a payload of [n] bytes has
    [4 * ceil(n / 3)] characters, so it is empty exactly for the empty
    payload. *)
Theorem EncodeToString_length (src : list byte) :
  String.length (main.EncodeToString src) = 4 * ((length src + 2) / 3)
  ∧ (main.EncodeToString src = "" ↔ src = []).
Proof.
  assert (Hlen : ∀ l, String.length (main.EncodeToString l) = 4 * ((length l + 2) / 3)).
  { apply EncodeToString_triples; try done.
    intros a b c l IH.
    change (String.length (main.EncodeToString (a :: b :: c :: l)))
      with (4 + String.length (main.EncodeToString l)).
    rewrite IH. change (length (a :: b :: c :: l)) with (S (S (S (length l)))).
    rewrite div3_step. generalize ((length l + 2) / 3). intros m. lia. }
  split; [apply Hlen|]. split; [|by intros ->].
  intros He. pose proof (Hlen src) as H. rewrite He in H.
  destruct src as [|a l]; [done|]. exfalso.
  assert (Hm : 1 ≤ (length (a :: l) + 2) / 3).
  { apply Nat.div_le_lower_bound; cbn [length]; lia. }
  revert H Hm. generalize ((length (a :: l) + 2) / 3). intros m H Hm.
  change (String.length "") with 0 in H. lia.
Qed.

Lemma isOffline_emitted (f : FrameData) :
  frontend.isOffline (emitted (Some f)) = isOfflineFrame (Some f).
Proof.
  unfold frontend.isOffline, isOfflineFrame, emitted. cbn.
  f_equal.
  destruct (EncodeToString_empty (ImageData f)) as [H1 H2].
  destruct (ImageData f) as [|b l] eqn:Hd; [done|].
  cbn [length Nat.eqb]. apply String.eqb_neq. intros He. by specialize (H1 He).
Qed.

(** X12: the front end and the server agree on what the offline marker is:
    for a frame that went through the client, the handler of the front end
    removes the agent from the displayed frames exactly when [isOfflineFrame]
    holds of the frame, and shows the frame's payload under the agent's id
    otherwise; other agents stay as they are. *)
Theorem frontend_agrees_on_offline (f : FrameData)
    (prev : gmap string frontend.OverviewFrameData) :
  frontend.isOffline (emitted (Some f)) = isOfflineFrame (Some f)
  ∧ frontend.handler (emitted (Some f)) prev !! AgentId f
    = (if isOfflineFrame (Some f) then None else Some (emitted (Some f)))
  ∧ (∀ x, x ≠ AgentId f →
          frontend.handler (emitted (Some f)) prev !! x = prev !! x)
  ∧ (∀ agentId,
       frontend.handler (emitted (newOfflineFrame agentId)) prev = delete agentId prev).
Proof.
  split; [apply isOffline_emitted|].
  unfold frontend.handler. rewrite isOffline_emitted.
  split; [|split].
  - destruct (isOfflineFrame (Some f)); cbn.
    + apply lookup_delete_eq.
    + apply lookup_insert_eq.
  - intros x Hx. destruct (isOfflineFrame (Some f)); cbn.
    + by apply lookup_delete_ne.
    + by apply lookup_insert_ne.
  - intros agentId. reflexivity.
Qed.

Lemma frontend_agrees_on_offline_witness :
  frontend.handler (emitted (Some frame1))
    (<["b1" := emitted (Some frame2)]> ∅) !! "a1" = Some (emitted (Some frame1))
  ∧ frontend.handler (emitted (Some (mkFrameData "a1" [] 0 false)))
      (<["a1" := emitted (Some frame1)]> ∅) !! "a1" = None
  ∧ frontend.handler (emitted (Some frame1))
      (<["b1" := emitted (Some frame2)]> ∅) !! "b1" = Some (emitted (Some frame2)).
Proof.
  split; [|split].
  - destruct (frontend_agrees_on_offline frame1 (<["b1" := emitted (Some frame2)]> ∅))
      as (_ & H & _).
    exact H.
  - destruct (frontend_agrees_on_offline (mkFrameData "a1" [] 0 false)
                (<["a1" := emitted (Some frame1)]> ∅)) as (_ & H & _).
    exact H.
  - destruct (frontend_agrees_on_offline frame1 (<["b1" := emitted (Some frame2)]> ∅))
      as (_ & _ & H & _).
    rewrite (H "b1") by done. apply lookup_insert_eq.
Defined.




(* ===================================================================== *)
(** ** Further properties: what each subscriber takes in                  *)
(* ===================================================================== *)

Lemma pump_receivedEvents (p : loc) (st st' : state) (q : loc) :
  pump p true st = Ok st' → receivedEvents st' q = receivedEvents st q.
Proof.
  unfold pump.
  destruct (handlers st !! p) as [h|] eqn:Hh; [|by intros [= <-]].
  destruct (heap st !! p) as [sub|] eqn:Hsub; [|by intros [= <-]].
  destruct (h_phase h); try by intros [= <-].
  assert (Hret :
    receivedEvents {| heap := heap st;
                      handlers := <[p := set_phase Returning h]> (handlers st);
                      nextLoc := nextLoc st; svc := svc st |} q
    = receivedEvents st q).
  { unfold receivedEvents. cbn [heap handlers].
    destruct (decide (q = p)) as [->|Hne].
    - by rewrite !lookup_insert_eq, Hsub, Hh.
    - by rewrite !lookup_insert_ne. }
  destruct (h_key h); unfold Chan.recv.
  - destruct (Chan.buf (frameChan sub)) as [|x b] eqn:Hbuf.
    + destruct (Chan.closed (frameChan sub)); intros [= <-]; done.
    + intros [= <-]. unfold receivedEvents. cbn [heap handlers].
      destruct (decide (q = p)) as [->|Hne].
      * by rewrite !lookup_insert_eq, Hsub, Hh.
      * by rewrite !lookup_insert_ne.
  - destruct (Chan.buf (frameChan sub)) as [|x b] eqn:Hbuf.
    + destruct (Chan.closed (frameChan sub)); intros [= <-]; done.
    + intros [= <-]. unfold receivedEvents. cbn [heap handlers].
      destruct (decide (q = p)) as [->|Hne].
      * by rewrite !lookup_insert_eq, Hsub, Hh.
      * by rewrite !lookup_insert_ne.
  - destruct (Chan.buf (eventChan sub)) as [|x b] eqn:Hbuf.
    + destruct (Chan.closed (eventChan sub)); intros [= <-]; done.
    + intros [= <-]. unfold receivedEvents. cbn [heap handlers].
      destruct (decide (q = p)) as [->|Hne].
      * rewrite !lookup_insert_eq, Hsub, Hh. cbn. rewrite Hbuf.
        by rewrite <- app_assoc.
      * by rewrite !lookup_insert_ne.
Qed.

Lemma eventSentTo_receivedEvents event l st st' (p : loc) :
  eventSentTo event l st st' →
  receivedEvents st' p
  = receivedEvents st p ++ (if decide (p ∈ l)
                            then if hasEventRoom st p then [event] else []
                            else []).
Proof.
  intros (_ & Hh & _ & Hheap). unfold receivedEvents, hasEventRoom. rewrite Hheap, Hh.
  destruct (heap st !! p) as [sub|]; case_decide; cbn -[pushEvent];
    try by rewrite ?app_nil_r.
  case_bool_decide as Hfull.
  - rewrite pushEvent_room by done. cbn. by rewrite app_assoc.
  - rewrite pushEvent_full by done. by rewrite app_nil_r.
Qed.

Lemma eventSentTo_received event l st st' (p : loc) :
  eventSentTo event l st st' → received st' p = received st p.
Proof.
  intros (_ & Hh & _ & Hheap). unfold received. rewrite Hheap, Hh.
  by destruct (heap st !! p) as [sub|]; case_decide.
Qed.

Lemma frameSentTo_receivedEvents frame l st st' (p : loc) :
  frameSentTo frame l st st' → receivedEvents st' p = receivedEvents st p.
Proof.
  intros (_ & Hh & _ & Hheap). unfold receivedEvents. rewrite Hheap, Hh.
  by destruct (heap st !! p) as [sub|]; case_decide.
Qed.

Lemma events_target (agentId : string) (st : state) (k : key) (p : loc) :
  wf st → lookupKey (svc st) k = Some p →
  p ∈ eventsTargets agentId st ↔ eventReaches agentId k = true.
Proof.
  intros [_ Hinj] Hk. rewrite elem_of_eventsTargets. split.
  - intros (a & Ha). rewrite <- (Hinj _ _ _ Ha Hk). cbn.
    by apply bool_decide_eq_true.
  - destruct k as [a|a g|a g]; cbn; [done|done|].
    intros ->%bool_decide_eq_true. by eauto.
Qed.

Lemma frame_publish_received (g : string) (fr : FramePtr) (st st1 : state)
    (k : key) (p : loc) :
  wf st → lookupKey (svc st) k = Some p →
  frameSentTo fr (overviewTargets st ++ detailTargets g st) st st1 →
  (if frameReaches g k then hasRoom st p else true) = true →
  received st1 p = received st p ++ (if frameReaches g k then [fr] else [])
  ∧ receivedEvents st1 p = receivedEvents st p.
Proof.
  intros Hwf Hk Hsent Hroom.
  split; [|by eapply frameSentTo_receivedEvents].
  rewrite (frameSentTo_received _ _ _ _ p Hsent).
  pose proof (fanout_targets g st k p Hwf Hk) as Ht.
  destruct (frameReaches g k).
  - rewrite decide_True by (by apply Ht). by rewrite Hroom.
  - rewrite decide_False; [done|]. intros Hin. by apply Ht in Hin.
Qed.

Lemma event_publish_received (g : string) (e : EventPtr) (st st1 : state)
    (k : key) (p : loc) :
  wf st → lookupKey (svc st) k = Some p →
  eventSentTo e (eventsTargets g st) st st1 →
  (if eventReaches g k then hasEventRoom st p else true) = true →
  received st1 p = received st p
  ∧ receivedEvents st1 p = receivedEvents st p ++ (if eventReaches g k then [e] else []).
Proof.
  intros Hwf Hk Hsent Hroom.
  split; [by eapply eventSentTo_received|].
  rewrite (eventSentTo_receivedEvents _ _ _ _ p Hsent).
  pose proof (events_target g st k p Hwf Hk) as Ht.
  destruct (eventReaches g k).
  - rewrite decide_True by (by apply Ht). by rewrite Hroom.
  - rewrite decide_False; [done|]. intros Hin. by apply Ht in Hin.
Qed.

(** X14: take a state where every registered subscriber is open and
    registered once, a subscriber registered under a key, and any trace of
    publishes ([HandleIncomingFrame], [PublishAgentOffline],
    [broadcastEvents]) and of handlers forwarding, during which that
    subscriber's queue has room whenever something its key selects is
    published.  Then the trace runs without a panic, the subscriber stays
    registered, and what it has taken in (forwarded, then queued) is what it
    had followed by exactly the published items its key selects, in the
    order of the calls: all frames and offline markers for an overview key,
    those of its agent for a detail key, and the events of its agent for an
    events key; it takes in no item of the other kind. *)
Theorem subscriber_takes_in_what_its_key_selects (k : key) (tr : list action) :
  ∀ (st : state) (p : loc),
    wf st → lookupKey (svc st) k = Some p →
    forallb isPublishOrForward tr = true →
    roomWhenReached k p tr st = true →
    ∃ st', run tr st = Ok st'
           ∧ wf st'
           ∧ lookupKey (svc st') k = Some p
           ∧ received st' p = received st p ++ framesFor k tr
           ∧ receivedEvents st' p = receivedEvents st p ++ eventsFor k tr.
Proof.
  induction tr as [|a tr IH]; intros st p Hwf Hk Htr Hroom.
  { exists st. by rewrite !app_nil_r. }
  cbn [forallb] in Htr. apply andb_true_iff in Htr as [Ha Htr].
  cbn [roomWhenReached] in Hroom.
  apply andb_true_iff in Hroom as [Hroom Hrest].
  apply andb_true_iff in Hroom as [Hfr Hev].
  rewrite run_cons.
  assert (Hnext : ∀ st1 lf le,
    step a st = Ok st1 → wf st1 → svc st1 = svc st →
    received st1 p = received st p ++ lf →
    receivedEvents st1 p = receivedEvents st p ++ le →
    framesFor k (a :: tr) = lf ++ framesFor k tr →
    eventsFor k (a :: tr) = le ++ eventsFor k tr →
    ∃ st', step a st ≫= run tr = Ok st' ∧ wf st'
           ∧ lookupKey (svc st') k = Some p
           ∧ received st' p = received st p ++ framesFor k (a :: tr)
           ∧ receivedEvents st' p = receivedEvents st p ++ eventsFor k (a :: tr)).
  { intros st1 lf le Hstep Hwf1 Hsvc Hr Hre Hlf Hle. rewrite Hstep in Hrest |- *.
    destruct (IH st1 p Hwf1) as (st' & Hrun & Hwf' & Hk' & Hr' & Hre'); try done.
    { by rewrite Hsvc. }
    exists st'. split; [done|]. split; [done|]. split; [done|].
    rewrite Hr', Hre', Hr, Hre, Hlf, Hle. by rewrite !app_assoc. }
  destruct a as [|q ok| | |[f|]|g|g e]; try discriminate Ha.
  - destruct ok; [|discriminate Ha]. cbn [step].
    destruct (pump_ok q true st) as (st1 & Hrun & Hsvc & _ & Hflags).
    apply (Hnext st1 [] []); try done.
    + by eapply wf_sameFlags.
    + rewrite app_nil_r. by apply (pump_received q).
    + rewrite app_nil_r. by apply (pump_receivedEvents q).
  - destruct (HandleIncomingFrame_spec f st Hwf) as (st1 & Hrun & Hsent).
    destruct (frame_publish_received (AgentId f) (Some f) st st1 k p) as [Hr Hre];
      try done.
    apply (Hnext st1 (if frameReaches (AgentId f) k then [Some f] else []) []);
      try done.
    + by eapply frameSentTo_wf.
    + apply Hsent.
    + by rewrite app_nil_r.
    + cbn. by destruct (frameReaches (AgentId f) k).
  - apply (Hnext st [] []); try done; by rewrite app_nil_r.
  - destruct (PublishAgentOffline_spec g st Hwf) as (st1 & Hrun & Hsent).
    destruct (frame_publish_received g (newOfflineFrame g) st st1 k p) as [Hr Hre];
      try done.
    apply (Hnext st1 (if frameReaches g k then [newOfflineFrame g] else []) []);
      try done.
    + by eapply frameSentTo_wf.
    + apply Hsent.
    + by rewrite app_nil_r.
    + cbn. by destruct (frameReaches g k).
  - destruct (broadcastEvents_spec g e st Hwf) as (st1 & Hrun & Hsent).
    destruct (event_publish_received g e st st1 k p) as [Hr Hre]; try done.
    apply (Hnext st1 [] (if eventReaches g k then [e] else [])); try done.
    + by eapply eventSentTo_wf.
    + apply Hsent.
    + by rewrite app_nil_r.
    + cbn. by destruct (eventReaches g k).
Qed.

Lemma subscriber_takes_in_what_its_key_selects_witness :
  let tr := [IncomingFrame (Some frame1); PublishEvent "a1" None; Pump 1 true;
             AgentOffline "b1"; IncomingFrame (Some frame2); AgentOffline "a1";
             PublishEvent "b1" None] in
  wf fourSubscribers
  ∧ ∃ st', run tr fourSubscribers = Ok st'
           ∧ received st' 0 = [Some frame1; newOfflineFrame "b1"; Some frame2;
                               newOfflineFrame "a1"]
           ∧ received st' 1 = [Some frame1; Some frame2; newOfflineFrame "a1"]
           ∧ received st' 2 = [newOfflineFrame "b1"]
           ∧ receivedEvents st' 3 = [None]
           ∧ received st' 3 = [].
Proof.
  intros tr.
  assert (Hwf : wf fourSubscribers) by apply reachable_wf, reachable_stateOf.
  split; [exact Hwf|].
  destruct (subscriber_takes_in_what_its_key_selects (KOverview "O1") tr
              fourSubscribers 0 Hwf)
    as (st' & Hrun & _ & _ & H0 & _); [vm_compute; reflexivity..|].
  destruct (subscriber_takes_in_what_its_key_selects (KDetail "O1" "a1") tr
              fourSubscribers 1 Hwf)
    as (s1 & Hrun1 & _ & _ & H1 & _); [vm_compute; reflexivity..|].
  destruct (subscriber_takes_in_what_its_key_selects (KDetail "O2" "b1") tr
              fourSubscribers 2 Hwf)
    as (s2 & Hrun2 & _ & _ & H2 & _); [vm_compute; reflexivity..|].
  destruct (subscriber_takes_in_what_its_key_selects (KEvents "O1" "a1") tr
              fourSubscribers 3 Hwf)
    as (s3 & Hrun3 & _ & _ & H3 & H3e); [vm_compute; reflexivity..|].
  rewrite Hrun in Hrun1, Hrun2, Hrun3.
  injection Hrun1 as <-. injection Hrun2 as <-. injection Hrun3 as <-.
  exists st'. split; [exact Hrun|].
  rewrite H0, H1, H2, H3, H3e. repeat split; vm_compute; reflexivity.
Defined.
